(** * arr-sync: state resolution, diffing and plan execution

    A shallow embedding of [tools/arr-sync] (state.py, diff.py,
    recyclarr_config.py and the [plan]/[apply] commands of arr_sync.py),
    with the properties the design document states about it.

    Conventions of the embedding:
    - a Python [dict] read with [.get] is a [gmap string JValue], an absent
      key reading as [JNull] (Python's [None]);
    - keys the source indexes with [d["k"]] on objects returned by the
      services ([id], [name], [path]) are record fields;
    - [DesiredState.users] is an insertion-ordered dictionary and is kept as
      an association list, because the reference pass walks it in order;
    - a deferred [execute] callable is the constructor of [Op] naming the
      client call it closes over, together with the captured arguments; what
      running it does to the outside world is given by an interpreter
      [run_op] over an arbitrary world type;
    - an exception is the left injection of a sum; the operations the
      executor runs either return or raise an [Exception];
    - the planners are modelled on the answers the GET endpoints give
      ([fetch]); a request that fails raises out of the planner and is not
      part of the model. *)

From stdpp Require Import gmap strings list fin_maps pretty.
From Stdlib Require Import ZArith QArith.
From Stdlib Require Import Qround.

(** ** Python values and exceptions *)

Inductive PyError :=
| KeyError (key : string)
| RuntimeError (msg : string)
| ValueError (msg : string)
| OtherError (msg : string).

(** A character of a [string] stands for the Python character of the same
    code point (below 256). *)

(** [str.isprintable] on one character: ASCII from the space to the tilde,
    and Latin-1 from U+00A1 on except the soft hyphen. *)
Definition repr_printable (n : nat) : bool :=
  ((32 <=? n) && (n <? 127) || (161 <=? n) && negb (n =? 173))%nat.

Definition hex_digit (n : nat) : Ascii.ascii :=
  if (n <? 10)%nat then Ascii.ascii_of_nat (48 + n)
  else Ascii.ascii_of_nat (87 + n).

Definition backslash : Ascii.ascii := Ascii.ascii_of_nat 92.
Definition squote : Ascii.ascii := Ascii.ascii_of_nat 39.

Fixpoint contains_char (c : Ascii.ascii) (s : string) : bool :=
  match s with
  | EmptyString => false
  | String c' s' => Ascii.eqb c' c || contains_char c s'
  end.

(** What [repr] writes for one character inside the quotes. *)
Definition repr_char (quote c : Ascii.ascii) : string :=
  let n := Ascii.nat_of_ascii c in
  if Ascii.eqb c quote || Ascii.eqb c backslash
  then String backslash (String c EmptyString)
  else if (n =? 9)%nat then String backslash "t"
  else if (n =? 10)%nat then String backslash "n"
  else if (n =? 13)%nat then String backslash "r"
  else if repr_printable n then String c EmptyString
  else String backslash
         (String (Ascii.ascii_of_nat 120)
            (String (hex_digit (n / 16))
               (String (hex_digit (n mod 16)) EmptyString))).

Fixpoint repr_chars (quote : Ascii.ascii) (s : string) : string :=
  match s with
  | EmptyString => EmptyString
  | String c s' => repr_char quote c +:+ repr_chars quote s'
  end.

(** [repr(s)] of a [str]: single quotes, unless the text holds a single
    quote and no double quote. *)
Definition py_repr (s : string) : string :=
  let quote :=
    if contains_char squote s && negb (contains_char (Ascii.ascii_of_nat 34) s)
    then Ascii.ascii_of_nat 34 else squote in
  String quote (repr_chars quote s +:+ String quote EmptyString).

(** [str(e)]: a [KeyError] prints the [repr] of its key. *)
Definition py_str (e : PyError) : string :=
  match e with
  | KeyError key => py_repr key
  | RuntimeError msg | ValueError msg | OtherError msg => msg
  end.

Definition result (A : Type) : Type := PyError + A.

Definition bind_result {A B} (r : result A) (k : A → result B) : result B :=
  match r with
  | inl e => inl e
  | inr a => k a
  end.

Notation "'let*' x ':=' r 'in' k" := (bind_result r (fun x => k))
  (at level 10, x name, r at level 100, k at level 200).

(** JSON / YAML values as Python sees them after decoding. *)
#[local] Set Warnings "-register-all".
Inductive JValue :=
| JNull
| JBool (b : bool)
| JNum (q : Q)
| JStr (s : string)
| JArr (items : list JValue)
| JObj (members : list (string * JValue)).

Fixpoint assoc_get {A} (k : string) (l : list (string * A)) : option A :=
  match l with
  | [] => None
  | (k', v) :: l' => if String.eqb k' k then Some v else assoc_get k l'
  end.

Definition Q_of_bool (b : bool) : Q := if b then 1%Q else 0%Q.

(** Python [==] on decoded values: numbers ([int] and finite [float]) compare
    by value, [bool] is a subtype of [int], sequences compare element-wise,
    mappings compare key-wise. *)
Fixpoint py_eq (a b : JValue) : bool :=
  match a, b with
  | JNull, JNull => true
  | JBool x, JBool y => Bool.eqb x y
  | JBool x, JNum n => Qeq_bool n (Q_of_bool x)
  | JNum n, JBool x => Qeq_bool n (Q_of_bool x)
  | JNum m, JNum n => Qeq_bool m n
  | JStr s, JStr t => String.eqb s t
  | JArr xs, JArr ys =>
      (fix go (xs ys : list JValue) : bool :=
         match xs, ys with
         | [], [] => true
         | x :: xs', y :: ys' => py_eq x y && go xs' ys'
         | _, _ => false
         end) xs ys
  | JObj o1, JObj o2 =>
      (length o1 =? length o2)%nat &&
      (fix go (o : list (string * JValue)) : bool :=
         match o with
         | [] => true
         | (k, v) :: o' =>
             match assoc_get k o2 with
             | Some v' => py_eq v v'
             | None => false
             end && go o'
         end) o1
  | _, _ => false
  end.

(** [d.get(k)] on a decoded mapping. *)
Definition dict_get (d : gmap string JValue) (k : string) : JValue :=
  default JNull (d !! k).

(** Truthiness of a mapping: [not d] holds exactly for the empty one. *)
Definition dict_truthy (d : gmap string JValue) : bool :=
  negb (bool_decide (size d = 0%nat)).

(** Truthiness of a string: [not s] holds exactly for the empty string. *)
Definition str_truthy (s : string) : bool :=
  match s with
  | EmptyString => false
  | String _ _ => true
  end.

Definition dquote : string := String (Ascii.ascii_of_nat 34) EmptyString.

(** [f'"{s}"'] *)
Definition quoted (s : string) : string := dquote +:+ s +:+ dquote.

(** [sep.join(parts)] *)
Fixpoint join (sep : string) (parts : list string) : string :=
  match parts with
  | [] => EmptyString
  | [p] => p
  | p :: rest => p +:+ sep +:+ join sep rest
  end.

(** ** Insertion-ordered dictionaries keyed by strings *)

Section odict.
Context {A : Type}.

Definition odict_get (k : string) (d : list (string * A)) : option A :=
  assoc_get k d.

(** [d[k] = v]: overwrite in place when the key exists, append otherwise. *)
Fixpoint odict_set (k : string) (v : A) (d : list (string * A))
  : list (string * A) :=
  match d with
  | [] => [(k, v)]
  | (k', v') :: d' =>
      if String.eqb k' k then (k', v) :: d' else (k', v') :: odict_set k v d'
  end.

Definition odict_keys (d : list (string * A)) : list string := d.*1.
End odict.

(** ** state.py: the desired-state tree *)

Record SeedrConfig := mkSeedrConfig {
  seedr_email : string;
  seedr_password : string;
  seedr_download_directory : string;
  seedr_delete_from_cloud : bool
}.

Record ServiceConfig := mkServiceConfig {
  svc_url : string;
  svc_api_key : string;
  svc_container : string;
  svc_root_folders : list string;
  svc_naming : gmap string JValue;
  svc_media_management : gmap string JValue
}.

Record UserState := mkUserState {
  user_name : string;
  user_seedr : option SeedrConfig;
  user_radarr : option ServiceConfig;
  user_sonarr : option ServiceConfig;
  user_overseerr_url : string;
  user_is_reference : bool;
  user_reference : string
}.

Record ProwlarrConfig := mkProwlarrConfig {
  prowlarr_url : string;
  prowlarr_api_key : string
}.

Record RecyclarrConfig := mkRecyclarrConfig { recyclarr_config_path : string }.

Record FlareSolverrConfig := mkFlareSolverrConfig { flaresolverr_url : string }.

Record DesiredState := mkDesiredState {
  state_prowlarr : option ProwlarrConfig;
  state_recyclarr : option RecyclarrConfig;
  state_flaresolverr : option FlareSolverrConfig;
  state_users : list (string * UserState)
}.

(** The two service families, in the order the source walks them:
    [("radarr", "sonarr")]. *)
Inductive Family := Radarr | Sonarr.

Definition families : list Family := [Radarr; Sonarr].

(** [getattr(user, svc_name)] *)
Definition user_service (f : Family) (u : UserState) : option ServiceConfig :=
  match f with
  | Radarr => user_radarr u
  | Sonarr => user_sonarr u
  end.

Definition set_user_service (f : Family) (s : option ServiceConfig)
    (u : UserState) : UserState :=
  match f with
  | Radarr =>
      mkUserState (user_name u) (user_seedr u) s (user_sonarr u)
        (user_overseerr_url u) (user_is_reference u) (user_reference u)
  | Sonarr =>
      mkUserState (user_name u) (user_seedr u) (user_radarr u) s
        (user_overseerr_url u) (user_is_reference u) (user_reference u)
  end.

(** *** The declared document, as [yaml.safe_load] returns it

    Every key is optional; a block whose keys are all absent is the empty
    mapping, which Python treats as false. *)

Record RawSeedr := mkRawSeedr {
  raw_email : option string;
  raw_password : option string;
  raw_download_directory : option string;
  raw_delete_from_cloud : option bool
}.

Record RawService := mkRawService {
  raw_url : option string;
  raw_api_key : option string;
  raw_container : option string;
  raw_root_folders : option (list string);
  raw_naming : option (gmap string JValue);
  raw_media_management : option (gmap string JValue)
}.

Record RawUser := mkRawUser {
  raw_seedr : option RawSeedr;
  raw_radarr : option RawService;
  raw_sonarr : option RawService;
  raw_overseerr : option (option string);
  raw_is_reference : option bool;
  raw_reference : option string
}.

Record RawShared := mkRawShared {
  raw_shared_url : option string;
  raw_shared_api_key : option string;
  raw_shared_container : option string;
  raw_shared_config_path : option string
}.

Record RawDoc := mkRawDoc {
  raw_prowlarr : option RawShared;
  raw_recyclarr : option RawShared;
  raw_flaresolverr : option RawShared;
  raw_users : option (list (string * RawUser))
}.

Definition raw_seedr_empty (d : RawSeedr) : bool :=
  match raw_email d, raw_password d, raw_download_directory d,
        raw_delete_from_cloud d with
  | None, None, None, None => true
  | _, _, _, _ => false
  end.

Definition raw_service_empty (d : RawService) : bool :=
  match raw_url d, raw_api_key d, raw_container d, raw_root_folders d,
        raw_naming d, raw_media_management d with
  | None, None, None, None, None, None => true
  | _, _, _, _, _, _ => false
  end.

(** [data["k"]] on a declared block. *)
Definition require {A} (key : string) (o : option A) : result A :=
  match o with
  | Some a => inr a
  | None => inl (KeyError key)
  end.

Definition _parse_seedr (data : option RawSeedr) : result (option SeedrConfig) :=
  match data with
  | None => inr None
  | Some d =>
      if raw_seedr_empty d then inr None
      else
        let* email := require "email" (raw_email d) in
        let* password := require "password" (raw_password d) in
        inr (Some (mkSeedrConfig email password
                     (default "/downloads" (raw_download_directory d))
                     (default true (raw_delete_from_cloud d))))
  end.

Definition _parse_service (data : option RawService) : option ServiceConfig :=
  match data with
  | None => None
  | Some d =>
      if raw_service_empty d then None
      else
        Some (mkServiceConfig
                (default EmptyString (raw_url d))
                (default EmptyString (raw_api_key d))
                (default EmptyString (raw_container d))
                (default [] (raw_root_folders d))
                (default ∅ (raw_naming d))
                (default ∅ (raw_media_management d)))
  end.

Section resolve.
(** [load_yaml(config_path)]: the decoded document, or the exception of
    [open] / [yaml.safe_load]. *)
Variable load_yaml : string → result RawDoc.

(** [extract_api_key(container, config_dir)]: the key scraped from the
    container (or found in the side-file cache), or the [RuntimeError] of
    [_docker_extract]. *)
Variable extract_api_key : string → result string.

Definition _resolve_api_key (service : option ServiceConfig)
  : result (option ServiceConfig) :=
  match service with
  | None => inr None
  | Some s =>
      if negb (str_truthy (svc_api_key s)) && str_truthy (svc_container s)
      then
        let* key := extract_api_key (svc_container s) in
        inr (Some (mkServiceConfig (svc_url s) key (svc_container s)
                     (svc_root_folders s) (svc_naming s)
                     (svc_media_management s)))
      else inr service
  end.

(** The body of the [for svc_name in ("radarr", "sonarr")] loop of
    [_apply_reference]; [copy.deepcopy] of an immutable value is the
    value. *)
Definition apply_reference_service (target_svc ref_svc : option ServiceConfig)
  : option ServiceConfig :=
  match target_svc, ref_svc with
  | Some t, Some r =>
      let naming' :=
        if negb (dict_truthy (svc_naming t)) then svc_naming r
        else svc_naming t in
      let mm' :=
        if negb (dict_truthy (svc_media_management t))
        then svc_media_management r
        else svc_media_management t in
      Some (mkServiceConfig (svc_url t) (svc_api_key t) (svc_container t)
              (svc_root_folders t) naming' mm')
  | _, _ => target_svc
  end.

Definition _apply_reference (user ref_user : UserState) : UserState :=
  foldl (fun u f =>
           set_user_service f
             (apply_reference_service (user_service f u)
                                      (user_service f ref_user)) u)
        user families.

Definition dangling_message (username reference : string) : string :=
  "User '" +:+ username +:+ "' references '" +:+ reference +:+
  "' which is not defined".

(** One iteration of the second pass of [resolve_state]; the user objects
    live in the dictionary and are updated there. *)
Definition resolve_one (users : list (string * UserState)) (username : string)
  : result (list (string * UserState)) :=
  match odict_get username users with
  | None => inr users
  | Some user =>
      if str_truthy (user_reference user) then
        match odict_get (user_reference user) users with
        | None =>
            inl (ValueError (dangling_message username (user_reference user)))
        | Some ref_user =>
            inr (odict_set username (_apply_reference user ref_user) users)
        end
      else inr users
  end.

Fixpoint resolve_keys (keys : list string) (users : list (string * UserState))
  : result (list (string * UserState)) :=
  match keys with
  | [] => inr users
  | k :: keys' =>
      let* users' := resolve_one users k in
      resolve_keys keys' users'
  end.

(** "Resolve references (second pass after all users parsed)". *)
Definition resolve_references (users : list (string * UserState))
  : result (list (string * UserState)) :=
  resolve_keys (odict_keys users) users.

Definition parse_user (username : string) (udata : RawUser) : result UserState :=
  let* seedr := _parse_seedr (raw_seedr udata) in
  let radarr := _parse_service (raw_radarr udata) in
  let sonarr := _parse_service (raw_sonarr udata) in
  let overseerr_url :=
    match raw_overseerr udata with
    | Some o => default EmptyString o
    | None => EmptyString
    end in
  let* radarr' := _resolve_api_key radarr in
  let* sonarr' := _resolve_api_key sonarr in
  inr (mkUserState username seedr radarr' sonarr' overseerr_url
         (default false (raw_is_reference udata))
         (default EmptyString (raw_reference udata))).

(** The first pass over [users_raw.items()]. *)
Fixpoint parse_users (users_raw : list (string * RawUser))
    (users : list (string * UserState)) : result (list (string * UserState)) :=
  match users_raw with
  | [] => inr users
  | (username, udata) :: rest =>
      let* user := parse_user username udata in
      parse_users rest (odict_set username user users)
  end.

Definition parse_prowlarr (raw : RawDoc) : result (option ProwlarrConfig) :=
  match raw_prowlarr raw with
  | None => inr None
  | Some p =>
      let key0 := default EmptyString (raw_shared_api_key p) in
      let* key :=
        if negb (str_truthy key0) &&
           str_truthy (default EmptyString (raw_shared_container p))
        then extract_api_key (default EmptyString (raw_shared_container p))
        else inr key0 in
      inr (Some (mkProwlarrConfig (default EmptyString (raw_shared_url p)) key))
  end.

Definition resolve_state (config_path : string) : result DesiredState :=
  let* raw := load_yaml config_path in
  let* prowlarr := parse_prowlarr raw in
  let recyclarr :=
    match raw_recyclarr raw with
    | None => None
    | Some r => Some (mkRecyclarrConfig (default EmptyString (raw_shared_config_path r)))
    end in
  let flaresolverr :=
    match raw_flaresolverr raw with
    | None => None
    | Some r => Some (mkFlareSolverrConfig (default EmptyString (raw_shared_url r)))
    end in
  let* users := parse_users (default [] (raw_users raw)) [] in
  let* users' := resolve_references users in
  inr (mkDesiredState prowlarr recyclarr flaresolverr users').
End resolve.

(** ** The services as the clients see them *)

(** [base_url.rstrip("/")] *)
Fixpoint rstrip_slash (s : string) : string :=
  match s with
  | EmptyString => EmptyString
  | String c s' =>
      match rstrip_slash s' with
      | EmptyString =>
          if Ascii.eqb c (Ascii.ascii_of_nat 47) then EmptyString
          else String c EmptyString
      | r => String c r
      end
  end.

Record ArrClient := mkArrClient {
  arr_base_url : string;
  arr_api_key : string
}.

(** [ArrClient(base_url, api_key)] *)
Definition new_ArrClient (base_url api_key : string) : ArrClient :=
  mkArrClient (rstrip_slash base_url) api_key.

Record ProwlarrClient := mkProwlarrClient {
  prowlarr_base_url : string;
  prowlarr_client_api_key : string
}.

Definition new_ProwlarrClient (base_url api_key : string) : ProwlarrClient :=
  mkProwlarrClient (rstrip_slash base_url) api_key.

(** One entry of a provider [fields] list; both keys are read with [.get]. *)
Record Field := mkField {
  field_name : JValue;
  field_value : JValue
}.

Record DownloadClient := mkDownloadClient {
  dc_id : Z;
  dc_implementation : JValue;
  dc_fields : list Field
}.

Record RootFolder := mkRootFolder {
  rf_id : Z;
  rf_path : string
}.

Record CustomFormat := mkCustomFormat {
  cf_id : Z;
  cf_name : string;
  cf_rest : gmap string JValue
}.

Record QualityProfile := mkQualityProfile {
  qp_id : Z;
  qp_name : string;
  qp_rest : gmap string JValue
}.

Record ProwlarrApp := mkProwlarrApp {
  app_id : Z;
  app_name : string;
  app_fields : list Field
}.

(** What the GET endpoints of one Radarr/Sonarr instance answer. *)
Record ArrLive := mkArrLive {
  live_download_clients : list DownloadClient;
  live_root_folders : list RootFolder;
  live_custom_formats : list CustomFormat;
  live_quality_profiles : list QualityProfile;
  live_quality_definitions : list (gmap string JValue);
  live_naming_config : gmap string JValue;
  live_media_management : gmap string JValue
}.

(** ** diff.py: actions and plans *)

Inductive ActionType := CREATE | UPDATE | NOOP | WARNING.

(** [ActionType.value] *)
Definition action_symbol (t : ActionType) : string :=
  match t with
  | CREATE => "+"
  | UPDATE => "~"
  | NOOP => "="
  | WARNING => "!"
  end.

Definition ActionType_eqb (a b : ActionType) : bool :=
  match a, b with
  | CREATE, CREATE | UPDATE, UPDATE | NOOP, NOOP | WARNING, WARNING => true
  | _, _ => false
  end.

(** The deferred apply operations: one constructor per lambda or local
    function handed to [Action(execute=...)], with what it captured.
    [_sync_quality_profiles] captures the dictionary [cf_id_map]; the
    constructor records it as planning left it, and [_sync_custom_formats],
    which shares it, may add to it when it runs. *)
Inductive Op :=
| Op_create_download_client (client : ArrClient) (payload : JValue)
| Op_update_download_client (client : ArrClient) (existing_id : Z)
    (payload : JValue)
| Op_create_root_folder (client : ArrClient) (p : string)
| Op_sync_custom_formats (target_client : ArrClient)
    (ref_cfs : list CustomFormat)
| Op_sync_quality_profiles (target_client : ArrClient)
    (ref_profiles : list QualityProfile) (cf_id_map : gmap Z Z)
| Op_update_quality_definitions (target_client : ArrClient)
    (ref_defs : list (gmap string JValue))
| Op_update_naming_config (target_client : ArrClient)
    (desired_naming : gmap string JValue)
| Op_update_media_management (target_client : ArrClient)
    (desired_mm : gmap string JValue)
| Op_update_app (prowlarr : ProwlarrClient) (prowlarr_url : string)
    (name impl url key : string) (id : Z)
| Op_create_app (prowlarr : ProwlarrClient) (prowlarr_url : string)
    (name impl url key : string)
| Op_apply_recyclarr (state : DesiredState).

Inductive Action := mkAction {
  action_type : ActionType;
  action_category : string;
  action_name : string;
  action_detail : string;
  action_execute : option Op;
  action_children : list Action
}.

Record ServicePlan := mkServicePlan {
  sp_service_type : string;
  sp_url : string;
  sp_actions : list Action
}.

Record UserPlan := mkUserPlan {
  up_username : string;
  up_services : list ServicePlan
}.

Record ProwlarrPlan := mkProwlarrPlan {
  pp_url : string;
  pp_actions : list Action
}.

Record RecyclarrPlan := mkRecyclarrPlan {
  rp_config_path : string;
  rp_actions : list Action
}.

Record ChangePlan := mkChangePlan {
  cp_prowlarr : option ProwlarrPlan;
  cp_users : list UserPlan;
  cp_recyclarr : option RecyclarrPlan
}.

Definition all_actions (plan : ChangePlan) : list Action :=
  match cp_prowlarr plan with
  | Some p => pp_actions p
  | None => []
  end ++
  concat (map (fun user => concat (map sp_actions (up_services user)))
              (cp_users plan)) ++
  match cp_recyclarr plan with
  | Some r => rp_actions r
  | None => []
  end.

(** The body of the loop of [ChangePlan.summary]. *)
Definition summary_step (acc : nat * nat * nat) (action : Action)
  : nat * nat * nat :=
  let '(creates, updates, noops) := acc in
  if ActionType_eqb (action_type action) CREATE then (S creates, updates, noops)
  else if ActionType_eqb (action_type action) UPDATE
       then (creates, S updates, noops)
  else if ActionType_eqb (action_type action) NOOP
       then (creates, updates, S noops)
  else (creates, updates, noops).

Definition summary (plan : ChangePlan) : nat * nat * nat :=
  foldl summary_step (0, 0, 0)%nat (all_actions plan).

(** ** diff.py: the entity differencers *)

Definition _build_seedr_payload (seedr : SeedrConfig) : JValue :=
  JObj [("name", JStr "Seedr");
        ("implementation", JStr "Seedr");
        ("configContract", JStr "SeedrSettings");
        ("enable", JBool true);
        ("protocol", JStr "torrent");
        ("priority", JNum 1);
        ("removeCompletedDownloads", JBool true);
        ("removeFailedDownloads", JBool true);
        ("fields",
         JArr [JObj [("name", JStr "email");
                     ("value", JStr (seedr_email seedr))];
               JObj [("name", JStr "password");
                     ("value", JStr (seedr_password seedr))];
               JObj [("name", JStr "downloadDirectory");
                     ("value", JStr (seedr_download_directory seedr))];
               JObj [("name", JStr "deleteFromCloud");
                     ("value", JBool (seedr_delete_from_cloud seedr))]])].

Fixpoint _get_field_value (fields : list Field) (name : string) : JValue :=
  match fields with
  | [] => JNull
  | f :: rest =>
      if py_eq (field_name f) (JStr name) then field_value f
      else _get_field_value rest name
  end.

Definition _seedr_fields_match (existing : DownloadClient)
    (desired : SeedrConfig) : bool :=
  let fields := dc_fields existing in
  py_eq (_get_field_value fields "email") (JStr (seedr_email desired))
  && py_eq (_get_field_value fields "password")
           (JStr (seedr_password desired))
  && py_eq (_get_field_value fields "downloadDirectory")
           (JStr (seedr_download_directory desired))
  && py_eq (_get_field_value fields "deleteFromCloud")
           (JBool (seedr_delete_from_cloud desired)).

Definition _seedr_diff_detail (existing : DownloadClient)
    (desired : SeedrConfig) : string :=
  let fields := dc_fields existing in
  let changes : list string := [] in
  let changes :=
    if negb (py_eq (_get_field_value fields "email")
                   (JStr (seedr_email desired)))
    then changes ++ ["email"] else changes in
  let changes :=
    if negb (py_eq (_get_field_value fields "password")
                   (JStr (seedr_password desired)))
    then changes ++ ["password"] else changes in
  let changes :=
    if negb (py_eq (_get_field_value fields "downloadDirectory")
                   (JStr (seedr_download_directory desired)))
    then changes ++ ["downloadDirectory"] else changes in
  let changes :=
    if negb (py_eq (_get_field_value fields "deleteFromCloud")
                   (JBool (seedr_delete_from_cloud desired)))
    then changes ++ ["deleteFromCloud"] else changes in
  join ", " changes +:+ " changed".

(** [{x["name"]: x for x in l}]: a later entry replaces an earlier one of
    the same name. *)
Definition index_by_name {A} (name : A → string) (l : list A) : gmap string A :=
  foldl (fun m x => <[name x := x]> m) ∅ l.

(** [for yaml_key, api_key in field_map.items(): if yaml_key in yaml: ...] *)
Definition apply_overrides (field_map : list (string * string))
    (yaml : gmap string JValue) (desired : gmap string JValue)
  : gmap string JValue :=
  foldl (fun d '(yaml_key, api_key) =>
           match yaml !! yaml_key with
           | Some v => <[api_key := v]> d
           | None => d
           end) desired field_map.

(** [any(desired.get(k) != target.get(k) for k in keys if k in desired)] *)
Definition config_changed (keys : list string)
    (desired target : gmap string JValue) : bool :=
  existsb (fun k => negb (py_eq (dict_get desired k) (dict_get target k)))
          (List.filter (fun k => bool_decide (is_Some (desired !! k))) keys).

Definition naming_field_map : list (string * string) :=
  [("rename_movies", "renameMovies");
   ("standard_movie_format", "standardMovieFormat");
   ("movie_folder_format", "movieFolderFormat")].

Definition naming_keys : list string :=
  ["renameMovies"; "standardMovieFormat"; "movieFolderFormat";
   "renameEpisodes"; "standardEpisodeFormat"; "seasonFolderFormat";
   "seriesFolderFormat"; "dailyEpisodeFormat"; "animeEpisodeFormat"].

Definition mm_field_map : list (string * string) :=
  [("recycle_bin", "recycleBin");
   ("delete_empty_folders", "deleteEmptyFolders")].

Definition mm_keys : list string :=
  ["recycleBin"; "recycleBinCleanupDays"; "deleteEmptyFolders";
   "autoUnmonitorPreviouslyDownloadedMovies"].

Definition family_label (f : Family) : string :=
  match f with
  | Radarr => "Radarr"
  | Sonarr => "Sonarr"
  end.

(** [svc is None or not svc.url or not svc.api_key], negated. *)
Definition service_usable (svc : option ServiceConfig) : bool :=
  match svc with
  | Some s => str_truthy (svc_url s) && str_truthy (svc_api_key s)
  | None => false
  end.

Section planning.
(** The live state the GET endpoints answer with while the plan is
    computed. *)
Variable fetch : ArrClient → ArrLive.
Variable fetch_applications : ProwlarrClient → list ProwlarrApp.

(** The order in which Python iterates the [set] built from a list of
    strings; it follows the strings' hashes, not the list. *)
Variable set_order : list string → list string.

Definition plan_download_client (client : ArrClient) (seedr : SeedrConfig)
  : Action :=
  let existing_clients := live_download_clients (fetch client) in
  let existing_seedr :=
    List.find (fun c => py_eq (dc_implementation c) (JStr "Seedr"))
              existing_clients in
  let payload := _build_seedr_payload seedr in
  match existing_seedr with
  | None =>
      mkAction CREATE "Download client" "Seedr" "will be created"
               (Some (Op_create_download_client client payload)) []
  | Some existing_seedr =>
      if _seedr_fields_match existing_seedr seedr then
        mkAction NOOP "Download client" "Seedr" "up to date" None []
      else
        let detail := _seedr_diff_detail existing_seedr seedr in
        let existing_id := dc_id existing_seedr in
        mkAction UPDATE "Download client" "Seedr" detail
                 (Some (Op_update_download_client client existing_id payload))
                 []
  end.

Definition plan_root_folders (client : ArrClient)
    (desired_paths : list string) : list Action :=
  let existing := live_root_folders (fetch client) in
  let existing_paths := set_order (map rf_path existing) in
  let actions :=
    foldl (fun actions path =>
             if bool_decide (path ∈ existing_paths) then
               actions ++
               [mkAction NOOP "Root folder" (quoted path) "exists" None []]
             else
               actions ++
               [mkAction CREATE "Root folder" (quoted path) "will be created"
                         (Some (Op_create_root_folder client path)) []])
          [] desired_paths in
  foldl (fun actions path =>
           if bool_decide (path ∉ desired_paths) then
             actions ++
             [mkAction WARNING "Root folder" (quoted path)
                       "exists in API but not in YAML (not removing)" None []]
           else actions)
        actions existing_paths.

(** The first loop of the custom-format block. *)
Definition cf_scan (target_cf_names : gmap string CustomFormat)
    (acc : nat * nat * gmap Z Z) (ref_cf : CustomFormat)
  : nat * nat * gmap Z Z :=
  let '(cf_creates, cf_existing, cf_id_map) := acc in
  match target_cf_names !! cf_name ref_cf with
  | Some t => (cf_creates, S cf_existing, <[cf_id ref_cf := cf_id t]> cf_id_map)
  | None => (S cf_creates, cf_existing, cf_id_map)
  end.

(** "-- Custom Formats --": the action and the [cf_id_map] left in scope
    for the quality-profile closure. *)
Definition plan_custom_formats (target_client ref_client : ArrClient)
    (ref_username : string) : Action * gmap Z Z :=
  let ref_cfs := live_custom_formats (fetch ref_client) in
  let target_cfs := live_custom_formats (fetch target_client) in
  let target_cf_names := index_by_name cf_name target_cfs in
  let '(cf_creates, cf_existing, cf_id_map) :=
    foldl (cf_scan target_cf_names) (0, 0, ∅)%nat ref_cfs in
  if (0 <? cf_creates)%nat then
    (mkAction CREATE "Custom formats"
       (pretty cf_creates +:+ " from " +:+ ref_username)
       (pretty cf_creates +:+ " to create, " +:+ pretty cf_existing +:+
        " existing")
       (Some (Op_sync_custom_formats target_client ref_cfs)) [],
     cf_id_map)
  else
    let cf_id_map :=
      foldl (fun m ref_cf =>
               match target_cf_names !! cf_name ref_cf with
               | Some t => <[cf_id ref_cf := cf_id t]> m
               | None => m
               end) cf_id_map ref_cfs in
    (mkAction NOOP "Custom formats" (pretty cf_existing +:+ " synced")
       ("from " +:+ ref_username) None [],
     cf_id_map).

Definition profile_scan (target_profile_names : gmap string QualityProfile)
    (acc : nat * nat * nat) (ref_profile : QualityProfile) : nat * nat * nat :=
  let '(profile_creates, profile_updates, profile_noops) := acc in
  match target_profile_names !! qp_name ref_profile with
  | None => (S profile_creates, profile_updates, profile_noops)
  | Some _ => (profile_creates, profile_updates, S profile_noops)
  end.

(** "-- Quality Profiles --" *)
Definition plan_quality_profiles (target_client ref_client : ArrClient)
    (ref_username : string) (cf_id_map : gmap Z Z) : Action :=
  let ref_profiles := live_quality_profiles (fetch ref_client) in
  let target_profiles := live_quality_profiles (fetch target_client) in
  let target_profile_names := index_by_name qp_name target_profiles in
  let '(profile_creates, profile_updates, profile_noops) :=
    foldl (profile_scan target_profile_names) (0, 0, 0)%nat ref_profiles in
  let total_profiles := length ref_profiles in
  if (0 <? profile_creates)%nat then
    mkAction CREATE "Quality profiles"
      (pretty profile_creates +:+ " from " +:+ ref_username)
      (pretty profile_creates +:+ " to create, " +:+ pretty profile_noops +:+
       " existing")
      (Some (Op_sync_quality_profiles target_client ref_profiles cf_id_map)) []
  else
    mkAction NOOP "Quality profiles" (pretty total_profiles +:+ " synced")
      ("from " +:+ ref_username) None [].

(** "-- Quality Definitions --" *)
Definition plan_quality_definitions (target_client ref_client : ArrClient)
    (ref_username : string) : Action :=
  let ref_defs := live_quality_definitions (fetch ref_client) in
  let target_defs := live_quality_definitions (fetch target_client) in
  let defs_differ :=
    if (length ref_defs =? length target_defs)%nat then
      existsb (fun '(rd, td) =>
                 negb (py_eq (dict_get rd "minSize") (dict_get td "minSize"))
                 || negb (py_eq (dict_get rd "maxSize")
                                (dict_get td "maxSize"))
                 || negb (py_eq (dict_get rd "preferredSize")
                                (dict_get td "preferredSize")))
              (zip ref_defs target_defs)
    else true in
  if defs_differ then
    mkAction UPDATE "Quality definitions" "bulk update"
      ("from " +:+ ref_username)
      (Some (Op_update_quality_definitions target_client ref_defs)) []
  else
    mkAction NOOP "Quality definitions" "up to date"
      ("from " +:+ ref_username) None [].

(** "-- Naming Config --" *)
Definition plan_naming_config (target_client ref_client : ArrClient)
    (ref_username : string) (target_svc : ServiceConfig) : Action :=
  let ref_naming := live_naming_config (fetch ref_client) in
  let target_naming := live_naming_config (fetch target_client) in
  let yaml_naming := svc_naming target_svc in
  let desired_naming :=
    if dict_truthy yaml_naming
    then apply_overrides naming_field_map yaml_naming ref_naming
    else ref_naming in
  if config_changed naming_keys desired_naming target_naming then
    let desired_naming :=
      <["id" := default (JNum 1) (target_naming !! "id")]> desired_naming in
    mkAction UPDATE "Naming config" "will be updated"
      ("from " +:+ ref_username)
      (Some (Op_update_naming_config target_client desired_naming)) []
  else
    mkAction NOOP "Naming config" "up to date" ("from " +:+ ref_username)
      None [].

(** "-- Media Management --" *)
Definition plan_media_management (target_client ref_client : ArrClient)
    (ref_username : string) (target_svc : ServiceConfig) : Action :=
  let ref_mm := live_media_management (fetch ref_client) in
  let target_mm := live_media_management (fetch target_client) in
  let yaml_mm := svc_media_management target_svc in
  let desired_mm :=
    if dict_truthy yaml_mm
    then apply_overrides mm_field_map yaml_mm ref_mm
    else ref_mm in
  if config_changed mm_keys desired_mm target_mm then
    let desired_mm :=
      <["id" := default (JNum 1) (target_mm !! "id")]> desired_mm in
    mkAction UPDATE "Media management" "will be updated"
      ("from " +:+ ref_username)
      (Some (Op_update_media_management target_client desired_mm)) []
  else
    mkAction NOOP "Media management" "up to date" ("from " +:+ ref_username)
      None [].

Definition plan_reference_sync (target_client ref_client : ArrClient)
    (ref_username : string) (target_svc : ServiceConfig) : list Action :=
  let '(cf_action, cf_id_map) :=
    plan_custom_formats target_client ref_client ref_username in
  [cf_action;
   plan_quality_profiles target_client ref_client ref_username cf_id_map;
   plan_quality_definitions target_client ref_client ref_username;
   plan_naming_config target_client ref_client ref_username target_svc;
   plan_media_management target_client ref_client ref_username target_svc].
End planning.

(** ** diff.py: the plan builder *)

Section plan_builder.
Variable fetch : ArrClient → ArrLive.
Variable fetch_applications : ProwlarrClient → list ProwlarrApp.
Variable set_order : list string → list string.

(** The body of the inner loop of [plan_prowlarr_apps], for one tenant
    and one service family. *)
Definition plan_prowlarr_app (prowlarr : ProwlarrClient)
    (prowlarr_url : string) (existing_by_name : gmap string ProwlarrApp)
    (username : string) (user : UserState) (impl : Family) : list Action :=
  match user_service impl user with
  | None => []
  | Some svc =>
      if negb (str_truthy (svc_url svc)) || negb (str_truthy (svc_api_key svc))
      then []
      else
        let app_name := family_label impl +:+ " (" +:+ username +:+ ")" in
        match existing_by_name !! app_name with
        | Some existing =>
            let existing_fields := app_fields existing in
            let url_match :=
              py_eq (_get_field_value existing_fields "baseUrl")
                    (JStr (svc_url svc)) in
            let key_match :=
              py_eq (_get_field_value existing_fields "apiKey")
                    (JStr (svc_api_key svc)) in
            if url_match && key_match then
              [mkAction NOOP "App" (quoted app_name) "up to date" None []]
            else
              let changes : list string := [] in
              let changes :=
                if negb url_match then changes ++ ["baseUrl"] else changes in
              let changes :=
                if negb key_match then changes ++ ["apiKey"] else changes in
              let detail := join ", " changes +:+ " changed" in
              let app_id := app_id existing in
              [mkAction UPDATE "App" (quoted app_name) detail
                 (Some (Op_update_app prowlarr prowlarr_url app_name
                          (family_label impl) (svc_url svc) (svc_api_key svc)
                          app_id)) []]
        | None =>
            [mkAction CREATE "App" (quoted app_name) "will be created"
               (Some (Op_create_app prowlarr prowlarr_url app_name
                        (family_label impl) (svc_url svc) (svc_api_key svc)))
               []]
        end
  end.

Definition plan_prowlarr_apps (prowlarr : ProwlarrClient)
    (prowlarr_url : string) (state : DesiredState) : list Action :=
  let existing_apps := fetch_applications prowlarr in
  let existing_by_name := index_by_name app_name existing_apps in
  foldl (fun actions '(username, user) =>
           foldl (fun actions impl =>
                    actions ++
                    plan_prowlarr_app prowlarr prowlarr_url existing_by_name
                                      username user impl)
                 actions families)
        [] (state_users state).

(** [state.users[key]] *)
Definition users_index (state : DesiredState) (key : string)
  : result UserState :=
  match odict_get key (state_users state) with
  | Some u => inr u
  | None => inl (KeyError key)
  end.

Definition plan_service (service_type : Family) (svc : ServiceConfig)
    (seedr : option SeedrConfig) (user : UserState) (state : DesiredState)
  : result ServicePlan :=
  let client := new_ArrClient (svc_url svc) (svc_api_key svc) in
  let actions : list Action := [] in
  let actions :=
    match seedr with
    | Some seedr => actions ++ [plan_download_client fetch client seedr]
    | None => actions
    end in
  let actions :=
    match svc_root_folders svc with
    | [] => actions
    | _ :: _ =>
        actions ++ plan_root_folders fetch set_order client
                                     (svc_root_folders svc)
    end in
  let* actions :=
    if str_truthy (user_reference user) then
      let* ref_user := users_index state (user_reference user) in
      let ref_svc := user_service service_type ref_user in
      match ref_svc with
      | Some r =>
          if str_truthy (svc_url r) && str_truthy (svc_api_key r) then
            let ref_client := new_ArrClient (svc_url r) (svc_api_key r) in
            inr (actions ++
                 plan_reference_sync fetch client ref_client
                                     (user_reference user) svc)
          else inr actions
      | None => inr actions
      end
    else inr actions in
  inr (mkServicePlan (family_label service_type) (svc_url svc) actions).

(** Truthiness of the [--user] option. *)
Definition target_given (target_user : option string) : option string :=
  match target_user with
  | Some u => if str_truthy u then Some u else None
  | None => None
  end.

(** The services loop of [compute_plan] for one tenant. *)
Fixpoint plan_user_services (fams : list Family) (user : UserState)
    (state : DesiredState) : result (list ServicePlan) :=
  match fams with
  | [] => inr []
  | f :: fams' =>
      match user_service f user with
      | Some svc =>
          if str_truthy (svc_url svc) && str_truthy (svc_api_key svc) then
            let* service_plan :=
              plan_service f svc (user_seedr user) user state in
            let* rest := plan_user_services fams' user state in
            inr (service_plan :: rest)
          else plan_user_services fams' user state
      | None => plan_user_services fams' user state
      end
  end.

Fixpoint plan_users (users_to_process : list (string * UserState))
    (state : DesiredState) : result (list UserPlan) :=
  match users_to_process with
  | [] => inr []
  | (username, user) :: rest =>
      let* services := plan_user_services families user state in
      let* plans := plan_users rest state in
      match services with
      | [] => inr plans
      | _ :: _ => inr (mkUserPlan username services :: plans)
      end
  end.

Definition compute_plan (state : DesiredState) (target_user : option string)
  : result ChangePlan :=
  let* prowlarr_plan :=
    match state_prowlarr state with
    | Some p =>
        if str_truthy (prowlarr_url p) && str_truthy (prowlarr_api_key p) then
          let prowlarr :=
            new_ProwlarrClient (prowlarr_url p) (prowlarr_api_key p) in
          let* filtered_state :=
            match target_given target_user with
            | Some t =>
                let* u := users_index state t in
                inr (mkDesiredState (state_prowlarr state) None None [(t, u)])
            | None => inr state
            end in
          let prowlarr_actions :=
            plan_prowlarr_apps prowlarr (prowlarr_url p) filtered_state in
          match prowlarr_actions with
          | [] => inr None
          | _ :: _ => inr (Some (mkProwlarrPlan (prowlarr_url p)
                                                prowlarr_actions))
          end
        else inr None
    | None => inr None
    end in
  let* users_to_process :=
    match target_given target_user with
    | Some t =>
        let* u := users_index state t in
        inr [(t, u)]
    | None => inr (state_users state)
    end in
  let* users := plan_users users_to_process state in
  inr (mkChangePlan prowlarr_plan users None).
End plan_builder.

(** ** recyclarr_config.py *)

(** The decoded [recyclarr.yml]: per section, entry name to entry. *)
Record RecyclarrFile := mkRecyclarrFile {
  rc_radarr : gmap string (gmap string JValue);
  rc_sonarr : gmap string (gmap string JValue)
}.

Record Change := mkChange {
  change_type : string;
  change_name : string
}.

(** One section of [generate_recyclarr_config]: entry name, [base_url],
    [api_key], in tenant order. *)
Definition recyclarr_entries (f : Family) (prefix : string)
    (state : DesiredState) : list (string * (string * string)) :=
  foldl (fun entries '(username, user) =>
           match user_service f user with
           | Some svc =>
               if str_truthy (svc_url svc) && str_truthy (svc_api_key svc) then
                 odict_set (prefix +:+ username) (svc_url svc, svc_api_key svc)
                           entries
               else entries
           | None => entries
           end)
        [] (state_users state).

(** One of the two "Check for new/changed entries" loops. *)
Definition recyclarr_section_changes
    (desired : list (string * (string * string)))
    (existing : gmap string (gmap string JValue)) : list Change :=
  foldl (fun changes '(name, (base_url, api_key)) =>
           match existing !! name with
           | None => changes ++ [mkChange "create" name]
           | Some e =>
               if negb (py_eq (JStr base_url) (dict_get e "base_url"))
                  || negb (py_eq (JStr api_key) (dict_get e "api_key"))
               then changes ++ [mkChange "update" name]
               else changes
           end)
        [] desired.

Section recyclarr.
(** The decoded content of [recyclarr.yml] under a configuration
    directory; both sections empty when the file does not exist. *)
Variable recyclarr_file : string → RecyclarrFile.

Definition plan_recyclarr (state : DesiredState) : list Change :=
  match state_recyclarr state with
  | None => []
  | Some r =>
      if negb (str_truthy (recyclarr_config_path r)) then []
      else
        let existing := recyclarr_file (recyclarr_config_path r) in
        recyclarr_section_changes (recyclarr_entries Radarr "radarr-" state)
                                  (rc_radarr existing) ++
        recyclarr_section_changes (recyclarr_entries Sonarr "sonarr-" state)
                                  (rc_sonarr existing)
  end.

(** arr_sync.py *)
Definition _add_recyclarr_to_plan (plan : ChangePlan) (state : DesiredState)
  : ChangePlan :=
  match state_recyclarr state with
  | None => plan
  | Some r =>
      if negb (str_truthy (recyclarr_config_path r)) then plan
      else
        match plan_recyclarr state with
        | [] => plan
        | changes =>
            let actions :=
              foldl (fun actions change =>
                       actions ++
                       [mkAction
                          (if String.eqb (change_type change) "create"
                           then CREATE else UPDATE)
                          (change_name change) EmptyString
                          (if String.eqb (change_type change) "create"
                           then "will be added" else "will be updated")
                          (Some (Op_apply_recyclarr state)) []])
                    [] changes in
            mkChangePlan (cp_prowlarr plan) (cp_users plan)
              (Some (mkRecyclarrPlan (recyclarr_config_path r) actions))
        end
  end.
End recyclarr.

(** ** diff.py: display and execution *)

Definition newline : string := String (Ascii.ascii_of_nat 10) EmptyString.

Definition action_line (indent : string) (action : Action) : string :=
  indent +:+ action_symbol (action_type action) +:+ " " +:+
  action_category action +:+ " " +:+ action_name action +:+ ": " +:+
  action_detail action.

(** The lines [display_plan] prints. *)
Definition display_plan (plan : ChangePlan) : list string :=
  [EmptyString] ++
  match cp_prowlarr plan with
  | Some p =>
      ["Prowlarr (" +:+ pp_url p +:+ "):"] ++
      map (action_line "  ") (pp_actions p) ++ [EmptyString]
  | None => []
  end ++
  concat (map (fun user_plan =>
                 ["User: " +:+ up_username user_plan] ++
                 concat (map (fun svc =>
                                ["  " +:+ sp_service_type svc +:+ " (" +:+
                                 sp_url svc +:+ "):"] ++
                                map (action_line "    ") (sp_actions svc))
                             (up_services user_plan)) ++
                 [EmptyString])
              (cp_users plan)) ++
  match cp_recyclarr plan with
  | Some r =>
      ["Recyclarr (" +:+ rp_config_path r +:+ "):"] ++
      map (action_line "  ") (rp_actions r) ++ [EmptyString]
  | None => []
  end ++
  let '(creates, updates, noops) := summary plan in
  ["Plan: " +:+ pretty creates +:+ " to create, " +:+ pretty updates +:+
   " to update, " +:+ pretty noops +:+ " unchanged"].

(** What calling a deferred operation did: it returned, or it raised an
    [Exception]. *)
Inductive Outcome :=
| Returned
| Raised (e : PyError).

Section executor.
(** The services and files the apply steps act on. *)
Variable World : Type.

(** Calling [action.execute()]. *)
Variable run_op : Op → World → World * Outcome.

Record LoopState := mkLoopState {
  loop_world : World;
  loop_applied : nat;
  loop_errors : nat;
  loop_output : list string
}.

(** The body of [for action in all_actions] in [apply_plan]. *)
Definition apply_action (st : LoopState) (action : Action) : LoopState :=
  match action_execute action with
  | None => st
  | Some execute =>
      match run_op execute (loop_world st) with
      | (w, Returned) =>
          mkLoopState w (S (loop_applied st)) (loop_errors st)
            (loop_output st ++
             ["  " +:+ action_symbol (action_type action) +:+ " " +:+
              action_category action +:+ " " +:+ action_name action +:+
              ": done"])
      | (w, Raised e) =>
          mkLoopState w (loop_applied st) (S (loop_errors st))
            (loop_output st ++
             ["  ! " +:+ action_category action +:+ " " +:+
              action_name action +:+ ": FAILED - " +:+ py_str e])
      end
  end.

Definition apply_loop (plan : ChangePlan) (w : World) : LoopState :=
  foldl apply_action (mkLoopState w 0 0 []) (all_actions plan).

(** [apply_plan]: the world afterwards, the lines printed and the value
    returned.  The block between the loop and the final [print] only
    evaluates a condition and executes [pass]. *)
Definition apply_plan (plan : ChangePlan) (w : World)
  : World * list string * bool :=
  let st := apply_loop plan w in
  (loop_world st,
   loop_output st ++
   [newline +:+ "Applied: " +:+ pretty (loop_applied st) +:+ " changes, " +:+
    pretty (loop_errors st) +:+ " errors"],
   (loop_errors st =? 0)%nat).
End executor.

Arguments mkLoopState {World} _ _ _ _.
Arguments loop_world {World} _.
Arguments loop_applied {World} _.
Arguments loop_errors {World} _.
Arguments loop_output {World} _.
Arguments apply_action {World} _ _ _.
Arguments apply_loop {World} _ _ _.
Arguments apply_plan {World} _ _ _.

(** ** arr_sync.py: the [plan] and [apply] commands *)

Inductive Event :=
| Stdout (line : string)
| Stderr (line : string)
| Confirm (prompt : string).

Inductive Exit :=
| Finished
| SysExit (code : Z)
| Uncaught (e : PyError).

(** What [click.confirm] did: it returned the answer typed, or it raised
    [Abort] (end of input, interrupt), which the command runner of click
    reports by writing "Aborted!" and exiting with status 1. *)
Inductive ConfirmAnswer :=
| Answered (yes : bool)
| ConfirmAborted.

Section commands.
Variable load_yaml : string → result RawDoc.
Variable extract_api_key : string → result string.
(** [validate_credentials(email, password)]: returns, or raises. *)
Variable validate_credentials : string → string → Outcome.
Variable fetch : ArrClient → ArrLive.
Variable fetch_applications : ProwlarrClient → list ProwlarrApp.
Variable set_order : list string → list string.
Variable recyclarr_file : string → RecyclarrFile.
Variable World : Type.
Variable run_op : Op → World → World * Outcome.
(** [prowlarr.trigger_app_indexer_sync()] *)
Variable trigger_app_indexer_sync : ProwlarrClient → World → World * Outcome.
(** What the [click.confirm] prompt does when it is reached. *)
Variable confirm_answer : ConfirmAnswer.

Record Run := mkRun {
  run_events : list Event;
  run_exit : Exit;
  run_world : World
}.

(** The "Validate Seedr credentials" loop; [strict] is the [apply]
    variant, which exits on a failed validation. *)
Fixpoint validate_users (strict : bool) (users : list (string * UserState))
  : list Event * Exit :=
  match users with
  | [] => ([], Finished)
  | (username, u) :: rest =>
      match user_seedr u with
      | None => validate_users strict rest
      | Some s =>
          match validate_credentials (seedr_email s) (seedr_password s) with
          | Returned =>
              let '(events, exit) := validate_users strict rest in
              (Stdout ("  Seedr credentials valid for " +:+ username)
               :: events, exit)
          | Raised (RuntimeError msg) =>
              let line :=
                Stderr ("  ! Seedr validation failed for " +:+ username +:+
                        ": " +:+ msg) in
              if strict then ([line], SysExit 1)
              else
                let '(events, exit) := validate_users strict rest in
                (line :: events, exit)
          | Raised e => ([], Uncaught e)
          end
      end
  end.

(** The common opening of both commands: load, check [--user], validate. *)
Definition load_and_validate (strict : bool) (config_path : string)
    (user : option string) : list Event * (Exit + DesiredState) :=
  match resolve_state load_yaml extract_api_key config_path with
  | inl e => ([Stderr ("Error loading config: " +:+ py_str e)], inl (SysExit 1))
  | inr state =>
      match target_given user with
      | Some u =>
          match odict_get u (state_users state) with
          | None =>
              ([Stderr ("User '" +:+ u +:+ "' not found in config")],
               inl (SysExit 1))
          | Some us =>
              match validate_users strict [(u, us)] with
              | (events, Finished) => (events, inr state)
              | (events, exit) => (events, inl exit)
              end
          end
      | None =>
          match validate_users strict (state_users state) with
          | (events, Finished) => (events, inr state)
          | (events, exit) => (events, inl exit)
          end
      end
  end.

Definition plan_command (config_path : string) (user : option string)
    (w : World) : Run :=
  match load_and_validate false config_path user with
  | (events, inl exit) => mkRun events exit w
  | (events, inr state) =>
      match compute_plan fetch fetch_applications set_order state user with
      | inl e =>
          mkRun (events ++ [Stderr ("Error computing plan: " +:+ py_str e)])
                (SysExit 1) w
      | inr change_plan =>
          let change_plan :=
            _add_recyclarr_to_plan recyclarr_file change_plan state in
          mkRun (events ++ map Stdout (display_plan change_plan)) Finished w
      end
  end.

(** [_trigger_prowlarr_sync] *)
Definition _trigger_prowlarr_sync (state : DesiredState) (w : World)
  : list Event * World :=
  match state_prowlarr state with
  | Some p =>
      if str_truthy (prowlarr_url p) && str_truthy (prowlarr_api_key p) then
        match trigger_app_indexer_sync
                (new_ProwlarrClient (prowlarr_url p) (prowlarr_api_key p)) w
        with
        | (w', Returned) => ([Stdout "  Triggered Prowlarr AppIndexerSync"], w')
        | (w', Raised e) =>
            ([Stderr ("  ! Failed to trigger Prowlarr sync: " +:+ py_str e)],
             w')
        end
      else ([], w)
  | None => ([], w)
  end.

(** The part of [apply] after the plan has been computed. *)
Definition apply_computed (state : DesiredState) (change_plan : ChangePlan)
    (w : World) : Run :=
  let shown := map Stdout (display_plan change_plan) in
  let '(creates, updates, noops) := summary change_plan in
  if (creates =? 0)%nat && (updates =? 0)%nat then
    mkRun (shown ++ [Stdout (newline +:+ "Nothing to do.")]) Finished w
  else
    match confirm_answer with
    | ConfirmAborted =>
        mkRun (shown ++ [Stdout EmptyString; Confirm "Apply these changes?";
                         Stderr "Aborted!"]) (SysExit 1) w
    | Answered false =>
        mkRun (shown ++ [Stdout EmptyString; Confirm "Apply these changes?";
                         Stdout "Aborted."]) Finished w
    | Answered true =>
        let '(w1, printed, success) := apply_plan run_op change_plan w in
        let '(recyclarr_events, w2) :=
          match cp_recyclarr change_plan with
          | Some r =>
              match rp_actions r with
              | [] => ([], w1)
              | _ :: _ =>
                  match run_op (Op_apply_recyclarr state) w1 with
                  | (w', Returned) =>
                      ([Stdout "  Recyclarr config updated"], w')
                  | (w', Raised e) =>
                      ([Stderr ("  ! Recyclarr config failed: " +:+
                                py_str e)],
                       w')
                  end
              end
          | None => ([], w1)
          end in
        let '(sync_events, w3) := _trigger_prowlarr_sync state w2 in
        mkRun (shown ++
               [Stdout EmptyString; Confirm "Apply these changes?";
                Stdout (newline +:+ "Applying changes...")] ++
               map Stdout printed ++ recyclarr_events ++ sync_events)
              (if success then Finished else SysExit 1) w3
    end.

Definition apply_command (config_path : string) (user : option string)
    (dry_run : bool) (w : World) : Run :=
  if dry_run then plan_command config_path user w
  else
    match load_and_validate true config_path user with
    | (events, inl exit) => mkRun events exit w
    | (events, inr state) =>
        match compute_plan fetch fetch_applications set_order state user with
        | inl e =>
            mkRun (events ++ [Stderr ("Error computing plan: " +:+ py_str e)])
                  (SysExit 1) w
        | inr change_plan =>
            let change_plan :=
              _add_recyclarr_to_plan recyclarr_file change_plan state in
            let r := apply_computed state change_plan w in
            mkRun (events ++ run_events r) (run_exit r) (run_world r)
        end
    end.
End commands.

Arguments mkRun {World} _ _ _.
Arguments run_events {World} _.
Arguments run_exit {World} _.
Arguments run_world {World} _.

(** ** Vocabulary of the stated properties *)

(** The apply steps of a plan, in plan order. *)
Definition apply_steps (plan : ChangePlan) : list Op :=
  omap action_execute (all_actions plan).

(** Running operations one after the other, whatever each one does. *)
Fixpoint run_steps {World} (run_op : Op → World → World * Outcome)
    (steps : list Op) (w : World) : World * list Outcome :=
  match steps with
  | [] => (w, [])
  | op :: steps' =>
      let '(w1, o) := run_op op w in
      let '(w2, os) := run_steps run_op steps' w1 in
      (w2, o :: os)
  end.

Definition is_raised (o : Outcome) : bool :=
  match o with
  | Raised _ => true
  | Returned => false
  end.

Definition failures (outcomes : list Outcome) : nat :=
  length (List.filter is_raised outcomes).

Definition has_execute (a : Action) : bool :=
  match action_execute a with
  | Some _ => true
  | None => false
  end.

(** The line reporting what became of one action's apply step. *)
Definition report_line (a : Action) (o : Outcome) : string :=
  match o with
  | Returned =>
      "  " +:+ action_symbol (action_type a) +:+ " " +:+ action_category a +:+
      " " +:+ action_name a +:+ ": done"
  | Raised e =>
      "  ! " +:+ action_category a +:+ " " +:+ action_name a +:+
      ": FAILED - " +:+ py_str e
  end.

Definition count_type (t : ActionType) (actions : list Action) : nat :=
  length (List.filter (fun a => ActionType_eqb (action_type a) t) actions).

Definition is_confirm (e : Event) : bool :=
  match e with
  | Confirm _ => true
  | _ => false
  end.

(** The shape every planned action has: nothing to run behind [=] and [!],
    one operation behind [+] and [~], and no children. *)
Definition well_formed (a : Action) : Prop :=
  match action_type a with
  | NOOP | WARNING => action_execute a = None
  | CREATE | UPDATE => is_Some (action_execute a)
  end ∧ action_children a = [].

Definition reference_categories : list string :=
  ["Custom formats"; "Quality profiles"; "Quality definitions";
   "Naming config"; "Media management"].

(** What [plan_service] plans before it looks at the reference. *)
Definition own_actions (fetch : ArrClient → ArrLive)
    (set_order : list string → list string) (svc : ServiceConfig)
    (seedr : option SeedrConfig) : list Action :=
  let client := new_ArrClient (svc_url svc) (svc_api_key svc) in
  match seedr with
  | Some s => [plan_download_client fetch client s]
  | None => []
  end ++
  match svc_root_folders svc with
  | [] => []
  | _ :: _ => plan_root_folders fetch set_order client (svc_root_folders svc)
  end.

(** The four compared download-client fields, in reporting order. *)
Definition seedr_field_names : list string :=
  ["email"; "password"; "downloadDirectory"; "deleteFromCloud"].

Definition seedr_desired_value (desired : SeedrConfig) (name : string)
  : JValue :=
  if String.eqb name "email" then JStr (seedr_email desired)
  else if String.eqb name "password" then JStr (seedr_password desired)
  else if String.eqb name "downloadDirectory"
       then JStr (seedr_download_directory desired)
  else if String.eqb name "deleteFromCloud"
       then JBool (seedr_delete_from_cloud desired)
  else JNull.

Definition seedr_differing (existing : DownloadClient) (desired : SeedrConfig)
  : list string :=
  List.filter
    (fun name => negb (py_eq (_get_field_value (dc_fields existing) name)
                             (seedr_desired_value desired name)))
    seedr_field_names.

(** The action planned for one declared root folder. *)
Definition declared_folder_action (client : ArrClient) (live : list string)
    (path : string) : Action :=
  if bool_decide (path ∈ live)
  then mkAction NOOP "Root folder" (quoted path) "exists" None []
  else mkAction CREATE "Root folder" (quoted path) "will be created"
                (Some (Op_create_root_folder client path)) [].

Definition undeclared_folder_warning (path : string) : Action :=
  mkAction WARNING "Root folder" (quoted path)
           "exists in API but not in YAML (not removing)" None [].

(** [R] is met strictly before [T] when walking [keys]. *)
Fixpoint precedes (R T : string) (keys : list string) : bool :=
  match keys with
  | [] => false
  | k :: keys' =>
      if String.eqb k T then false
      else if String.eqb k R then true
      else precedes R T keys'
  end.

(** The naming (or media-management) overrides of one family of one tenant
    in a user dictionary. *)
Definition overrides_of (proj : ServiceConfig → gmap string JValue)
    (f : Family) (users : list (string * UserState)) (name : string)
  : option (gmap string JValue) :=
  match odict_get name users with
  | Some u => proj <$> user_service f u
  | None => None
  end.

(** A reference profile with no same-named profile in the target. *)
Definition profile_missing (names : gmap string QualityProfile)
    (p : QualityProfile) : bool :=
  bool_decide (names !! qp_name p = None).

(** Recording one reference custom format in the id-remap table. *)
Definition cf_record (names : gmap string CustomFormat) (m : gmap Z Z)
    (ref_cf : CustomFormat) : gmap Z Z :=
  match names !! cf_name ref_cf with
  | Some t => <[cf_id ref_cf := cf_id t]> m
  | None => m
  end.

Definition cf_matched (names : gmap string CustomFormat)
    (ref_cf : CustomFormat) : bool :=
  bool_decide (is_Some (names !! cf_name ref_cf)).

(** Two user dictionaries with the same keys and the same [reference]
    under each key. *)
Definition refs_agree (users users' : list (string * UserState)) : Prop :=
  ∀ k, user_reference <$> odict_get k users =
       user_reference <$> odict_get k users'.

(** Tenant [T] names a tenant the dictionary does not define. *)
Definition dangling (users : list (string * UserState)) (T R : string) : Prop :=
  ∃ u, odict_get T users = Some u ∧ user_reference u = R ∧
       str_truthy R = true ∧ odict_get R users = None.

(** ** Concrete configurations used in the examples *)

Definition example_target : ArrClient := new_ArrClient "http://radarr:7878/" "k1".
Definition example_reference : ArrClient := new_ArrClient "http://ref:7878" "k2".

Definition example_seedr_client : DownloadClient :=
  mkDownloadClient 7 (JStr "Seedr")
    [mkField (JStr "email") (JStr "a@x.com");
     mkField (JStr "password") (JStr "p1");
     mkField (JStr "downloadDirectory") (JStr "/dl");
     mkField (JStr "deleteFromCloud") (JBool true)].

Definition example_target_live : ArrLive :=
  mkArrLive [example_seedr_client]
    [mkRootFolder 1 "/movies"; mkRootFolder 2 "/old"]
    [mkCustomFormat 11 "x265" ∅]
    [mkQualityProfile 21 "HD-1080p" ∅]
    [] ∅ ∅.

Definition example_reference_live : ArrLive :=
  mkArrLive [] []
    [mkCustomFormat 1 "x265" ∅]
    [mkQualityProfile 3 "HD-1080p" ∅; mkQualityProfile 4 "Ultra-HD" ∅]
    [] ∅ ∅.

Definition example_fetch (client : ArrClient) : ArrLive :=
  if String.eqb (arr_base_url client) "http://ref:7878"
  then example_reference_live else example_target_live.

Definition example_service (naming : gmap string JValue) : ServiceConfig :=
  mkServiceConfig "http://radarr:7878/" "k1" EmptyString [] naming ∅.

Definition example_user (name reference : string)
    (naming : gmap string JValue) : UserState :=
  mkUserState name None (Some (example_service naming)) None EmptyString false
    reference.

Definition example_naming : gmap string JValue :=
  {[ "rename_movies" := JBool true ]}.

(** A chain A -> B -> C, declared in the order A, B, C. *)
Definition chain_forward : list (string * UserState) :=
  [("A", example_user "A" "B" ∅);
   ("B", example_user "B" "C" ∅);
   ("C", example_user "C" EmptyString example_naming)].

Definition chain_forward_resolved : list (string * UserState) :=
  [("A", example_user "A" "B" ∅);
   ("B", example_user "B" "C" example_naming);
   ("C", example_user "C" EmptyString example_naming)].

(** The same chain declared in the order B, A, C. *)
Definition chain_backward : list (string * UserState) :=
  [("B", example_user "B" "C" ∅);
   ("A", example_user "A" "B" ∅);
   ("C", example_user "C" EmptyString example_naming)].

Definition chain_backward_resolved : list (string * UserState) :=
  [("B", example_user "B" "C" example_naming);
   ("A", example_user "A" "B" example_naming);
   ("C", example_user "C" EmptyString example_naming)].

Definition example_state : DesiredState :=
  mkDesiredState None None None
    [("alice", mkUserState "alice" None (Some (example_service ∅)) None
                 EmptyString false "bob");
     ("bob", mkUserState "bob" None None None EmptyString true EmptyString)].

Definition example_raw_user (reference : option string) : RawUser :=
  mkRawUser None None None None None reference.

Definition example_doc : RawDoc :=
  mkRawDoc None None None (Some [("alice", example_raw_user (Some "bob"))]).

Definition example_load_yaml (config_path : string) : result RawDoc :=
  inr example_doc.

Definition example_extract (container : string) : result string :=
  inl (RuntimeError "Docker CLI not found. Is Docker installed?").

(** A world that only logs the calls made on it; creating a root folder
    fails. *)
Definition logging_op (op : Op) (w : list string) : list string * Outcome :=
  match op with
  | Op_create_download_client _ _ => (w ++ ["POST downloadclient"], Returned)
  | Op_create_root_folder _ p =>
      (w ++ ["POST rootfolder " +:+ p], Raised (OtherError "500 Server Error"))
  | _ => (w ++ ["other"], Returned)
  end.

Definition example_plan : ChangePlan :=
  mkChangePlan None
    [mkUserPlan "alice"
       [mkServicePlan "Radarr" "http://radarr:7878/"
          (plan_download_client example_fetch example_reference
             (mkSeedrConfig "a@x.com" "p2" "/dl" true) ::
           plan_root_folders example_fetch remove_dups example_target
             ["/movies"; "/movies-4k"])]]
    None.

Definition warning_only_plan : ChangePlan :=
  mkChangePlan None
    [mkUserPlan "alice"
       [mkServicePlan "Radarr" "http://radarr:7878/"
          [undeclared_folder_warning "/old"]]]
    None.

Ltac decide_by_computing := apply (bool_decide_unpack _); vm_compute; exact I.

Ltac member_by_computing :=
  apply list_elem_of_In; vm_compute; tauto.

Ltac solve_well_formed :=
  unfold well_formed; cbn; split;
  [first [reflexivity | eexists; reflexivity] | reflexivity].

(** ** api_key.py: keys scraped from containers, with a side-file cache *)

(** [s] without the prefix [p], when it starts with it. *)
Fixpoint strip_prefix (p s : string) : option string :=
  match p, s with
  | EmptyString, _ => Some s
  | String a p', String b s' =>
      if Ascii.eqb a b then strip_prefix p' s' else None
  | String _ _, EmptyString => None
  end.

Definition lt_char : Ascii.ascii := Ascii.ascii_of_nat 60.

(** The longest prefix free of the character [<], and what follows it:
    what the greedy [[^<]+] consumes. *)
Fixpoint span_not_lt (s : string) : string * string :=
  match s with
  | EmptyString => (EmptyString, EmptyString)
  | String c s' =>
      if Ascii.eqb c lt_char then (EmptyString, s)
      else let '(run, rest) := span_not_lt s' in (String c run, rest)
  end.

(** An attempt to match [<ApiKey>([^<]+)</ApiKey>] at the start of [s]. *)
Definition match_api_key_here (s : string) : option string :=
  match strip_prefix "<ApiKey>" s with
  | Some after_open =>
      let '(key, rest) := span_not_lt after_open in
      if str_truthy key then
        match strip_prefix "</ApiKey>" rest with
        | Some _ => Some key
        | None => None
        end
      else None
  | None => None
  end.

(** [re.search(r"<ApiKey>([^<]+)</ApiKey>", s)] followed by [.group(1)]:
    the leftmost position at which the pattern matches. *)
Fixpoint search_api_key (s : string) : option string :=
  match match_api_key_here s with
  | Some key => Some key
  | None =>
      match s with
      | EmptyString => None
      | String _ s' => search_api_key s'
      end
  end.

(** [str.isspace] on one character, the white space [str.strip()]
    removes: tab to carriage return, the four separators, the space,
    U+0085 and the no-break space. *)
Definition is_space (c : Ascii.ascii) : bool :=
  let n := Ascii.nat_of_ascii c in
  ((9 <=? n) && (n <=? 13) || (28 <=? n) && (n <=? 32)
   || (n =? 133) || (n =? 160))%nat.

Fixpoint lstrip (s : string) : string :=
  match s with
  | EmptyString => EmptyString
  | String c s' => if is_space c then lstrip s' else s
  end.

Fixpoint rstrip (s : string) : string :=
  match s with
  | EmptyString => EmptyString
  | String c s' =>
      match rstrip s' with
      | EmptyString => if is_space c then EmptyString else String c EmptyString
      | r => String c r
      end
  end.

Definition strip (s : string) : string := rstrip (lstrip s).

(** What [subprocess.run(["docker", "exec", container, "cat",
    "/config/config.xml"], ...)] did. *)
Inductive DockerRun :=
| DockerTimedOut
| DockerNotInstalled
| DockerExited (returncode : Z) (stdout stderr : string).

Definition _docker_extract (docker_exec : string → DockerRun)
    (container : string) : result string :=
  match docker_exec container with
  | DockerExited returncode stdout stderr =>
      if negb (returncode =? 0)%Z then
        inl (RuntimeError
               ("Failed to read config.xml from container '" +:+ container +:+
                "': " +:+ strip stderr))
      else
        match search_api_key stdout with
        | None =>
            inl (RuntimeError
                   ("No <ApiKey> element found in config.xml from container '"
                    +:+ container +:+ "'"))
        | Some key => inr key
        end
  | DockerTimedOut =>
      inl (RuntimeError
             ("Timed out reading config.xml from container '" +:+ container +:+
              "'"))
  | DockerNotInstalled =>
      inl (RuntimeError "Docker CLI not found. Is Docker installed?")
  end.

(** [os.path.join(a, b)] *)
Fixpoint ends_with_slash (s : string) : bool :=
  match s with
  | EmptyString => false
  | String c EmptyString => Ascii.eqb c (Ascii.ascii_of_nat 47)
  | String _ s' => ends_with_slash s'
  end.

Definition os_path_join (a b : string) : string :=
  match b with
  | String c _ =>
      if Ascii.eqb c (Ascii.ascii_of_nat 47) then b
      else if negb (str_truthy a) || ends_with_slash a then a +:+ b
      else a +:+ "/" +:+ b
  | EmptyString =>
      if negb (str_truthy a) || ends_with_slash a then a else a +:+ "/"
  end.

Definition CACHE_FILE : string := ".arr-sync-cache.yml".

Section key_cache.
(** The file a path names: two paths have the same image exactly when
    they lead to the same file (another spelling of the directory, a
    relative and an absolute path, a link). *)
Variable file_of : string → string.

(** The file [os.path.join(config_dir, CACHE_FILE)]. *)
Definition cache_file (config_dir : string) : string :=
  file_of (os_path_join config_dir CACHE_FILE).

(** [_load_cache(config_dir)]; [files] holds the decoded content of each
    cache file that exists, a mapping from top-level key to mapping. *)
Definition _load_cache (files : gmap string (gmap string (gmap string string)))
    (config_dir : string) : gmap string (gmap string string) :=
  default ∅ (files !! cache_file config_dir).

Definition _save_cache (files : gmap string (gmap string (gmap string string)))
    (config_dir : string) (cache : gmap string (gmap string string))
  : gmap string (gmap string (gmap string string)) :=
  <[cache_file config_dir := cache]> files.

(** [extract_api_key(container, config_dir)]: the files afterwards and the
    key returned or the error raised. *)
Definition extract_api_key_cached (docker_exec : string → DockerRun)
    (files : gmap string (gmap string (gmap string string)))
    (container config_dir : string)
  : gmap string (gmap string (gmap string string)) * result string :=
  let cache := _load_cache files config_dir in
  let cached := default ∅ (cache !! "api_keys") !! container in
  match cached with
  | Some key0 =>
      if str_truthy key0 then (files, inr key0)
      else
        match _docker_extract docker_exec container with
        | inl e => (files, inl e)
        | inr key =>
            if str_truthy key then
              (_save_cache files config_dir
                 (<["api_keys" :=
                      <[container := key]> (default ∅ (cache !! "api_keys"))]>
                    cache),
               inr key)
            else (files, inr key)
        end
  | None =>
      match _docker_extract docker_exec container with
      | inl e => (files, inl e)
      | inr key =>
          if str_truthy key then
            (_save_cache files config_dir
               (<["api_keys" :=
                    <[container := key]> (default ∅ (cache !! "api_keys"))]>
                  cache),
             inr key)
          else (files, inr key)
      end
  end.

Definition invalidate_cache
    (files : gmap string (gmap string (gmap string string)))
    (container config_dir : string)
  : gmap string (gmap string (gmap string string)) :=
  let cache := _load_cache files config_dir in
  let cache :=
    match cache !! "api_keys" with
    | Some keys => <["api_keys" := delete container keys]> cache
    | None => cache
    end in
  _save_cache files config_dir cache.

(** The key cached for a container of a configuration directory. *)
Definition cached_key (files : gmap string (gmap string (gmap string string)))
    (config_dir container : string) : option string :=
  default ∅ (_load_cache files config_dir !! "api_keys") !! container.
End key_cache.

(** No character [<] occurs in the string. *)
Fixpoint lt_free (s : string) : bool :=
  match s with
  | EmptyString => true
  | String c s' => negb (Ascii.eqb c lt_char) && lt_free s'
  end.

(** ** recyclarr_config.py: writing the file *)

(** The entry [generate_recyclarr_config] builds for one instance. *)
Definition recyclarr_entry (base_url api_key : string) : gmap string JValue :=
  <["base_url" := JStr base_url]> {["api_key" := JStr api_key]}.

(** [existing[section].update(config[section])] *)
Definition recyclarr_update (entries : list (string * (string * string)))
    (section : gmap string (gmap string JValue))
  : gmap string (gmap string JValue) :=
  foldl (fun m '(name, (base_url, api_key)) =>
           <[name := recyclarr_entry base_url api_key]> m)
        section entries.

(** The file [os.path.join(config_dir, "recyclarr.yml")]; [file_of] gives
    the file a path names, so that two spellings of one directory have one
    file. *)
Definition recyclarr_path (file_of : string → string) (config_dir : string)
  : string :=
  file_of (os_path_join config_dir "recyclarr.yml").

(** [apply_recyclarr(state)] on files whose sections are mappings, where
    it always writes: the decoded [recyclarr.yml] found under every
    configuration directory, before and after.  [RecyclarrFile] holds each
    section as a mapping, empty when the key is absent;
    [apply_recyclarr_yaml] below is the function on any decoded file. *)
Definition apply_recyclarr (file_of : string → string) (state : DesiredState)
    (recyclarr_file : string → RecyclarrFile) : string → RecyclarrFile :=
  match state_recyclarr state with
  | None => recyclarr_file
  | Some r =>
      if negb (str_truthy (recyclarr_config_path r)) then recyclarr_file
      else
        let config_dir := recyclarr_config_path r in
        let existing := recyclarr_file config_dir in
        let merged :=
          mkRecyclarrFile
            (recyclarr_update (recyclarr_entries Radarr "radarr-" state)
                              (rc_radarr existing))
            (recyclarr_update (recyclarr_entries Sonarr "sonarr-" state)
                              (rc_sonarr existing)) in
        fun dir =>
          if String.eqb (recyclarr_path file_of dir)
                        (recyclarr_path file_of config_dir)
          then merged else recyclarr_file dir
  end.

(** The section of [recyclarr.yml] and the entry-name prefix of a family. *)
Definition rc_section (f : Family) (file : RecyclarrFile)
  : gmap string (gmap string JValue) :=
  match f with
  | Radarr => rc_radarr file
  | Sonarr => rc_sonarr file
  end.

Definition recyclarr_prefix (f : Family) : string :=
  match f with
  | Radarr => "radarr-"
  | Sonarr => "sonarr-"
  end.











(** Everything of a service block but its two override maps. *)
Definition service_connection (s : ServiceConfig)
  : string * string * string * list string :=
  (svc_url s, svc_api_key s, svc_container s, svc_root_folders s).

(** Everything of a tenant that is not an override map of a service. *)
Definition user_identity (u : UserState) :=
  (user_name u, user_seedr u, user_overseerr_url u, user_is_reference u,
   user_reference u,
   service_connection <$> user_radarr u,
   service_connection <$> user_sonarr u).

(** The tenants [compute_plan] walks. *)
Definition processed_names (state : DesiredState) (target_user : option string)
  : list string :=
  match target_given target_user with
  | Some t => [t]
  | None => odict_keys (state_users state)
  end.

(** ** prowlarr_client.py: building an application payload *)

Definition RADARR_SYNC_CATEGORIES : list Z :=
  [2000; 2010; 2020; 2030; 2040; 2045; 2050; 2060; 2070; 2080]%Z.

Definition SONARR_SYNC_CATEGORIES : list Z :=
  [5000; 5010; 5020; 5030; 5040; 5045; 5050; 5060; 5070; 5080]%Z.

(** One entry of [GET applications/schema]; [implementation] is indexed,
    the other two keys are read with [.get]. *)
Record AppSchema := mkAppSchema {
  schema_implementation : JValue;
  schema_configContract : option JValue;
  schema_fields : list (gmap string JValue)
}.

Record AppPayload := mkAppPayload {
  payload_name : string;
  payload_implementation : string;
  payload_configContract : JValue;
  payload_syncLevel : string;
  payload_fields : list (gmap string JValue);
  payload_tags : list JValue
}.

(** [field_map.get(name)] for the four names the helper fills in. *)
Definition app_field_map (prowlarr_url base_url api_key : string)
    (sync_categories : list Z) (name : string) : option JValue :=
  if String.eqb name "prowlarrUrl" then Some (JStr prowlarr_url)
  else if String.eqb name "baseUrl" then Some (JStr base_url)
  else if String.eqb name "apiKey" then Some (JStr api_key)
  else if String.eqb name "syncCategories"
       then Some (JArr (map (fun c => JNum (inject_Z c)) sync_categories))
  else None.

(** The body of [for field in schema.get("fields", [])]. *)
Definition fill_field (field_map : string → option JValue)
    (field : gmap string JValue) : result (gmap string JValue) :=
  match field !! "name" with
  | None => inl (KeyError "name")
  | Some (JStr name) =>
      match field_map name with
      | Some v => inr (<["value" := v]> field)
      | None => inr field
      end
  | Some (JArr _) => inl (OtherError "unhashable type: 'list'")
  | Some (JObj _) => inl (OtherError "unhashable type: 'dict'")
  | Some _ => inr field
  end.

Fixpoint fill_fields (field_map : string → option JValue)
    (fields : list (gmap string JValue)) : result (list (gmap string JValue)) :=
  match fields with
  | [] => inr []
  | field :: rest =>
      let* f := fill_field field_map field in
      let* fs := fill_fields field_map rest in
      inr (f :: fs)
  end.

Definition build_app_payload (schemas : list AppSchema)
    (name implementation prowlarr_url base_url api_key : string)
    (sync_categories : option (list Z)) : result AppPayload :=
  match List.find (fun s => py_eq (schema_implementation s)
                                  (JStr implementation)) schemas with
  | None =>
      inl (ValueError ("No schema found for implementation '" +:+
                       implementation +:+ "' in Prowlarr"))
  | Some schema =>
      let sync_categories :=
        match sync_categories with
        | Some cats => cats
        | None =>
            if String.eqb implementation "Radarr" then RADARR_SYNC_CATEGORIES
            else if String.eqb implementation "Sonarr"
                 then SONARR_SYNC_CATEGORIES
            else []
        end in
      let* fields :=
        fill_fields (app_field_map prowlarr_url base_url api_key
                                   sync_categories)
                    (schema_fields schema) in
      inr (mkAppPayload name implementation
             (default (JStr (implementation +:+ "Settings"))
                      (schema_configContract schema))
             "fullSync" fields [])
  end.

(** A payload field as the planner reads it back from the service. *)
Definition stored_field (field : gmap string JValue) : Field :=
  mkField (dict_get field "name") (dict_get field "value").

(** The tenants' usable services, in the order [plan_prowlarr_apps] walks
    them. *)
Definition usable_services (state : DesiredState) : list (string * Family) :=
  concat (map (fun '(username, user) =>
                 map (fun f => (username, f))
                     (List.filter (fun f => service_usable (user_service f user))
                                  families))
              (state_users state)).

Definition app_label (entry : string * Family) : string :=
  family_label entry.2 +:+ " (" +:+ entry.1 +:+ ")".

(** ** Decoded values that are well formed *)

(** No mapping inside the value has two entries under one key, as is the
    case of everything [json] or [yaml] decodes. *)
Fixpoint json_wf (v : JValue) : bool :=
  match v with
  | JArr xs => forallb json_wf xs
  | JObj o =>
      bool_decide (NoDup (map fst o)) && forallb (fun kv => json_wf kv.2) o
  | _ => true
  end.

Fixpoint json_size (v : JValue) : nat :=
  match v with
  | JArr xs => S (list_sum (map json_size xs))
  | JObj o => S (list_sum (map (fun kv => json_size kv.2) o))
  | _ => 1
  end.

Definition dict_wf (d : gmap string JValue) : Prop :=
  ∀ k v, d !! k = Some v → json_wf v = true.

(** The declared value that replaces key [k] of a configuration object. *)
Definition override_for (field_map : list (string * string))
    (yaml : gmap string JValue) (k : string) : option JValue :=
  match List.find (fun entry => String.eqb entry.2 k) field_map with
  | Some (yaml_key, _) => yaml !! yaml_key
  | None => None
  end.

(** ** A download client as the service hands it back *)

(** [d.get(k)] on a decoded JSON object. *)
Definition obj_get (v : JValue) (k : string) : JValue :=
  match v with
  | JObj members => default JNull (assoc_get k members)
  | _ => JNull
  end.

(** The record the planner reads when the service answers with the payload
    it accepted under [id]. *)
Definition stored_download_client (id : Z) (payload : JValue)
  : DownloadClient :=
  mkDownloadClient id (obj_get payload "implementation")
    match obj_get payload "fields" with
    | JArr fields =>
        map (fun f => mkField (obj_get f "name") (obj_get f "value")) fields
    | _ => []
    end.

(** ** arr_client.py, prowlarr_client.py: request URLs *)

Definition slash : Ascii.ascii := Ascii.ascii_of_nat 47.

(** [path.lstrip("/")] *)
Fixpoint lstrip_slash (s : string) : string :=
  match s with
  | EmptyString => EmptyString
  | String c s' => if Ascii.eqb c slash then lstrip_slash s' else s
  end.

(** [ArrClient._url] *)
Definition ArrClient_url (client : ArrClient) (path : string) : string :=
  arr_base_url client +:+ "/api/v3/" +:+ lstrip_slash path.

(** [ProwlarrClient._url] *)
Definition ProwlarrClient_url (client : ProwlarrClient) (path : string)
  : string :=
  prowlarr_base_url client +:+ "/api/v1/" +:+ lstrip_slash path.

(** A run of [n] slashes. *)
Fixpoint slashes (n : nat) : string :=
  match n with
  | O => EmptyString
  | S n' => String slash (slashes n')
  end.

(** ** seedr_validator.py *)

(** What [requests.get] did: it raised a [RequestException], or it
    answered; an answer carries its status code, what its
    [raise_for_status()] does and what its [json()] does. *)
Inductive HttpGet :=
| RequestFailed (e : string)
| Responded (status_code : Z) (raise_for_status : Outcome)
            (json : result JValue).

(** [needle in s] on strings. *)
Fixpoint contains_substring (s needle : string) : bool :=
  String.prefix needle s ||
  match s with
  | EmptyString => false
  | String _ s' => contains_substring s' needle
  end.

Section seedr_validator.
(** [str(x)] on a decoded value. *)
Variable py_format : JValue → string.
(** The text of the [TypeError] Python raises when a value that is no
    container is searched with [in], or a list or string is indexed by a
    string. *)
Variable type_error : JValue → string.
(** [requests.get(f"{SEEDR_API_URL}/user", auth=(email, password), ...)] *)
Variable get_user : string → string → HttpGet.

Definition validate_credentials (email password : string) : result JValue :=
  match get_user email password with
  | RequestFailed e =>
      inl (RuntimeError ("Failed to connect to Seedr API: " +:+ e))
  | Responded status_code raise_for_status json =>
      if (status_code =? 401)%Z then
        inl (RuntimeError ("Seedr authentication failed for '" +:+ email +:+
                           "'"))
      else
        match raise_for_status with
        | Raised e => inl e
        | Returned =>
            let* data := json in
            match data with
            | JObj members =>
                match assoc_get "error" members with
                | Some error =>
                    inl (RuntimeError ("Seedr API error for '" +:+ email +:+
                                       "': " +:+ py_format error))
                | None => inr data
                end
            | JArr items =>
                if existsb (fun x => py_eq (JStr "error") x) items
                then inl (OtherError (type_error data))
                else inr data
            | JStr s =>
                if contains_substring s "error"
                then inl (OtherError (type_error data))
                else inr data
            | _ => inl (OtherError (type_error data))
            end
        end
  end.
End seedr_validator.

(** A call seen from a caller that ignores the value returned. *)
Definition outcome_of {A} (r : result A) : Outcome :=
  match r with
  | inl e => Raised e
  | inr _ => Returned
  end.

(** The two lines the credential loop prints. *)
Definition seedr_valid_line (username : string) : Event :=
  Stdout ("  Seedr credentials valid for " +:+ username).

Definition seedr_failed_line (username msg : string) : Event :=
  Stderr ("  ! Seedr validation failed for " +:+ username +:+ ": " +:+ msg).

(** The tenant's Seedr credentials, when declared, are accepted. *)
Definition seedr_accepted (validate_credentials : string → string → Outcome)
    (entry : string * UserState) : Prop :=
  match user_seedr entry.2 with
  | Some s => validate_credentials (seedr_email s) (seedr_password s) = Returned
  | None => True
  end.

Definition declares_seedr (entry : string * UserState) : bool :=
  match user_seedr entry.2 with
  | Some _ => true
  | None => false
  end.

(** ** arr_sync.py: the [import] command's exports *)

(** [c.isupper()] and [c.lower()] on the ASCII letters the exported keys
    are made of. *)
Definition is_upper (c : Ascii.ascii) : bool :=
  (65 <=? Ascii.nat_of_ascii c)%nat && (Ascii.nat_of_ascii c <=? 90)%nat.

Definition lower (c : Ascii.ascii) : Ascii.ascii :=
  if is_upper c then Ascii.ascii_of_nat (Ascii.nat_of_ascii c + 32) else c.

Fixpoint lstrip_underscore (s : string) : string :=
  match s with
  | EmptyString => EmptyString
  | String c s' =>
      if Ascii.eqb c (Ascii.ascii_of_nat 95) then lstrip_underscore s' else s
  end.

(** ["".join(f"_{c.lower()}" if c.isupper() else c for c in key)] *)
Fixpoint snake_chars (key : string) : string :=
  match key with
  | EmptyString => EmptyString
  | String c rest =>
      if is_upper c
      then String (Ascii.ascii_of_nat 95) (String (lower c) (snake_chars rest))
      else String c (snake_chars rest)
  end.

Definition camel_to_snake (key : string) : string :=
  lstrip_underscore (snake_chars key).

(** One of the two export loops: [for key in keys: if key in config: ...]. *)
Definition export_keys (keys : list string) (config : gmap string JValue)
  : list (string * JValue) :=
  foldl (fun export key =>
           match config !! key with
           | Some v => odict_set (camel_to_snake key) v export
           | None => export
           end)
        [] keys.

Definition naming_export_keys : list string :=
  ["renameMovies"; "standardMovieFormat"; "movieFolderFormat";
   "renameEpisodes"; "standardEpisodeFormat"; "seasonFolderFormat";
   "seriesFolderFormat"].

Definition mm_export_keys : list string :=
  ["recycleBin"; "recycleBinCleanupDays"; "deleteEmptyFolders"].

(** The mapping a YAML document holds once an exported block is pasted
    into it. *)
Definition pasted (export : list (string * JValue)) : gmap string JValue :=
  list_to_map export.


(** ** diff.py: the deferred steps of reference sync *)

(** [old_id in cf_id_map] looks a decoded value up among integer keys: an
    integral number or a boolean can be a key, [None] and strings never
    are, lists and mappings cannot be hashed. *)
Definition cf_map_key (v : JValue) : result (option Z) :=
  match v with
  | JNum q =>
      inr (if Qeq_bool q (inject_Z (Qfloor q)) then Some (Qfloor q) else None)
  | JBool b => inr (Some (if b then 1 else 0)%Z)
  | JNull | JStr _ => inr None
  | JArr _ => inl (OtherError "unhashable type: 'list'")
  | JObj _ => inl (OtherError "unhashable type: 'dict'")
  end.

(** [payload.get("formatItems", [])] when it is a list, and the [format]
    entries of its items. *)
Definition format_items (rest : gmap string JValue) : list JValue :=
  match rest !! "formatItems" with
  | Some (JArr items) => items
  | _ => []
  end.

Definition format_ids (rest : gmap string JValue) : list JValue :=
  map (fun fi => obj_get fi "format") (format_items rest).

(** [formatItems] is absent or a list of mappings. *)
Definition format_items_listed (rest : gmap string JValue) : bool :=
  match rest !! "formatItems" with
  | None => true
  | Some (JArr items) =>
      forallb (fun fi => match fi with JObj _ => true | _ => false end) items
  | Some _ => false
  end.

Section reference_steps.
(** The target service the steps talk to. *)
Variable World : Type.
(** The requests of [ArrClient]; a GET answers or raises, a POST or PUT
    also changes the service.  A custom format or profile is sent as its
    name and its other keys, without [id]. *)
Variable get_custom_formats : ArrClient → World → result (list CustomFormat).
Variable create_custom_format :
  ArrClient → string → gmap string JValue → World →
  World * result CustomFormat.
Variable get_quality_profiles :
  ArrClient → World → result (list QualityProfile).
Variable update_quality_profile :
  ArrClient → Z → string → gmap string JValue → World → World * Outcome.
Variable create_quality_profile :
  ArrClient → string → gmap string JValue → World → World * Outcome.
(** The text of the [AttributeError] or [TypeError] raised on a value that
    has no [get], or cannot be iterated. *)
Variable error_text : JValue → string.

(** The loop of [_sync_custom_formats]; [cf_id_map] is the dictionary the
    planner created, which the step updates in place. *)
Fixpoint sync_custom_formats_loop (target_client : ArrClient)
    (t_names : gmap string CustomFormat) (ref_cfs : list CustomFormat)
    (cf_id_map : gmap Z Z) (w : World) : World * gmap Z Z * Outcome :=
  match ref_cfs with
  | [] => (w, cf_id_map, Returned)
  | ref_cf :: rest =>
      match t_names !! cf_name ref_cf with
      | None =>
          match create_custom_format target_client (cf_name ref_cf)
                  (cf_rest ref_cf) w with
          | (w', inr created) =>
              sync_custom_formats_loop target_client t_names rest
                (<[cf_id ref_cf := cf_id created]> cf_id_map) w'
          | (w', inl e) => (w', cf_id_map, Raised e)
          end
      | Some t =>
          sync_custom_formats_loop target_client t_names rest
            (<[cf_id ref_cf := cf_id t]> cf_id_map) w
      end
  end.

Definition _sync_custom_formats (target_client : ArrClient)
    (ref_cfs : list CustomFormat) (cf_id_map : gmap Z Z) (w : World)
  : World * gmap Z Z * Outcome :=
  match get_custom_formats target_client w with
  | inl e => (w, cf_id_map, Raised e)
  | inr t_cfs =>
      sync_custom_formats_loop target_client (index_by_name cf_name t_cfs)
        ref_cfs cf_id_map w
  end.

(** The body of [for fi in payload.get("formatItems", [])]. *)
Definition remap_format_item (cf_id_map : gmap Z Z) (fi : JValue)
  : result JValue :=
  match fi with
  | JObj members =>
      let old_id := default JNull (assoc_get "format" members) in
      let* key := cf_map_key old_id in
      match key with
      | Some id =>
          match cf_id_map !! id with
          | Some new =>
              inr (JObj (odict_set "format" (JNum (inject_Z new)) members))
          | None => inr fi
          end
      | None => inr fi
      end
  | _ => inl (OtherError (error_text fi))
  end.

Fixpoint remap_each (cf_id_map : gmap Z Z) (items : list JValue)
  : result (list JValue) :=
  match items with
  | [] => inr []
  | fi :: rest =>
      let* fi' := remap_format_item cf_id_map fi in
      let* rest' := remap_each cf_id_map rest in
      inr (fi' :: rest')
  end.

(** "Remap custom format IDs": the payload of one reference profile.  The
    items are changed in place, inside the list the payload shares with
    the reference profile. *)
Definition remap_format_items (cf_id_map : gmap Z Z)
    (rest : gmap string JValue) : result (gmap string JValue) :=
  match rest !! "formatItems" with
  | None => inr rest
  | Some (JArr items) =>
      let* items' := remap_each cf_id_map items in
      inr (<["formatItems" := JArr items']> rest)
  | Some (JObj []) => inr rest
  | Some (JObj ((k, _) :: _)) => inl (OtherError (error_text (JStr k)))
  | Some (JStr EmptyString) => inr rest
  | Some (JStr (String c _)) =>
      inl (OtherError (error_text (JStr (String c EmptyString))))
  | Some v => inl (OtherError (error_text v))
  end.

(** The loop of [_sync_quality_profiles]. *)
Fixpoint sync_quality_profiles_loop (target_client : ArrClient)
    (t_names : gmap string QualityProfile) (ref_profiles : list QualityProfile)
    (cf_id_map : gmap Z Z) (w : World) : World * Outcome :=
  match ref_profiles with
  | [] => (w, Returned)
  | ref_p :: rest =>
      match remap_format_items cf_id_map (qp_rest ref_p) with
      | inl e => (w, Raised e)
      | inr payload =>
          let '(w', sent) :=
            match t_names !! qp_name ref_p with
            | Some t =>
                update_quality_profile target_client (qp_id t) (qp_name ref_p)
                  payload w
            | None =>
                create_quality_profile target_client (qp_name ref_p) payload w
            end in
          match sent with
          | Raised e => (w', Raised e)
          | Returned =>
              sync_quality_profiles_loop target_client t_names rest cf_id_map
                w'
          end
      end
  end.

(** [cf_id_map] is read when the step runs, so it is the dictionary as
    [_sync_custom_formats] left it. *)
Definition _sync_quality_profiles (target_client : ArrClient)
    (ref_profiles : list QualityProfile) (cf_id_map : gmap Z Z) (w : World)
  : World * Outcome :=
  match get_quality_profiles target_client w with
  | inl e => (w, Raised e)
  | inr t_profiles =>
      sync_quality_profiles_loop target_client
        (index_by_name qp_name t_profiles) ref_profiles cf_id_map w
  end.
End reference_steps.

Arguments sync_custom_formats_loop {World} _ _ _ _ _ _.
Arguments _sync_custom_formats {World} _ _ _ _ _ _.
Arguments sync_quality_profiles_loop {World} _ _ _ _ _ _ _ _.
Arguments _sync_quality_profiles {World} _ _ _ _ _ _ _ _.


(** ** Further example data *)

Definition example_config_xml : string :=
  "<Config><ApiKey>abc123</ApiKey></Config>".

(** A docker that answers every [cat /config/config.xml] with the same
    file. *)
Definition example_docker (container : string) : DockerRun :=
  DockerExited 0 example_config_xml EmptyString.

(** The cache files after a first extraction with no cache present. *)
Definition example_cache : gmap string (gmap string (gmap string string)) :=
  (extract_api_key_cached id example_docker ∅ "radarr" ".").1.

Definition example_doc_ok : RawDoc :=
  mkRawDoc None None None
    (Some [("alice", example_raw_user (Some "bob"));
           ("bob", example_raw_user None)]).

Definition example_load_ok (config_path : string) : result RawDoc :=
  inr example_doc_ok.

Definition example_resolved_state : DesiredState :=
  mkDesiredState None None None
    [("alice", mkUserState "alice" None None None EmptyString false "bob");
     ("bob", mkUserState "bob" None None None EmptyString false EmptyString)].

(** One tenant with a usable Radarr, a Recyclarr directory and no file in
    it yet. *)
Definition example_recyclarr_state : DesiredState :=
  mkDesiredState None (Some (mkRecyclarrConfig "/config")) None
    [("alice", example_user "alice" EmptyString ∅)].

Definition example_recyclarr_file (dir : string) : RecyclarrFile :=
  mkRecyclarrFile ∅ ∅.

Definition example_computed_plan : ChangePlan :=
  mkChangePlan None
    [mkUserPlan "alice" [mkServicePlan "Radarr" "http://radarr:7878/" []]]
    None.

Definition example_seedr : SeedrConfig :=
  mkSeedrConfig "a@x.com" "p1" "/dl" true.

(** A service that lists the Seedr client as it was sent. *)
Definition example_stored_fetch (client : ArrClient) : ArrLive :=
  mkArrLive [stored_download_client 7 (_build_seedr_payload example_seedr)]
    [] [] [] [] ∅ ∅.

(** Seedr accepts one account only. *)
Definition example_validate (email password : string) : Outcome :=
  if String.eqb email "a@x.com" then Returned
  else Raised (RuntimeError "Seedr authentication failed").

Definition example_tenant (name email : string) : UserState :=
  mkUserState name (Some (mkSeedrConfig email "p1" "/dl" true)) None None
    EmptyString false EmptyString.

(** A Seedr that answers every request with a server error. *)
Definition example_get_user (email password : string) : HttpGet :=
  Responded 500 (Raised (OtherError "500 Server Error"))
    (inl (ValueError "Expecting value")).

Definition example_error_text (v : JValue) : string := "TypeError".

(** A target service seen as the list of its custom formats; a created
    format gets a fresh id. *)
Definition example_get_custom_formats (client : ArrClient)
    (w : list CustomFormat) : result (list CustomFormat) :=
  inr w.

Definition example_create_custom_format (client : ArrClient) (name : string)
    (rest : gmap string JValue) (w : list CustomFormat)
  : list CustomFormat * result CustomFormat :=
  let created := mkCustomFormat (100 + Z.of_nat (length w)) name rest in
  (w ++ [created], inr created).

Definition example_ref_cfs : list CustomFormat :=
  [mkCustomFormat 1 "x265" ∅; mkCustomFormat 2 "HDR" ∅].

Definition example_formats_world : list CustomFormat :=
  [mkCustomFormat 11 "x265" ∅].

Definition example_formats_run
  : list CustomFormat * gmap Z Z * Outcome :=
  _sync_custom_formats example_get_custom_formats example_create_custom_format
    example_target example_ref_cfs ∅ example_formats_world.

(** The other keys of a reference profile that scores the format "HDR". *)
Definition example_profile_rest : gmap string JValue :=
  {[ "formatItems" :=
       JArr [JObj [("format", JNum 2); ("score", JNum 50)]] ]}.


(** The block a tenant declares for a service family. *)
Definition raw_service (f : Family) (udata : RawUser) : option RawService :=
  match f with
  | Radarr => raw_radarr udata
  | Sonarr => raw_sonarr udata
  end.

(** A document with one tenant whose Radarr names a container and no key. *)
Definition example_doc_container : RawDoc :=
  mkRawDoc None None None
    (Some [("alice",
            mkRawUser None
              (Some (mkRawService (Some "http://radarr:7878") None
                       (Some "radarr") None None None))
              None None None None)]).

Definition example_load_container (config_path : string) : result RawDoc :=
  inr example_doc_container.

Definition example_extract_ok (container : string) : result string :=
  inr "abc123".

Definition example_state_container : DesiredState :=
  mkDesiredState None None None
    [("alice",
      mkUserState "alice" None
        (Some (mkServiceConfig "http://radarr:7878" "abc123" "radarr" [] ∅ ∅))
        None EmptyString false EmptyString)].


(** The schema Prowlarr offers for Radarr applications, and the payload
    built from it for one tenant's Radarr. *)
Definition example_schemas : list AppSchema :=
  [mkAppSchema (JStr "Radarr") None
     [{[ "name" := JStr "prowlarrUrl" ]};
      {[ "name" := JStr "baseUrl" ]};
      {[ "name" := JStr "apiKey" ]}]].

Definition example_app_payload : AppPayload :=
  match build_app_payload example_schemas "Radarr (alice)" "Radarr"
          "http://prowlarr:9696" "http://radarr:7878/" "k1" None with
  | inr payload => payload
  | inl _ => mkAppPayload EmptyString EmptyString JNull EmptyString [] []
  end.


(** ** The natural order of a plan *)

(** The actions of a plan in the order the design gives for walking
    them: the Prowlarr part first, then the services of each tenant in
    tenant and service order, then the Recyclarr part. *)
Definition natural_order (plan : ChangePlan) : list Action :=
  from_option pp_actions [] (cp_prowlarr plan) ++
  (cp_users plan ≫= fun up => up_services up ≫= sp_actions) ++
  from_option rp_actions [] (cp_recyclarr plan).

#[global] Instance ActionType_eq_dec : EqDecision ActionType.
Proof. solve_decision. Defined.

(** The number of actions of one type among the parts of a plan. *)
Definition tally (t : ActionType) (plan : ChangePlan) : nat :=
  length (filter (fun a => action_type a = t) (natural_order plan)).

(** A plan with all three parts, two tenants and every type of action. *)
Definition example_prowlarr : ProwlarrClient :=
  new_ProwlarrClient "http://prowlarr:9696" "pk".

Definition example_mixed_plan : ChangePlan :=
  mkChangePlan
    (Some (mkProwlarrPlan "http://prowlarr:9696"
             [mkAction CREATE "App" (quoted "Radarr (alice)") "will be created"
                (Some (Op_create_app example_prowlarr "http://prowlarr:9696"
                         "Radarr (alice)" "Radarr" "http://radarr:7878/" "k1"))
                []]))
    [mkUserPlan "alice"
       [mkServicePlan "Radarr" "http://radarr:7878/"
          [mkAction NOOP "Download client" "Seedr" "up to date" None [];
           mkAction CREATE "Root folder" (quoted "/movies-4k")
             "will be created"
             (Some (Op_create_root_folder example_target "/movies-4k")) [];
           undeclared_folder_warning "/old"];
        mkServicePlan "Sonarr" "http://sonarr:8989"
          [mkAction UPDATE "Naming config" "will be updated" "from bob"
             (Some (Op_update_naming_config example_reference ∅)) []]];
     mkUserPlan "carol"
       [mkServicePlan "Radarr" "http://carol:7878"
          [mkAction CREATE "Download client" "Seedr" "will be created"
             (Some (Op_create_download_client example_reference JNull)) []]]]
    (Some (mkRecyclarrPlan "/config"
             [mkAction UPDATE "radarr-alice" EmptyString "will be updated"
                (Some (Op_apply_recyclarr example_state)) []])).

(** A world that records the request behind each operation; creating a
    root folder fails with a [KeyError]. *)
Definition tracing_op (op : Op) (w : list string) : list string * Outcome :=
  match op with
  | Op_create_download_client _ _ => (w ++ ["POST downloadclient"], Returned)
  | Op_update_download_client _ _ _ => (w ++ ["PUT downloadclient"], Returned)
  | Op_create_root_folder _ p =>
      (w ++ ["POST rootfolder " +:+ p], Raised (KeyError "it's"))
  | Op_sync_custom_formats _ _ => (w ++ ["POST customformat"], Returned)
  | Op_sync_quality_profiles _ _ _ => (w ++ ["POST qualityprofile"], Returned)
  | Op_update_quality_definitions _ _ =>
      (w ++ ["PUT qualitydefinition"], Returned)
  | Op_update_naming_config _ _ => (w ++ ["PUT config/naming"], Returned)
  | Op_update_media_management _ _ =>
      (w ++ ["PUT config/mediamanagement"], Returned)
  | Op_update_app _ _ _ _ _ _ _ => (w ++ ["PUT applications"], Returned)
  | Op_create_app _ _ _ _ _ _ => (w ++ ["POST applications"], Returned)
  | Op_apply_recyclarr _ => (w ++ ["write recyclarr.yml"], Returned)
  end.

(** Sending the create requests for the custom formats [cfs] one after
    the other, whatever each one answers. *)
Fixpoint run_creates {World}
    (create_custom_format :
       ArrClient → string → gmap string JValue → World →
       World * result CustomFormat)
    (target_client : ArrClient) (cfs : list CustomFormat) (w : World)
  : World * list (result CustomFormat) :=
  match cfs with
  | [] => (w, [])
  | cf :: rest =>
      let '(w1, answer) :=
        create_custom_format target_client (cf_name cf) (cf_rest cf) w in
      let '(w2, answers) :=
        run_creates create_custom_format target_client rest w1 in
      (w2, answer :: answers)
  end.

(** ** The plan executor *)

Section executor_facts.
Variable World : Type.
Variable run_op : Op → World → World * Outcome.

Lemma apply_action_fold (actions : list Action) :
  ∀ (st : LoopState World) w' os,
    run_steps run_op (omap action_execute actions) (loop_world st) = (w', os) →
    let st' := foldl (apply_action run_op) st actions in
    loop_world st' = w' ∧
    length os = length (omap action_execute actions) ∧
    loop_errors st' = (loop_errors st + failures os)%nat ∧
    (loop_applied st' + failures os = loop_applied st + length os)%nat ∧
    loop_output st' =
      loop_output st ++
      zip_with report_line (List.filter has_execute actions) os.
Proof.
  induction actions as [|a actions IH]; intros st w' os Hrun.
  - simpl in *. injection Hrun as <- <-. unfold failures. simpl.
    rewrite app_nil_r. repeat split; lia.
  - cbn [foldl List.filter]. cbn [omap list_omap] in Hrun |- *.
    pose proof (eq_refl (apply_action run_op st a)) as Hstep.
    unfold apply_action at 2 in Hstep. unfold has_execute at 1.
    destruct (action_execute a) as [op|] eqn:Hex;
      [|rewrite Hstep; by apply IH].
    cbn [run_steps] in Hrun.
    destruct (run_op op (loop_world st)) as [w1 o] eqn:Hop.
    destruct (run_steps run_op (omap action_execute actions) w1)
      as [w2 os'] eqn:Hrest.
    injection Hrun as <- <-. rewrite Hstep.
    destruct o as [|e];
      match goal with
      | |- context [foldl _ ?st1 actions] =>
          destruct (IH st1 w2 os' Hrest) as (H1 & H2 & H3 & H4 & H5)
      end;
      cbn [loop_world loop_applied loop_errors loop_output] in *;
      rewrite <- app_assoc in H5; unfold failures in *;
      cbn [List.filter is_raised length zip_with report_line] in *;
      repeat split; try assumption; lia.
Qed.

Lemma bind_concat_map {A B} (f : A → list B) (l : list A) :
  concat (map f l) = l ≫= f.
Proof.
  induction l as [|x l IH]; [done|]. cbn [map concat]. by rewrite IH.
Qed.

Lemma all_actions_natural_order (plan : ChangePlan) :
  all_actions plan = natural_order plan.
Proof.
  unfold all_actions, natural_order.
  apply (f_equal2 app); [by destruct (cp_prowlarr plan)|].
  apply (f_equal2 app); [|by destruct (cp_recyclarr plan)].
  rewrite bind_concat_map. apply list_bind_ext; [|done].
  intros up. apply bind_concat_map.
Qed.

(** C1. [apply_plan] walks the plan in its natural order: the Prowlarr
    part, then each tenant's services in tenant and service order, then
    the Recyclarr part.  With K apply steps among these actions, of which F
    raise, it runs exactly those K steps one after the other in that order
    (actions without a step leave the world alone), always returns, counts
    K - F applied and F errors, reports each step under its action's
    category and name, prints the two counts, and returns [True] exactly
    when F = 0.  On a plan with all three parts, whose second step raises
    [KeyError], the five steps run in order and the report is the one
    expected. *)
Theorem apply_plan_counts (plan : ChangePlan) (w : World) :
  let actions := natural_order plan in
  let steps := omap action_execute actions in
  let ran := run_steps run_op steps w in
  let K := length steps in
  let F := failures ran.2 in
  let st := apply_loop run_op plan w in
  length ran.2 = K ∧
  loop_world st = ran.1 ∧
  loop_applied st = (K - F)%nat ∧
  loop_errors st = F ∧
  loop_output st = zip_with report_line (List.filter has_execute actions) ran.2 ∧
  apply_plan run_op plan w =
    (ran.1,
     loop_output st ++
     [newline +:+ "Applied: " +:+ pretty (K - F)%nat +:+ " changes, " +:+
      pretty F +:+ " errors"],
     bool_decide (F = 0%nat)) ∧
  apply_plan tracing_op example_mixed_plan [] =
    (["POST applications"; "POST rootfolder /movies-4k"; "PUT config/naming";
      "POST downloadclient"; "write recyclarr.yml"],
     ["  + App " +:+ quoted "Radarr (alice)" +:+ ": done";
      "  ! Root folder " +:+ quoted "/movies-4k" +:+ ": FAILED - " +:+
      quoted "it's";
      "  ~ Naming config will be updated: done";
      "  + Download client Seedr: done";
      "  ~ radarr-alice : done";
      newline +:+ "Applied: 4 changes, 1 errors"],
     false).
Proof.
  intros actions steps ran K F st. subst actions steps ran K F.
  rewrite <- all_actions_natural_order.
  destruct (run_steps run_op (omap action_execute (all_actions plan)) w)
    as [w' os] eqn:Hran.
  destruct (apply_action_fold (all_actions plan) (mkLoopState w 0 0 [])
              w' os Hran) as (H1 & H2 & H3 & H4 & H5).
  fold (apply_loop run_op plan w) in H1, H3, H4, H5. fold st in H1, H3, H4, H5.
  cbn [loop_world loop_applied loop_errors loop_output length app] in *.
  cbn [snd fst]. rewrite <- H2.
  assert (Happ : loop_applied st = (length os - failures os)%nat) by lia.
  split; [done|]. split; [done|]. split; [done|]. split; [done|].
  split; [done|]. split; [|reflexivity].
  unfold apply_plan. fold st. rewrite H1, Happ, H3.
  repeat f_equal.
  destruct (failures os);
    [rewrite bool_decide_eq_true_2 | rewrite bool_decide_eq_false_2]; auto.
Qed.
End executor_facts.

(** Four actions, two with an apply step, the second of which fails. *)
Example apply_plan_example :
  length (all_actions example_plan) = 4%nat ∧
  apply_plan logging_op example_plan [] =
  (["POST downloadclient"; "POST rootfolder /movies-4k"],
   ["  + Download client Seedr: done";
    "  ! Root folder " +:+ quoted "/movies-4k" +:+
    ": FAILED - 500 Server Error";
    newline +:+ "Applied: 1 changes, 1 errors"],
   false).
Proof. split; reflexivity. Qed.

(** ** The summary tally and the [apply] command *)

Lemma summary_step_fold (actions : list Action) :
  ∀ c u n,
    foldl summary_step (c, u, n) actions =
    ((c + count_type CREATE actions)%nat,
     (u + count_type UPDATE actions)%nat,
     (n + count_type NOOP actions)%nat).
Proof.
  induction actions as [|a actions IH]; intros c u n.
  - unfold count_type. simpl. repeat f_equal; lia.
  - cbn [foldl].
    assert (Hs : summary_step (c, u, n) a =
                 match action_type a with
                 | CREATE => (S c, u, n)
                 | UPDATE => (c, S u, n)
                 | NOOP => (c, u, S n)
                 | WARNING => (c, u, n)
                 end)
      by (unfold summary_step; destruct (action_type a); reflexivity).
    rewrite Hs. unfold count_type. cbn [List.filter].
    destruct (action_type a) eqn:Ht; rewrite IH; unfold count_type;
      cbn [ActionType_eqb length];
      repeat (apply pair_equal_spec; split); lia.
Qed.

Lemma count_type_warnings (t : ActionType) (actions : list Action) :
  t ≠ WARNING →
  Forall (fun a => action_type a = WARNING) actions →
  count_type t actions = 0%nat.
Proof.
  intros Ht Hall. unfold count_type.
  induction Hall as [|a actions Ha _ IH]; [done|].
  cbn [List.filter]. rewrite Ha. destruct t; try done; apply IH.
Qed.

Lemma no_confirm_in_stdout (lines : list string) :
  existsb is_confirm (map Stdout lines) = false.
Proof. induction lines; [done|]. simpl. assumption. Qed.

Lemma count_type_filter (t : ActionType) (actions : list Action) :
  count_type t actions =
  length (filter (fun a => action_type a = t) actions).
Proof.
  unfold count_type. induction actions as [|a actions IH]; [done|].
  cbn [List.filter]. rewrite filter_cons.
  destruct (decide (action_type a = t)) as [Ha|Ha].
  - rewrite Ha. replace (ActionType_eqb t t) with true by (by destruct t).
    cbn [length]. by rewrite IH.
  - replace (ActionType_eqb (action_type a) t) with false; [done|].
    by destruct (action_type a), t.
Qed.

(** C10. The summary of a plan is the number of [+], of [~] and of [=]
    actions among its parts (the Prowlarr part, every service of every
    tenant, the Recyclarr part); a [!] action is counted nowhere.  A plan
    with all three parts holding three [+], two [~], one [=] and one [!] is
    tallied (3, 2, 1).  A plan made of warnings only is tallied (0, 0, 0),
    and [apply] then prints the plan and "Nothing to do.", asks nothing and
    leaves the services untouched, whatever the prompt would do. *)
Theorem summary_ignores_warnings (plan : ChangePlan) :
  summary plan = (tally CREATE plan, tally UPDATE plan, tally NOOP plan) ∧
  (length (natural_order example_mixed_plan) = 7%nat ∧
   summary example_mixed_plan = (3, 2, 1)%nat) ∧
  (Forall (fun a => action_type a = WARNING) (natural_order plan) →
   summary plan = (0, 0, 0)%nat ∧
   ∀ (World : Type) (run_op : Op → World → World * Outcome)
     (trigger : ProwlarrClient → World → World * Outcome)
     (confirm_answer : ConfirmAnswer) (state : DesiredState) (w : World),
     let r := apply_computed World run_op trigger confirm_answer state plan w in
     r = mkRun (map Stdout (display_plan plan) ++
                [Stdout (newline +:+ "Nothing to do.")]) Finished w ∧
     existsb is_confirm (run_events r) = false).
Proof.
  assert (Hsum : summary plan =
    (tally CREATE plan, tally UPDATE plan, tally NOOP plan)).
  { unfold summary, tally. rewrite summary_step_fold, !count_type_filter.
    by rewrite all_actions_natural_order. }
  split; [exact Hsum|]. split; [split; reflexivity|].
  intros Hall.
  assert (Hzero : summary plan = (0, 0, 0)%nat).
  { unfold summary. rewrite summary_step_fold.
    rewrite all_actions_natural_order.
    rewrite !count_type_warnings by (assumption || discriminate).
    reflexivity. }
  split; [exact Hzero|].
  intros World run_op trigger confirm_answer state w r.
  assert (Hr : r = mkRun (map Stdout (display_plan plan) ++
                          [Stdout (newline +:+ "Nothing to do.")]) Finished w).
  { subst r. unfold apply_computed. rewrite Hzero. reflexivity. }
  split; [exact Hr|].
  rewrite Hr. cbn [run_events]. rewrite existsb_app, no_confirm_in_stdout.
  reflexivity.
Qed.

(** ** Shape of the planned actions *)

Lemma foldl_append_either {A B} (c : A → bool) (f g : A → B) (l : list A) :
  ∀ init,
    foldl (fun acc x => if c x then acc ++ [f x] else acc ++ [g x]) init l =
    init ++ map (fun x => if c x then f x else g x) l.
Proof.
  induction l as [|x l IH]; intros init; cbn [foldl map].
  - by rewrite app_nil_r.
  - rewrite IH. destruct (c x); by rewrite <- app_assoc.
Qed.

Lemma foldl_append_when {A B} (c : A → bool) (f : A → B) (l : list A) :
  ∀ init,
    foldl (fun acc x => if c x then acc ++ [f x] else acc) init l =
    init ++ map f (List.filter c l).
Proof.
  induction l as [|x l IH]; intros init; cbn [foldl map List.filter].
  - by rewrite app_nil_r.
  - rewrite IH. destruct (c x); [|done]. cbn [map]. by rewrite <- app_assoc.
Qed.

Lemma foldl_append_each {A B} (f : A → list B) (l : list A) :
  ∀ init, foldl (fun acc x => acc ++ f x) init l = init ++ concat (map f l).
Proof.
  induction l as [|x l IH]; intros init; cbn [foldl map concat].
  - by rewrite app_nil_r.
  - rewrite IH. by rewrite <- app_assoc.
Qed.

Section shape.
Variable fetch : ArrClient → ArrLive.
Variable fetch_applications : ProwlarrClient → list ProwlarrApp.
Variable set_order : list string → list string.

Lemma plan_root_folders_eq (client : ArrClient) (desired_paths : list string) :
  let existing_paths :=
    set_order (map rf_path (live_root_folders (fetch client))) in
  plan_root_folders fetch set_order client desired_paths =
  map (declared_folder_action client existing_paths) desired_paths ++
  map undeclared_folder_warning
      (List.filter (fun p => bool_decide (p ∉ desired_paths)) existing_paths).
Proof.
  intros existing_paths. unfold plan_root_folders. fold existing_paths.
  rewrite (foldl_append_when (fun p => bool_decide (p ∉ desired_paths))
             undeclared_folder_warning).
  rewrite (foldl_append_either
             (fun path => bool_decide (path ∈ existing_paths))
             (fun path => mkAction NOOP "Root folder" (quoted path) "exists"
                                   None [])
             (fun path => mkAction CREATE "Root folder" (quoted path)
                                   "will be created"
                                   (Some (Op_create_root_folder client path))
                                   [])).
  reflexivity.
Qed.

Lemma well_formed_download_client client seedr :
  well_formed (plan_download_client fetch client seedr).
Proof.
  unfold plan_download_client.
  destruct (List.find _ _) as [e|]; [|solve_well_formed].
  destruct (_seedr_fields_match e seedr); solve_well_formed.
Qed.

Lemma well_formed_root_folders client desired_paths :
  Forall well_formed (plan_root_folders fetch set_order client desired_paths).
Proof.
  rewrite plan_root_folders_eq. apply Forall_app. split.
  - apply List.Forall_map, Forall_forall. intros p _.
    unfold declared_folder_action.
    case_bool_decide; solve_well_formed.
  - apply List.Forall_map, Forall_forall. intros p _.
    unfold undeclared_folder_warning. solve_well_formed.
Qed.

Lemma well_formed_reference_sync target_client ref_client ref_username svc :
  Forall well_formed
    (plan_reference_sync fetch target_client ref_client ref_username svc).
Proof.
  unfold plan_reference_sync.
  destruct (plan_custom_formats _ _ _ _) as [cf_action cf_id_map] eqn:Hcf.
  repeat apply Forall_cons_2; [| | | | |apply Forall_nil_2].
  - unfold plan_custom_formats in Hcf.
    destruct (foldl _ _ _) as [[creates existing] m] in Hcf.
    destruct (0 <? creates)%nat; injection Hcf as <- _;
      solve_well_formed.
  - unfold plan_quality_profiles.
    destruct (foldl _ _ _) as [[creates updates] noops].
    destruct (0 <? creates)%nat; solve_well_formed.
  - unfold plan_quality_definitions.
    match goal with |- well_formed (if ?c then _ else _) => destruct c end;
      solve_well_formed.
  - unfold plan_naming_config.
    match goal with |- well_formed (if ?c then _ else _) => destruct c end;
      solve_well_formed.
  - unfold plan_media_management.
    match goal with |- well_formed (if ?c then _ else _) => destruct c end;
      solve_well_formed.
Qed.

Lemma well_formed_prowlarr_app prowlarr url by_name username user impl :
  Forall well_formed
    (plan_prowlarr_app prowlarr url by_name username user impl).
Proof.
  unfold plan_prowlarr_app.
  destruct (user_service impl user) as [svc|]; [|constructor].
  destruct (negb _ || negb _); [constructor|].
  destruct (by_name !! _) as [existing|].
  - destruct (_ && _); (apply Forall_cons_2; [solve_well_formed|constructor]).
  - apply Forall_cons_2; [solve_well_formed|constructor].
Qed.

Lemma well_formed_prowlarr_apps prowlarr url state :
  Forall well_formed
    (plan_prowlarr_apps fetch_applications prowlarr url state).
Proof.
  unfold plan_prowlarr_apps.
  set (by_name := index_by_name app_name (fetch_applications prowlarr)).
  generalize (@nil Action) (Forall_nil_2 well_formed).
  induction (state_users state) as [|[username user] users IH];
    intros init Hinit; cbn [foldl]; [assumption|].
  apply IH. rewrite foldl_append_each. apply Forall_app. split; [assumption|].
  apply Forall_concat, List.Forall_map, Forall_forall. intros impl _.
  apply well_formed_prowlarr_app.
Qed.

Lemma well_formed_own_actions svc seedr :
  Forall well_formed (own_actions fetch set_order svc seedr).
Proof.
  unfold own_actions. apply Forall_app. split.
  - destruct seedr; repeat constructor.
    + apply well_formed_download_client.
    + apply well_formed_download_client.
  - destruct (svc_root_folders svc) eqn:Hrf; [constructor|].
    rewrite <- Hrf. apply well_formed_root_folders.
Qed.
End shape.

(** ** The plan builder *)

Section builder_facts.
Variable fetch : ArrClient → ArrLive.
Variable fetch_applications : ProwlarrClient → list ProwlarrApp.
Variable set_order : list string → list string.
Variable recyclarr_file : string → RecyclarrFile.

Lemma plan_service_eq f svc seedr user state :
  plan_service fetch set_order f svc seedr user state =
  let base := own_actions fetch set_order svc seedr in
  let client := new_ArrClient (svc_url svc) (svc_api_key svc) in
  let done actions := inr (mkServicePlan (family_label f) (svc_url svc) actions) in
  if str_truthy (user_reference user) then
    match odict_get (user_reference user) (state_users state) with
    | None => inl (KeyError (user_reference user))
    | Some ref_user =>
        match user_service f ref_user with
        | Some r =>
            if str_truthy (svc_url r) && str_truthy (svc_api_key r) then
              done (base ++
                    plan_reference_sync fetch client
                      (new_ArrClient (svc_url r) (svc_api_key r))
                      (user_reference user) svc)
            else done base
        | None => done base
        end
    end
  else done base.
Proof.
  unfold plan_service, own_actions, users_index.
  destruct seedr as [s|]; destruct (svc_root_folders svc) as [|p ps];
    cbn [app]; rewrite ?app_nil_r;
    (destruct (str_truthy (user_reference user)); [|reflexivity]);
    (destruct (odict_get _ _) as [ref_user|]; [|reflexivity]);
    cbn [bind_result];
    (destruct (user_service f ref_user) as [r|]; [|reflexivity]);
    destruct (str_truthy (svc_url r) && str_truthy (svc_api_key r));
    reflexivity.
Qed.

Lemma reference_sync_categories target_client ref_client ref_username svc :
  map action_category
      (plan_reference_sync fetch target_client ref_client ref_username svc) =
  reference_categories.
Proof.
  unfold plan_reference_sync.
  destruct (plan_custom_formats _ _ _ _) as [cf_action cf_id_map] eqn:Hcf.
  cbn [map]. unfold reference_categories. repeat f_equal.
  - unfold plan_custom_formats in Hcf.
    destruct (foldl _ _ _) as [[creates existing] m] in Hcf.
    destruct (0 <? creates)%nat; injection Hcf as <- _; reflexivity.
  - unfold plan_quality_profiles.
    destruct (foldl _ _ _) as [[creates updates] noops].
    destruct (0 <? creates)%nat; reflexivity.
  - unfold plan_quality_definitions.
    match goal with |- action_category (if ?c then _ else _) = _ =>
      destruct c end; reflexivity.
  - unfold plan_naming_config.
    match goal with |- action_category (if ?c then _ else _) = _ =>
      destruct c end; reflexivity.
  - unfold plan_media_management.
    match goal with |- action_category (if ?c then _ else _) = _ =>
      destruct c end; reflexivity.
Qed.

Lemma own_actions_categories svc seedr :
  Forall (fun a => action_category a = "Download client" ∨
                   action_category a = "Root folder")
         (own_actions fetch set_order svc seedr).
Proof.
  unfold own_actions. apply Forall_app. split.
  - destruct seedr as [s|]; [|constructor].
    apply Forall_cons_2; [|constructor]. left.
    unfold plan_download_client.
    destruct (List.find _ _) as [e|]; [|reflexivity].
    destruct (_seedr_fields_match e s); reflexivity.
  - destruct (svc_root_folders svc) eqn:Hrf; [constructor|]. rewrite <- Hrf.
    rewrite plan_root_folders_eq. apply Forall_app.
    split; apply List.Forall_map, Forall_forall; intros p _; right.
    + unfold declared_folder_action. case_bool_decide; reflexivity.
    + reflexivity.
Qed.

Lemma well_formed_plan_service f svc seedr user state sp :
  plan_service fetch set_order f svc seedr user state = inr sp →
  Forall well_formed (sp_actions sp).
Proof.
  rewrite plan_service_eq. cbv zeta.
  pose proof (well_formed_own_actions fetch set_order svc seedr) as Hown.
  destruct (str_truthy (user_reference user));
    [|intros [= <-]; exact Hown].
  destruct (odict_get _ _) as [ref_user|]; [|discriminate].
  destruct (user_service f ref_user) as [r|]; [|intros [= <-]; exact Hown].
  destruct (str_truthy (svc_url r) && str_truthy (svc_api_key r));
    intros [= <-]; [|exact Hown].
  cbn [sp_actions]. apply Forall_app. split; [exact Hown|].
  apply well_formed_reference_sync.
Qed.

Lemma well_formed_user_services fams user state :
  ∀ sps,
    plan_user_services fetch set_order fams user state = inr sps →
    Forall well_formed (concat (map sp_actions sps)).
Proof.
  induction fams as [|f fams IH]; intros sps; cbn [plan_user_services].
  - intros [= <-]. constructor.
  - destruct (user_service f user) as [svc|]; [|apply IH].
    destruct (str_truthy (svc_url svc) && str_truthy (svc_api_key svc));
      [|apply IH].
    destruct (plan_service _ _ _ _ _ _ _) as [e|sp] eqn:Hsp; [discriminate|].
    cbn [bind_result].
    destruct (plan_user_services _ _ _ _ _) as [e|rest] eqn:Hrest;
      [discriminate|].
    cbn [bind_result]. intros [= <-]. cbn [map concat].
    apply Forall_app. split.
    + eapply well_formed_plan_service. exact Hsp.
    + by apply IH.
Qed.

Lemma well_formed_plan_users users state :
  ∀ ups,
    plan_users fetch set_order users state = inr ups →
    Forall well_formed
      (concat (map (fun up => concat (map sp_actions (up_services up))) ups)).
Proof.
  induction users as [|[username user] users IH]; intros ups;
    cbn [plan_users].
  - intros [= <-]. constructor.
  - destruct (plan_user_services _ _ _ _ _) as [e|services] eqn:Hsv;
      [discriminate|].
    cbn [bind_result].
    destruct (plan_users _ _ _ _) as [e|plans] eqn:Hplans; [discriminate|].
    cbn [bind_result].
    destruct services as [|sp services]; intros [= <-]; [by apply IH|].
    cbn [map concat up_services]. apply Forall_app. split.
    + exact (well_formed_user_services _ _ _ _ Hsv).
    + by apply IH.
Qed.

Lemma well_formed_compute_plan state target_user plan :
  compute_plan fetch fetch_applications set_order state target_user = inr plan →
  Forall well_formed (all_actions plan) ∧ cp_recyclarr plan = None.
Proof.
  unfold compute_plan.
  match goal with
  | |- bind_result ?p _ = _ → _ => destruct p as [e|pp] eqn:Hpp
  end; [discriminate|].
  cbn [bind_result].
  match goal with
  | |- bind_result ?p _ = _ → _ => destruct p as [e|todo] eqn:Htodo
  end; [discriminate|].
  cbn [bind_result].
  destruct (plan_users _ _ _ _) as [e|ups] eqn:Hups; [discriminate|].
  cbn [bind_result]. intros [= <-]. split; [|reflexivity].
  unfold all_actions. cbn [cp_prowlarr cp_users cp_recyclarr].
  rewrite app_nil_r. apply Forall_app. split.
  - destruct pp as [p|]; [|constructor].
    destruct (state_prowlarr state) as [cfg|]; [|discriminate].
    destruct (str_truthy (prowlarr_url cfg) && str_truthy (prowlarr_api_key cfg));
      [|discriminate].
    match type of Hpp with
    | bind_result ?fs _ = _ => destruct fs as [e|filtered]
    end; [discriminate|].
    cbn [bind_result] in Hpp.
    destruct (plan_prowlarr_apps _ _ _ _) as [|a l] eqn:Happs; [discriminate|].
    injection Hpp as <-. cbn [pp_actions]. rewrite <- Happs.
    apply well_formed_prowlarr_apps.
  - eapply well_formed_plan_users. exact Hups.
Qed.

Lemma well_formed_add_recyclarr plan state :
  Forall well_formed (all_actions plan) →
  cp_recyclarr plan = None →
  Forall well_formed
    (all_actions (_add_recyclarr_to_plan recyclarr_file plan state)).
Proof.
  intros Hplan Hnone. unfold _add_recyclarr_to_plan.
  destruct (state_recyclarr state) as [r|]; [|assumption].
  destruct (negb _); [assumption|].
  destruct (plan_recyclarr recyclarr_file state) as [|c cs]; [assumption|].
  unfold all_actions in *. cbn [cp_prowlarr cp_users cp_recyclarr rp_actions].
  rewrite Hnone, app_nil_r in Hplan. apply Forall_app in Hplan as [Hp Hu].
  apply Forall_app. split; [assumption|]. apply Forall_app. split; [assumption|].
  rewrite foldl_append_each. cbn [app]. apply Forall_concat, List.Forall_map.
  apply Forall_forall. intros ch _. apply Forall_cons_2; [|constructor].
  destruct (String.eqb (change_type ch) "create"); solve_well_formed.
Qed.

(** C7. Every action any planner produces is well formed: a NOOP or a
    WARNING has no [execute], a CREATE or an UPDATE has one, and none has
    children; this holds for each differencer and for the whole plan that
    [compute_plan] followed by [_add_recyclarr_to_plan] assembles. *)
Theorem planned_actions_well_formed :
  (∀ client seedr, well_formed (plan_download_client fetch client seedr)) ∧
  (∀ client desired_paths,
     Forall well_formed
       (plan_root_folders fetch set_order client desired_paths)) ∧
  (∀ target_client ref_client ref_username target_svc,
     Forall well_formed
       (plan_reference_sync fetch target_client ref_client ref_username
          target_svc)) ∧
  (∀ prowlarr url state,
     Forall well_formed
       (plan_prowlarr_apps fetch_applications prowlarr url state)) ∧
  (∀ state target_user,
     match compute_plan fetch fetch_applications set_order state target_user
     with
     | inr plan =>
         Forall well_formed
           (all_actions (_add_recyclarr_to_plan recyclarr_file plan state))
     | inl _ => True
     end).
Proof.
  split; [apply well_formed_download_client|].
  split; [apply well_formed_root_folders|].
  split; [apply well_formed_reference_sync|].
  split; [apply well_formed_prowlarr_apps|].
  intros state target_user.
  destruct (compute_plan _ _ _ _ _) as [e|plan] eqn:Hplan; [exact I|].
  apply well_formed_compute_plan in Hplan as [Hwf Hnone].
  by apply well_formed_add_recyclarr.
Qed.

(** C8. When the tenant names no reference, or names one whose block for
    this service family is absent or lacks a URL or an API key,
    [plan_service] returns normally with the download-client and root-folder
    actions only; none of them belongs to a reference-sync category, which
    are exactly the categories [plan_reference_sync] emits. *)
Theorem plan_service_skips_reference_sync f svc seedr user state :
  user_reference user = EmptyString ∨
  (∃ ref_user,
     odict_get (user_reference user) (state_users state) = Some ref_user ∧
     service_usable (user_service f ref_user) = false) →
  plan_service fetch set_order f svc seedr user state =
    inr (mkServicePlan (family_label f) (svc_url svc)
           (own_actions fetch set_order svc seedr)) ∧
  Forall (fun a => action_category a ∉ reference_categories)
         (own_actions fetch set_order svc seedr) ∧
  (∀ target_client ref_client ref_username target_svc,
     map action_category
         (plan_reference_sync fetch target_client ref_client ref_username
            target_svc) = reference_categories).
Proof.
  intros Hskip. split; [|split].
  - rewrite plan_service_eq. cbv zeta.
    destruct Hskip as [Hnone | (ref_user & Hget & Hunusable)].
    + rewrite Hnone. reflexivity.
    + destruct (str_truthy (user_reference user)); [|reflexivity].
      rewrite Hget. unfold service_usable in Hunusable.
      destruct (user_service f ref_user) as [r|]; [|reflexivity].
      rewrite Hunusable. reflexivity.
  - eapply Forall_impl; [apply own_actions_categories|].
    intros a Ha Hin. unfold reference_categories in Hin.
    repeat (apply elem_of_cons in Hin as [Hin|Hin];
            [destruct Ha as [Ha|Ha]; rewrite Ha in Hin; discriminate|]).
    by apply elem_of_nil in Hin.
  - apply reference_sync_categories.
Qed.
End builder_facts.

(** ** The download-client differencer *)

(** C4. [plan_download_client] looks at the first live client whose
    implementation is Seedr: with none it plans a CREATE carrying the full
    payload (the four declared values under their field names); with one
    whose four compared fields equal the declared values, a NOOP; otherwise
    one UPDATE whose detail joins exactly the differing field names, in the
    order email, password, downloadDirectory, deleteFromCloud, followed by
    " changed".  When only the password differs the detail is
    "password changed". *)
Theorem plan_download_client_cases (fetch : ArrClient → ArrLive)
    (client : ArrClient) (seedr : SeedrConfig) :
  plan_download_client fetch client seedr =
    match List.find (fun c => py_eq (dc_implementation c) (JStr "Seedr"))
                    (live_download_clients (fetch client)) with
    | None =>
        mkAction CREATE "Download client" "Seedr" "will be created"
          (Some (Op_create_download_client client (_build_seedr_payload seedr)))
          []
    | Some existing =>
        match seedr_differing existing seedr with
        | [] => mkAction NOOP "Download client" "Seedr" "up to date" None []
        | changed =>
            mkAction UPDATE "Download client" "Seedr"
              (join ", " changed +:+ " changed")
              (Some (Op_update_download_client client (dc_id existing)
                       (_build_seedr_payload seedr))) []
        end
    end ∧
  match _build_seedr_payload seedr with
  | JObj members =>
      assoc_get "fields" members =
      Some (JArr (map (fun name =>
                         JObj [("name", JStr name);
                               ("value", seedr_desired_value seedr name)])
                      seedr_field_names))
  | _ => False
  end ∧
  (∀ id : Z,
     let live_client :=
       mkDownloadClient id (JStr "Seedr")
         [mkField (JStr "email") (JStr "a@x.com");
          mkField (JStr "password") (JStr "p1");
          mkField (JStr "downloadDirectory") (JStr "/dl");
          mkField (JStr "deleteFromCloud") (JBool true)] in
     let desired := mkSeedrConfig "a@x.com" "p2" "/dl" true in
     plan_download_client
       (fun _ => mkArrLive [live_client] [] [] [] [] ∅ ∅) client desired =
     mkAction UPDATE "Download client" "Seedr" "password changed"
       (Some (Op_update_download_client client id
                (_build_seedr_payload desired))) []).
Proof.
  split; [|split].
  - unfold plan_download_client.
    destruct (List.find _ _) as [existing|]; [|reflexivity].
    unfold _seedr_fields_match, _seedr_diff_detail, seedr_differing,
      seedr_field_names.
    cbn [List.filter].
    change (seedr_desired_value seedr "email")
      with (JStr (seedr_email seedr)).
    change (seedr_desired_value seedr "password")
      with (JStr (seedr_password seedr)).
    change (seedr_desired_value seedr "downloadDirectory")
      with (JStr (seedr_download_directory seedr)).
    change (seedr_desired_value seedr "deleteFromCloud")
      with (JBool (seedr_delete_from_cloud seedr)).
    destruct (py_eq (_get_field_value (dc_fields existing) "email") _);
      destruct (py_eq (_get_field_value (dc_fields existing) "password") _);
      destruct (py_eq (_get_field_value (dc_fields existing)
                         "downloadDirectory") _);
      destruct (py_eq (_get_field_value (dc_fields existing)
                         "deleteFromCloud") _);
      reflexivity.
  - reflexivity.
  - intros id. reflexivity.
Qed.

(** ** The root-folder differencer *)

Lemma singleton_of_members {A} (l : list A) (a : A) :
  NoDup l → (∀ x, x ∈ l ↔ x = a) → l = [a].
Proof.
  intros Hnd Hmem. destruct l as [|x l].
  - exfalso. pose proof (proj2 (Hmem a) eq_refl) as H. by apply elem_of_nil in H.
  - assert (x = a) as -> by (apply Hmem; left).
    destruct l as [|y l]; [reflexivity|].
    assert (y = a) as -> by (apply Hmem; right; left).
    apply NoDup_cons in Hnd as [Hnot _]. exfalso. apply Hnot. left.
Qed.

(** C2, as the code has it. Whatever order Python iterates the set of live
    paths in, [plan_root_folders] emits one action per declared path, in
    declared order (NOOP when the path is live, CREATE otherwise), followed
    by one WARNING per distinct live path that is not declared, in the
    set's iteration order; no action deletes anything.  For declared
    ["/movies", "/movies-4k"] and live ["/movies", "/old"] the plan is
    NOOP "/movies", CREATE "/movies-4k", WARNING "/old". *)
Theorem plan_root_folders_order (fetch : ArrClient → ArrLive)
    (set_order : list string → list string) (client : ArrClient)
    (desired_paths : list string) :
  (∀ l, NoDup (set_order l)) →
  (∀ l x, x ∈ set_order l ↔ x ∈ l) →
  let live := map rf_path (live_root_folders (fetch client)) in
  (∃ warned,
     plan_root_folders fetch set_order client desired_paths =
       map (declared_folder_action client live) desired_paths ++
       map undeclared_folder_warning warned ∧
     NoDup warned ∧
     ∀ p, p ∈ warned ↔ p ∈ live ∧ p ∉ desired_paths) ∧
  (∀ id1 id2,
     live_root_folders (fetch client) =
       [mkRootFolder id1 "/movies"; mkRootFolder id2 "/old"] →
     plan_root_folders fetch set_order client ["/movies"; "/movies-4k"] =
       [mkAction NOOP "Root folder" (quoted "/movies") "exists" None [];
        mkAction CREATE "Root folder" (quoted "/movies-4k") "will be created"
          (Some (Op_create_root_folder client "/movies-4k")) [];
        mkAction WARNING "Root folder" (quoted "/old")
          "exists in API but not in YAML (not removing)" None []]).
Proof.
  intros Hnodup Hmem live.
  assert (Hgen : ∀ desired,
    let warned :=
      List.filter (fun p => bool_decide (p ∉ desired)) (set_order live) in
    plan_root_folders fetch set_order client desired =
      map (declared_folder_action client live) desired ++
      map undeclared_folder_warning warned ∧
    NoDup warned ∧ ∀ p, p ∈ warned ↔ p ∈ live ∧ p ∉ desired).
  { intros desired warned. split; [|split].
    - rewrite plan_root_folders_eq. fold live. fold warned. f_equal.
      apply map_ext. intros p. unfold declared_folder_action.
      apply (f_equal (fun b : bool => if b then _ else _)).
      apply bool_decide_ext, Hmem.
    - subst warned. apply NoDup_ListNoDup, List.NoDup_filter, NoDup_ListNoDup.
      apply Hnodup.
    - intros p. subst warned. rewrite list_elem_of_In, filter_In.
      rewrite <- list_elem_of_In, Hmem, bool_decide_eq_true. reflexivity. }
  split.
  - eexists. apply Hgen.
  - intros id1 id2 Hlive.
    destruct (Hgen ["/movies"; "/movies-4k"]) as (Heq & Hnd & Hin).
    rewrite Heq.
    assert (Hl : live = ["/movies"; "/old"])
      by (subst live; rewrite Hlive; reflexivity).
    rewrite (singleton_of_members _ "/old" Hnd).
    + rewrite Hl. reflexivity.
    + intros x. rewrite Hin, Hl. split.
      * intros [Hx Hnot].
        apply elem_of_cons in Hx as [->|Hx];
          [exfalso; apply Hnot; left|].
        apply list_elem_of_singleton in Hx. exact Hx.
      * intros ->. split; [right; left|].
        intros H. apply elem_of_cons in H as [H|H]; [discriminate|].
        apply list_elem_of_singleton in H. discriminate.
Qed.

(** ** Matching by name *)

Section by_name.
Context {A : Type} (name : A → string).

Lemma index_fold_lookup (l : list A) :
  ∀ (m : gmap string A) n x,
    foldl (fun m x => <[name x := x]> m) m l !! n = Some x →
    m !! n = Some x ∨ (x ∈ l ∧ name x = n).
Proof.
  induction l as [|y l IH]; intros m n x; cbn [foldl]; [by left|].
  intros H. apply IH in H as [H|[Hin Hn]].
  - destruct (decide (name y = n)) as [<-|Hne].
    + rewrite lookup_insert_eq in H. injection H as <-. right. split; [left|done].
    + rewrite lookup_insert_ne in H by done. by left.
  - right. split; [by right|done].
Qed.

Lemma index_fold_is_Some (l : list A) :
  ∀ (m : gmap string A) n,
    is_Some (foldl (fun m x => <[name x := x]> m) m l !! n) ↔
    is_Some (m !! n) ∨ n ∈ map name l.
Proof.
  induction l as [|y l IH]; intros m n; cbn [foldl map].
  - split; [by left|]. intros [H|H]; [done|]. by apply elem_of_nil in H.
  - rewrite IH. destruct (decide (name y = n)) as [<-|Hne].
    + rewrite lookup_insert_eq. split; [intros _; right; left|eauto].
    + rewrite lookup_insert_ne by done. split.
      * intros [H|H]; [by left|right; by right].
      * intros [H|H]; [by left|].
        apply elem_of_cons in H as [H|H]; [congruence|by right].
Qed.

Lemma index_by_name_is_Some (l : list A) (n : string) :
  is_Some (index_by_name name l !! n) ↔ n ∈ map name l.
Proof.
  unfold index_by_name. rewrite index_fold_is_Some, lookup_empty.
  split; [intros [[x H]|H]; [discriminate|done]|by right].
Qed.

Lemma index_by_name_None (l : list A) (n : string) :
  index_by_name name l !! n = None ↔ n ∉ map name l.
Proof.
  rewrite <- index_by_name_is_Some, eq_None_not_Some. reflexivity.
Qed.

Lemma index_by_name_Some (l : list A) (n : string) (x : A) :
  index_by_name name l !! n = Some x → x ∈ l ∧ name x = n.
Proof.
  unfold index_by_name. intros H. apply index_fold_lookup in H as [H|H]; [|done].
  by rewrite lookup_empty in H.
Qed.

Lemma index_fold_unique (l : list A) :
  ∀ (m : gmap string A) x,
    NoDup (map name l) → x ∈ l →
    foldl (fun m x => <[name x := x]> m) m l !! name x = Some x.
Proof.
  induction l as [|y l IH]; intros m x Hnd Hin; cbn [foldl map] in *.
  - by apply elem_of_nil in Hin.
  - apply NoDup_cons in Hnd as [Hnot Hnd].
    apply elem_of_cons in Hin as [->|Hin]; [|by apply IH].
    destruct (foldl _ (<[name y:=y]> m) l !! name y) as [z|] eqn:Hz.
    + apply index_fold_lookup in Hz as [Hz|[Hz Hn]].
      * by rewrite lookup_insert_eq in Hz.
      * exfalso. apply Hnot. rewrite <- Hn.
        apply list_elem_of_In, in_map, list_elem_of_In, Hz.
    + exfalso.
      assert (Hs : is_Some (foldl (fun m x => <[name x := x]> m)
                              (<[name y:=y]> m) l !! name y)).
      { apply index_fold_is_Some. left. rewrite lookup_insert_eq. eauto. }
      rewrite Hz in Hs. by destruct Hs.
Qed.

Lemma index_by_name_unique (l : list A) (x : A) :
  NoDup (map name l) → x ∈ l → index_by_name name l !! name x = Some x.
Proof. apply index_fold_unique. Qed.
End by_name.

(** ** Reference sync: quality profiles *)

Lemma profile_scan_fold (names : gmap string QualityProfile)
    (l : list QualityProfile) :
  ∀ c u n,
    foldl (profile_scan names) (c, u, n) l =
    ((c + length (List.filter (profile_missing names) l))%nat, u,
     (n + length (List.filter (fun p => negb (profile_missing names p)) l))%nat).
Proof.
  induction l as [|p l IH]; intros c u n; cbn [foldl List.filter].
  - cbn [length]. repeat (apply pair_equal_spec; split); lia.
  - assert (Hs : profile_scan names (c, u, n) p =
                 if profile_missing names p then (S c, u, n) else (c, u, S n)).
    { unfold profile_scan, profile_missing.
      destruct (names !! qp_name p); reflexivity. }
    rewrite Hs.
    destruct (profile_missing names p); rewrite IH; cbn [negb length];
      repeat (apply pair_equal_spec; split); lia.
Qed.

Lemma filter_length_pos {A} (c : A → bool) (l : list A) :
  (0 < length (List.filter c l))%nat ↔ ∃ x, x ∈ l ∧ c x = true.
Proof.
  split.
  - intros H. destruct (List.filter c l) as [|x f] eqn:Hf; [simpl in H; lia|].
    exists x. rewrite list_elem_of_In.
    apply filter_In. rewrite Hf. by left.
  - intros (x & Hin & Hc).
    assert (Hx : In x (List.filter c l))
      by (apply filter_In; split; [by apply list_elem_of_In|done]).
    destruct (List.filter c l); [done|simpl; lia].
Qed.

(** C5. The quality-profile block of reference sync contributes exactly
    one action: a CREATE whose single deferred step carries all reference
    profiles when some reference profile's name is absent from the target,
    and a NOOP when every reference profile's name is present; only names
    are consulted. *)
Theorem quality_profiles_one_action (fetch : ArrClient → ArrLive)
    (target_client ref_client : ArrClient) (ref_username : string)
    (target_svc : ServiceConfig) (cf_id_map : gmap Z Z) :
  let ref_profiles := live_quality_profiles (fetch ref_client) in
  let target_names := map qp_name (live_quality_profiles (fetch target_client)) in
  let missing :=
    List.filter (fun p => bool_decide (qp_name p ∉ target_names)) ref_profiles in
  let action :=
    plan_quality_profiles fetch target_client ref_client ref_username cf_id_map in
  List.filter (fun a => String.eqb (action_category a) "Quality profiles")
    (plan_reference_sync fetch target_client ref_client ref_username target_svc)
  = [plan_quality_profiles fetch target_client ref_client ref_username
       (plan_custom_formats fetch target_client ref_client ref_username).2] ∧
  ((∃ p, p ∈ ref_profiles ∧ qp_name p ∉ target_names) →
   action =
     mkAction CREATE "Quality profiles"
       (pretty (length missing) +:+ " from " +:+ ref_username)
       (pretty (length missing) +:+ " to create, " +:+
        pretty (length ref_profiles - length missing)%nat +:+ " existing")
       (Some (Op_sync_quality_profiles target_client ref_profiles cf_id_map))
       []) ∧
  ((∀ p, p ∈ ref_profiles → qp_name p ∈ target_names) →
   action =
     mkAction NOOP "Quality profiles"
       (pretty (length ref_profiles) +:+ " synced")
       ("from " +:+ ref_username) None []).
Proof.
  intros ref_profiles target_names missing action.
  set (names := index_by_name qp_name
                  (live_quality_profiles (fetch target_client))).
  assert (Hmiss : ∀ p, profile_missing names p =
                       bool_decide (qp_name p ∉ target_names)).
  { intros p. unfold profile_missing. apply bool_decide_ext.
    apply index_by_name_None. }
  assert (Hfilter : List.filter (profile_missing names) ref_profiles = missing).
  { subst missing. apply filter_ext. exact Hmiss. }
  assert (Hlen : (length (List.filter (fun p => negb (profile_missing names p))
                            ref_profiles) =
                  length ref_profiles - length missing)%nat).
  { rewrite <- Hfilter. clear. induction ref_profiles as [|p l IH]; [done|].
    cbn [List.filter]. destruct (profile_missing names p); cbn [negb length].
    - rewrite IH. reflexivity.
    - rewrite IH. pose proof (filter_length_le (profile_missing names) l). lia. }
  assert (Haction : action =
    if (0 <? length missing)%nat then
      mkAction CREATE "Quality profiles"
        (pretty (length missing) +:+ " from " +:+ ref_username)
        (pretty (length missing) +:+ " to create, " +:+
         pretty (length ref_profiles - length missing)%nat +:+ " existing")
        (Some (Op_sync_quality_profiles target_client ref_profiles cf_id_map))
        []
    else
      mkAction NOOP "Quality profiles"
        (pretty (length ref_profiles) +:+ " synced")
        ("from " +:+ ref_username) None []).
  { subst action. unfold plan_quality_profiles.
    fold ref_profiles. fold names.
    rewrite profile_scan_fold, Hfilter, Hlen. reflexivity. }
  split; [|split].
  - unfold plan_reference_sync.
    destruct (plan_custom_formats _ _ _ _) as [cf_action m] eqn:Hcf.
    pose proof (reference_sync_categories fetch target_client ref_client
                  ref_username target_svc) as Hcat.
    unfold plan_reference_sync in Hcat. rewrite Hcf in Hcat.
    cbn [map] in Hcat. unfold reference_categories in Hcat.
    injection Hcat as H1 H2 H3 H4 H5.
    cbn [List.filter]. rewrite H1, H2, H3, H4, H5. reflexivity.
  - intros (p & Hin & Hnot). rewrite Haction.
    assert (Hpos : (0 < length missing)%nat).
    { subst missing. apply filter_length_pos. exists p.
      split; [done|]. by apply bool_decide_eq_true. }
    apply Nat.ltb_lt in Hpos. rewrite Hpos. reflexivity.
  - intros Hall. rewrite Haction.
    assert (Hzero : length missing = 0%nat).
    { destruct (Nat.eq_dec (length missing) 0) as [|Hne]; [done|].
      assert (Hpos : (0 < length missing)%nat) by lia.
      subst missing. apply filter_length_pos in Hpos as (p & Hin & Hc).
      apply bool_decide_eq_true in Hc. exfalso. by apply Hc, Hall. }
    rewrite Hzero. reflexivity.
Qed.

(** ** Reference sync: custom formats and the id-remap table *)

Lemma cf_scan_fold (names : gmap string CustomFormat) (l : list CustomFormat) :
  ∀ c e m,
    foldl (cf_scan names) (c, e, m) l =
    ((c + length (List.filter (fun r => negb (cf_matched names r)) l))%nat,
     (e + length (List.filter (cf_matched names) l))%nat,
     foldl (cf_record names) m l).
Proof.
  induction l as [|r l IH]; intros c e m; cbn [foldl List.filter].
  - cbn [length]. repeat (apply pair_equal_spec; split); try lia; reflexivity.
  - assert (Hs : cf_scan names (c, e, m) r =
                 if cf_matched names r then (c, S e, cf_record names m r)
                 else (S c, e, cf_record names m r)).
    { unfold cf_scan, cf_matched, cf_record.
      destruct (names !! cf_name r) as [t|].
      - rewrite bool_decide_eq_true_2 by eauto. reflexivity.
      - rewrite bool_decide_eq_false_2 by (intros [? ?]; discriminate).
        reflexivity. }
    rewrite Hs.
    destruct (cf_matched names r); rewrite IH; cbn [negb length];
      repeat (apply pair_equal_spec; split); try lia; reflexivity.
Qed.

Lemma cf_record_fold_other (names : gmap string CustomFormat)
    (l : list CustomFormat) :
  ∀ m k, k ∉ map cf_id l → foldl (cf_record names) m l !! k = m !! k.
Proof.
  induction l as [|r l IH]; intros m k Hk; cbn [foldl map] in *; [done|].
  apply not_elem_of_cons in Hk as [Hne Hk]. rewrite IH by done.
  unfold cf_record. destruct (names !! cf_name r); [|done].
  by rewrite lookup_insert_ne.
Qed.

Lemma cf_record_fold_is_Some (names : gmap string CustomFormat)
    (l : list CustomFormat) :
  ∀ m k, is_Some (m !! k) → is_Some (foldl (cf_record names) m l !! k).
Proof.
  induction l as [|r l IH]; intros m k Hk; cbn [foldl]; [done|].
  apply IH. unfold cf_record. destruct (names !! cf_name r); [|done].
  destruct (decide (cf_id r = k)) as [<-|Hne].
  - rewrite lookup_insert_eq. eauto.
  - by rewrite lookup_insert_ne.
Qed.

Lemma cf_record_fold_present (names : gmap string CustomFormat)
    (l : list CustomFormat) :
  ∀ m r t,
    r ∈ l → names !! cf_name r = Some t →
    is_Some (foldl (cf_record names) m l !! cf_id r).
Proof.
  induction l as [|r0 l IH]; intros m r t Hin Hname; cbn [foldl].
  - by apply elem_of_nil in Hin.
  - apply elem_of_cons in Hin as [->|Hin]; [|by eapply IH].
    apply cf_record_fold_is_Some. unfold cf_record. rewrite Hname.
    rewrite lookup_insert_eq. eauto.
Qed.

Lemma cf_record_fold_origin (names : gmap string CustomFormat)
    (l : list CustomFormat) :
  ∀ m k v,
    foldl (cf_record names) m l !! k = Some v →
    m !! k = Some v ∨
    ∃ r t, r ∈ l ∧ names !! cf_name r = Some t ∧ cf_id r = k ∧ v = cf_id t.
Proof.
  induction l as [|r0 l IH]; intros m k v; cbn [foldl]; [by left|].
  intros H. apply IH in H as [H|(r & t & Hin & Hn & Hk & Hv)].
  - unfold cf_record in H. destruct (names !! cf_name r0) as [t|] eqn:Hn;
      [|by left].
    destruct (decide (cf_id r0 = k)) as [<-|Hne].
    + rewrite lookup_insert_eq in H. injection H as <-.
      right. exists r0, t. split; [left|done].
    + rewrite lookup_insert_ne in H by done. by left.
  - right. exists r, t. split; [by right|done].
Qed.

Lemma cf_record_fold_exact (names : gmap string CustomFormat)
    (l : list CustomFormat) :
  ∀ m r t,
    NoDup (map cf_id l) → r ∈ l → names !! cf_name r = Some t →
    foldl (cf_record names) m l !! cf_id r = Some (cf_id t).
Proof.
  induction l as [|r0 l IH]; intros m r t Hnd Hin Hname; cbn [foldl map] in *.
  - by apply elem_of_nil in Hin.
  - apply NoDup_cons in Hnd as [Hnot Hnd].
    apply elem_of_cons in Hin as [->|Hin]; [|by apply IH].
    rewrite cf_record_fold_other by done.
    unfold cf_record. rewrite Hname. apply lookup_insert_eq.
Qed.

Lemma plan_custom_formats_eq (fetch : ArrClient → ArrLive)
    (target_client ref_client : ArrClient) (ref_username : string) :
  let ref_cfs := live_custom_formats (fetch ref_client) in
  let names :=
    index_by_name cf_name (live_custom_formats (fetch target_client)) in
  let creates :=
    length (List.filter (fun r => negb (cf_matched names r)) ref_cfs) in
  let existing := length (List.filter (cf_matched names) ref_cfs) in
  plan_custom_formats fetch target_client ref_client ref_username =
  if (0 <? creates)%nat then
    (mkAction CREATE "Custom formats"
       (pretty creates +:+ " from " +:+ ref_username)
       (pretty creates +:+ " to create, " +:+ pretty existing +:+ " existing")
       (Some (Op_sync_custom_formats target_client ref_cfs)) [],
     foldl (cf_record names) ∅ ref_cfs)
  else
    (mkAction NOOP "Custom formats" (pretty existing +:+ " synced")
       ("from " +:+ ref_username) None [],
     foldl (cf_record names) (foldl (cf_record names) ∅ ref_cfs) ref_cfs).
Proof.
  intros ref_cfs names creates existing. unfold plan_custom_formats.
  fold ref_cfs. fold names. rewrite cf_scan_fold. cbn [Nat.add].
  fold creates. fold existing. reflexivity.
Qed.

(** C6. The id-remap table [plan_custom_formats] leaves behind has an
    entry under the id of every reference custom format that has a
    same-named custom format in the target, whether or not anything is to
    be created; each entry maps a reference id to the id of a target format
    of the same name (the very counterpart when reference ids and target
    names are distinct).  When no reference format is missing, the block's
    single action is a NOOP named after the number synced. *)
Theorem custom_format_id_map (fetch : ArrClient → ArrLive)
    (target_client ref_client : ArrClient) (ref_username : string) :
  let ref_cfs := live_custom_formats (fetch ref_client) in
  let target_cfs := live_custom_formats (fetch target_client) in
  let planned :=
    plan_custom_formats fetch target_client ref_client ref_username in
  (∀ r t, r ∈ ref_cfs → t ∈ target_cfs → cf_name r = cf_name t →
     ∃ tid, planned.2 !! cf_id r = Some tid ∧
            ∃ r' t', r' ∈ ref_cfs ∧ t' ∈ target_cfs ∧ cf_id r' = cf_id r ∧
                     cf_name r' = cf_name t' ∧ tid = cf_id t') ∧
  (NoDup (map cf_id ref_cfs) → NoDup (map cf_name target_cfs) →
   ∀ r t, r ∈ ref_cfs → t ∈ target_cfs → cf_name r = cf_name t →
     planned.2 !! cf_id r = Some (cf_id t)) ∧
  ((∀ r, r ∈ ref_cfs → cf_name r ∈ map cf_name target_cfs) →
   planned.1 =
     mkAction NOOP "Custom formats" (pretty (length ref_cfs) +:+ " synced")
       ("from " +:+ ref_username) None []).
Proof.
  intros ref_cfs target_cfs planned.
  set (names := index_by_name cf_name target_cfs).
  pose proof (plan_custom_formats_eq fetch target_client ref_client
                ref_username) as Heq.
  cbv zeta in Heq. fold ref_cfs target_cfs names planned in Heq.
  assert (Hmap : planned.2 = foldl (cf_record names) ∅ ref_cfs ∨
                 planned.2 = foldl (cf_record names)
                               (foldl (cf_record names) ∅ ref_cfs) ref_cfs).
  { rewrite Heq. destruct (0 <? _)%nat; [by left|by right]. }
  assert (Hnames : ∀ r t, t ∈ target_cfs → cf_name r = cf_name t →
                          ∃ t', names !! cf_name r = Some t').
  { intros r t Ht Hn.
    assert (Hs : is_Some (names !! cf_name r)).
    { apply index_by_name_is_Some. rewrite Hn.
      apply list_elem_of_In, in_map, list_elem_of_In, Ht. }
    exact Hs. }
  assert (Horigin : ∀ k v, planned.2 !! k = Some v →
            ∃ r t, r ∈ ref_cfs ∧ names !! cf_name r = Some t ∧
                   cf_id r = k ∧ v = cf_id t).
  { intros k v Hk. destruct Hmap as [Hm|Hm]; rewrite Hm in Hk.
    - apply cf_record_fold_origin in Hk as [Hk|Hk]; [|done].
      by rewrite lookup_empty in Hk.
    - apply cf_record_fold_origin in Hk as [Hk|Hk]; [|done].
      apply cf_record_fold_origin in Hk as [Hk|Hk]; [|done].
      by rewrite lookup_empty in Hk. }
  split; [|split].
  - intros r t Hr Ht Hn.
    destruct (Hnames r t Ht Hn) as [t0 Ht0].
    assert (Hs : is_Some (planned.2 !! cf_id r)).
    { destruct Hmap as [Hm|Hm]; rewrite Hm;
        eapply cf_record_fold_present; eauto. }
    destruct Hs as [tid Htid]. exists tid. split; [done|].
    destruct (Horigin _ _ Htid) as (r' & t' & Hr' & Hn' & Hid & Hv).
    apply index_by_name_Some in Hn' as [Ht' Hname'].
    exists r', t'. repeat split; done.
  - intros Hids Hnd r t Hr Ht Hn.
    assert (Ht0 : names !! cf_name r = Some t).
    { rewrite Hn. by apply index_by_name_unique. }
    destruct Hmap as [Hm|Hm]; rewrite Hm; by apply cf_record_fold_exact.
  - intros Hall. rewrite Heq.
    assert (Hfilter : List.filter (cf_matched names) ref_cfs = ref_cfs).
    { clear -Hall. induction ref_cfs as [|r l IH]; [done|].
      cbn [List.filter]. unfold cf_matched at 1.
      rewrite bool_decide_eq_true_2.
      - f_equal. apply IH. intros r' Hr'. apply Hall. by right.
      - apply index_by_name_is_Some, Hall. left. }
    assert (Hnone : List.filter (fun r => negb (cf_matched names r)) ref_cfs = []).
    { clear -Hall. induction ref_cfs as [|r l IH]; [done|].
      cbn [List.filter]. unfold cf_matched at 1.
      rewrite bool_decide_eq_true_2.
      - cbn [negb]. apply IH. intros r' Hr'. apply Hall. by right.
      - apply index_by_name_is_Some, Hall. left. }
    rewrite Hfilter, Hnone. reflexivity.
Qed.

(** ** Ordered dictionaries *)

Section odict_facts.
Context {A : Type}.
Implicit Types d : list (string * A).

Lemma odict_get_set_eq d k v : odict_get k (odict_set k v d) = Some v.
Proof.
  unfold odict_get. induction d as [|[k' v'] d IH]; cbn [odict_set assoc_get].
  - by rewrite String.eqb_refl.
  - destruct (String.eqb k' k) eqn:Hk; cbn [assoc_get]; by rewrite Hk.
Qed.

Lemma odict_get_set_ne d k k' v :
  k ≠ k' → odict_get k' (odict_set k v d) = odict_get k' d.
Proof.
  intros Hne. unfold odict_get.
  induction d as [|[k0 v0] d IH]; cbn [odict_set assoc_get].
  - apply String.eqb_neq in Hne. by rewrite Hne.
  - destruct (String.eqb k0 k) eqn:Hk; cbn [assoc_get].
    + apply String.eqb_eq in Hk as ->. apply String.eqb_neq in Hne.
      by rewrite Hne.
    + by rewrite IH.
Qed.

Lemma odict_get_None d k : odict_get k d = None ↔ k ∉ odict_keys d.
Proof.
  unfold odict_get, odict_keys.
  induction d as [|[k0 v0] d IH]; cbn [assoc_get fmap list_fmap fst].
  - split; [intros _; apply not_elem_of_nil|done].
  - rewrite not_elem_of_cons. destruct (String.eqb k0 k) eqn:Hk.
    + apply String.eqb_eq in Hk as ->. split; [done|]. by intros [? _].
    + apply String.eqb_neq in Hk. rewrite IH. split; [|by intros [_ ?]].
      intros H. split; [congruence|done].
Qed.

Lemma odict_get_Some_key d k v : odict_get k d = Some v → k ∈ odict_keys d.
Proof.
  intros H. destruct (decide (k ∈ odict_keys d)) as [|Hn]; [done|].
  apply odict_get_None in Hn. congruence.
Qed.

Lemma odict_keys_set d k v :
  is_Some (odict_get k d) → odict_keys (odict_set k v d) = odict_keys d.
Proof.
  unfold odict_get, odict_keys.
  induction d as [|[k0 v0] d IH]; cbn [assoc_get odict_set fmap list_fmap].
  - by intros [? ?].
  - destruct (String.eqb k0 k) eqn:Hk; cbn [fmap list_fmap fst]; [done|].
    intros H. f_equal. by apply IH.
Qed.

Lemma odict_keys_set_new d k v :
  odict_get k d = None → odict_keys (odict_set k v d) = odict_keys d ++ [k].
Proof.
  unfold odict_get, odict_keys.
  induction d as [|[k0 v0] d IH]; cbn [assoc_get odict_set fmap list_fmap];
    [done|].
  destruct (String.eqb k0 k) eqn:Hk; [done|].
  intros H. cbn [fmap list_fmap fst app]. f_equal. by apply IH.
Qed.
End odict_facts.

(** ** The reference pass of the resolver *)

Lemma dict_truthy_false (m : gmap string JValue) :
  dict_truthy m = false ↔ m = ∅.
Proof.
  unfold dict_truthy. rewrite negb_false_iff, bool_decide_eq_true.
  apply map_size_empty_iff.
Qed.

Lemma dict_truthy_true (m : gmap string JValue) :
  dict_truthy m = true ↔ m ≠ ∅.
Proof.
  rewrite <- dict_truthy_false. destruct (dict_truthy m); split; congruence.
Qed.

Lemma apply_reference_reference (user ref_user : UserState) :
  user_reference (_apply_reference user ref_user) = user_reference user.
Proof. reflexivity. Qed.

Lemma apply_reference_service_of (f : Family) (user ref_user : UserState) :
  user_service f (_apply_reference user ref_user) =
  apply_reference_service (user_service f user) (user_service f ref_user).
Proof. destruct f; reflexivity. Qed.

Lemma resolve_one_spec (users users' : list (string * UserState))
    (k : string) :
  resolve_one users k = inr users' →
  (∀ k', k' ≠ k → odict_get k' users' = odict_get k' users) ∧
  (∀ u, odict_get k users = Some u →
        if str_truthy (user_reference u)
        then ∃ x, odict_get (user_reference u) users = Some x ∧
                  odict_get k users' = Some (_apply_reference u x)
        else odict_get k users' = Some u).
Proof.
  unfold resolve_one. destruct (odict_get k users) as [u|] eqn:Hu.
  - destruct (str_truthy (user_reference u)) eqn:Href.
    + destruct (odict_get (user_reference u) users) as [x|] eqn:Hx;
        [|discriminate].
      intros [= <-]. split.
      * intros k' Hne. by apply odict_get_set_ne.
      * intros u' [= <-]. rewrite Href. exists x.
        split; [done|apply odict_get_set_eq].
    + intros [= <-]. split; [done|]. intros u' [= <-]. by rewrite Href.
  - intros [= <-]. split; [done|]. intros u' Hu'. congruence.
Qed.

Lemma resolve_keys_other (keys : list string) :
  ∀ users users' k,
    resolve_keys keys users = inr users' → k ∉ keys →
    odict_get k users' = odict_get k users.
Proof.
  induction keys as [|k0 keys IH]; intros users users' k; cbn [resolve_keys].
  - by intros [= <-].
  - destruct (resolve_one users k0) as [e|users1] eqn:H1; [discriminate|].
    cbn [bind_result]. intros Hrest Hk.
    apply not_elem_of_cons in Hk as [Hne Hk].
    rewrite (IH _ _ _ Hrest Hk).
    apply resolve_one_spec in H1 as [Hother _]. by apply Hother.
Qed.

Lemma precedes_elem (R T : string) (keys : list string) :
  precedes R T keys = true → R ∈ keys.
Proof.
  induction keys as [|k keys IH]; cbn [precedes]; [discriminate|].
  destruct (String.eqb k T); [discriminate|].
  destruct (String.eqb k R) eqn:HR.
  - apply String.eqb_eq in HR as ->. intros _. left.
  - intros H. right. by apply IH.
Qed.

(** What the pass leaves under a key: the tenant as parsed when it names no
    reference, and otherwise the tenant completed from its reference as
    that reference stood when the key was reached. *)
Lemma resolve_keys_at (keys : list string) :
  ∀ users users' T t,
    resolve_keys keys users = inr users' →
    NoDup keys → T ∈ keys → odict_get T users = Some t →
    if str_truthy (user_reference t)
    then ∃ x, odict_get T users' = Some (_apply_reference t x) ∧
              Some x = if precedes (user_reference t) T keys
                       then odict_get (user_reference t) users'
                       else odict_get (user_reference t) users
    else odict_get T users' = Some t.
Proof.
  induction keys as [|k keys IH]; intros users users' T t Hrun Hnd HT Ht.
  - by apply elem_of_nil in HT.
  - cbn [resolve_keys] in Hrun.
    destruct (resolve_one users k) as [e|users1] eqn:H1; [discriminate|].
    cbn [bind_result] in Hrun.
    apply NoDup_cons in Hnd as [Hk Hnd].
    pose proof (resolve_one_spec _ _ _ H1) as [Hother Hat].
    cbn [precedes]. destruct (String.eqb k T) eqn:HkT.
    + apply String.eqb_eq in HkT as ->.
      rewrite (resolve_keys_other _ _ _ _ Hrun Hk).
      specialize (Hat t Ht). destruct (str_truthy (user_reference t)); [|done].
      destruct Hat as (x & Hx & Hset). exists x. by split.
    + apply String.eqb_neq in HkT.
      apply elem_of_cons in HT as [->|HT]; [done|].
      assert (Ht1 : odict_get T users1 = Some t)
        by (rewrite Hother; [done|congruence]).
      specialize (IH _ _ _ _ Hrun Hnd HT Ht1).
      destruct (str_truthy (user_reference t)); [|done].
      destruct IH as (x & Hset & Hx). exists x. split; [done|].
      set (R := user_reference t) in *.
      destruct (String.eqb k R) eqn:HkR.
      * apply String.eqb_eq in HkR.
        destruct (precedes R T keys) eqn:Hp.
        -- apply precedes_elem in Hp. rewrite <- HkR in Hp. done.
        -- rewrite Hx, <- HkR. symmetry. by eapply resolve_keys_other.
      * apply String.eqb_neq in HkR.
        destruct (precedes R T keys); [done|].
        rewrite Hx. apply Hother. congruence.
Qed.

Lemma apply_reference_service_proj
    (proj : ServiceConfig → gmap string JValue) (t : ServiceConfig)
    (ref_svc : option ServiceConfig) :
  proj = svc_naming ∨ proj = svc_media_management →
  ∃ t', apply_reference_service (Some t) ref_svc = Some t' ∧
        proj t' = match ref_svc with
                  | Some r => if dict_truthy (proj t) then proj t else proj r
                  | None => proj t
                  end.
Proof.
  intros Hproj. destruct ref_svc as [r|]; [|by exists t].
  cbn [apply_reference_service]. eexists. split; [reflexivity|].
  destruct Hproj as [-> | ->]; cbn [svc_naming svc_media_management].
  - destruct (dict_truthy (svc_naming t)); reflexivity.
  - destruct (dict_truthy (svc_media_management t)); reflexivity.
Qed.

(** The resolved overrides of a tenant that has the service block: they
    exist, they are the declared ones when those are not empty, and they
    are the declared ones when the tenant names no reference. *)
Lemma resolved_overrides_of_declared
    (proj : ServiceConfig → gmap string JValue) (f : Family)
    (users users' : list (string * UserState)) (K : string) (u : UserState)
    (us : ServiceConfig) :
  proj = svc_naming ∨ proj = svc_media_management →
  NoDup (odict_keys users) →
  resolve_references users = inr users' →
  odict_get K users = Some u →
  user_service f u = Some us →
  ∃ m, overrides_of proj f users' K = Some m ∧
       (proj us ≠ ∅ → m = proj us) ∧
       (str_truthy (user_reference u) = false → m = proj us).
Proof.
  intros Hproj Hnd Hrun Hu Hus.
  pose proof (resolve_keys_at _ _ _ _ _ Hrun Hnd (odict_get_Some_key _ _ _ Hu) Hu)
    as Hat.
  unfold overrides_of. destruct (str_truthy (user_reference u)).
  - destruct Hat as (x & -> & _). rewrite apply_reference_service_of, Hus.
    destruct (apply_reference_service_proj proj us (user_service f x) Hproj)
      as (t' & -> & Ht').
    exists (proj t'). split; [done|]. split; [|done].
    intros Hne. rewrite Ht'. destruct (user_service f x); [|done].
    apply dict_truthy_true in Hne. by rewrite Hne.
  - rewrite Hat, Hus. exists (proj us). by repeat split.
Qed.

(** C3, as the code has it. The reference pass walks the tenants once, in
    document order, completing each in place.  For a tenant T naming R,
    both with the service block: overrides T declared stay as declared;
    with none declared, T receives R's map as it stands when T is reached,
    that is R's resolved map when R comes before T in the document (so
    what R itself inherited is passed on), and R's declared map otherwise.
    Hence T's resolved map equals R's resolved map whenever R comes first,
    R is T, R names no reference, or R declared a non-empty map.  The same
    holds for naming and for media management. *)
Theorem reference_copy_follows_document_order
    (proj : ServiceConfig → gmap string JValue) (f : Family)
    (users users' : list (string * UserState)) (T : string)
    (t r : UserState) (ts rs : ServiceConfig) :
  proj = svc_naming ∨ proj = svc_media_management →
  NoDup (odict_keys users) →
  resolve_references users = inr users' →
  odict_get T users = Some t →
  str_truthy (user_reference t) = true →
  odict_get (user_reference t) users = Some r →
  user_service f t = Some ts →
  user_service f r = Some rs →
  let R := user_reference t in
  (proj ts ≠ ∅ → overrides_of proj f users' T = Some (proj ts)) ∧
  (proj ts = ∅ →
   overrides_of proj f users' T =
     if precedes R T (odict_keys users)
     then overrides_of proj f users' R
     else Some (proj rs)) ∧
  (proj ts = ∅ →
   precedes R T (odict_keys users) = true ∨ R = T ∨
   str_truthy (user_reference r) = false ∨ proj rs ≠ ∅ →
   overrides_of proj f users' T = overrides_of proj f users' R).
Proof.
  intros Hproj Hnd Hrun Ht Href Hr Hts Hrs R.
  destruct (resolved_overrides_of_declared proj f users users' T t ts
              Hproj Hnd Hrun Ht Hts) as (mT & HmT & HTdecl & _).
  destruct (resolved_overrides_of_declared proj f users users' R r rs
              Hproj Hnd Hrun Hr Hrs) as (mR & HmR & HRdecl & HRnoref).
  assert (Hempty : proj ts = ∅ →
            overrides_of proj f users' T =
              if precedes R T (odict_keys users)
              then overrides_of proj f users' R
              else Some (proj rs)).
  { intros He.
    pose proof (resolve_keys_at _ _ _ _ _ Hrun Hnd
                  (odict_get_Some_key _ _ _ Ht) Ht) as Hat.
    rewrite Href in Hat. destruct Hat as (x & HT' & Hx). fold R in Hx.
    unfold overrides_of at 1. rewrite HT', apply_reference_service_of, Hts.
    destruct (apply_reference_service_proj proj ts (user_service f x) Hproj)
      as (t' & -> & Ht').
    cbn [fmap option_fmap option_map]. rewrite Ht'.
    apply dict_truthy_false in He. rewrite He.
    destruct (precedes R T (odict_keys users)).
    - unfold overrides_of in HmR |- *. rewrite <- Hx in HmR |- *.
      destruct (user_service f x) as [xs|]; [done|discriminate].
    - unfold R in Hx. rewrite Hr in Hx. injection Hx as ->. by rewrite Hrs. }
  split; [|split].
  - intros Hne. rewrite HmT. f_equal. by apply HTdecl.
  - exact Hempty.
  - intros He Hcase. rewrite (Hempty He).
    destruct (precedes R T (odict_keys users)) eqn:Hp; [done|].
    destruct Hcase as [Hc|[Hc|[Hc|Hc]]].
    + discriminate.
    + transitivity (overrides_of proj f users' T); [|by rewrite <- Hc].
      symmetry. apply (Hempty He).
    + rewrite HmR. f_equal. symmetry. by apply HRnoref.
    + rewrite HmR. f_equal. symmetry. by apply HRdecl.
Qed.

(** ** Dangling references *)

Lemma resolve_one_refs_agree (users users' : list (string * UserState))
    (k : string) :
  resolve_one users k = inr users' → refs_agree users users'.
Proof.
  unfold resolve_one, refs_agree.
  destruct (odict_get k users) as [u|] eqn:Hu; [|by intros [= <-]].
  destruct (str_truthy (user_reference u)); [|by intros [= <-]].
  destruct (odict_get (user_reference u) users) as [x|]; [|discriminate].
  intros [= <-] k'. destruct (decide (k = k')) as [<-|Hne].
  - by rewrite odict_get_set_eq, Hu.
  - by rewrite odict_get_set_ne.
Qed.

Lemma refs_agree_trans (a b c : list (string * UserState)) :
  refs_agree a b → refs_agree b c → refs_agree a c.
Proof. intros H1 H2 k. by rewrite H1. Qed.

Lemma resolve_keys_dangling (users : list (string * UserState))
    (T R : string) (keys : list string) :
  dangling users T R →
  ∀ st, refs_agree users st → T ∈ keys →
        ∃ T' R', resolve_keys keys st =
                   inl (ValueError (dangling_message T' R')) ∧
                 T' ∈ keys ∧ dangling users T' R'.
Proof.
  intros (u & Hu & HR & Htruthy & Hnone).
  induction keys as [|k keys IH]; intros st Hagree HT.
  - by apply elem_of_nil in HT.
  - cbn [resolve_keys].
    destruct (resolve_one st k) as [e|st1] eqn:H1.
    + exists k. unfold resolve_one in H1.
      destruct (odict_get k st) as [uk|] eqn:Huk; [|discriminate].
      destruct (str_truthy (user_reference uk)) eqn:Hrk; [|discriminate].
      destruct (odict_get (user_reference uk) st) as [x|] eqn:Hx;
        [discriminate|].
      injection H1 as <-. exists (user_reference uk).
      split; [reflexivity|]. split; [left|].
      pose proof (Hagree k) as Hk. rewrite Huk in Hk.
      destruct (odict_get k users) as [u0|] eqn:Hu0; [|discriminate].
      injection Hk as Hk. exists u0.
      split; [exact Hu0|]. split; [exact Hk|]. split; [exact Hrk|].
      pose proof (Hagree (user_reference uk)) as Hr. rewrite Hx in Hr.
      by destruct (odict_get (user_reference uk) users).
    + cbn [bind_result].
      assert (Hagree1 : refs_agree users st1)
        by (eapply refs_agree_trans; [done|by eapply resolve_one_refs_agree]).
      assert (HT' : T ∈ keys).
      { apply elem_of_cons in HT as [->|HT]; [|done]. exfalso.
        pose proof (Hagree k) as Hk. rewrite Hu in Hk.
        unfold resolve_one in H1.
        destruct (odict_get k st) as [uk|] eqn:Huk; [|discriminate].
        injection Hk as Hk. rewrite <- Hk, HR, Htruthy in H1.
        pose proof (Hagree R) as Hr. rewrite Hnone in Hr.
        destruct (odict_get R st); discriminate. }
      destruct (IH st1 Hagree1 HT') as (T' & R' & Hfail & Hin & Hd).
      exists T', R'. split; [done|]. split; [by right|done].
Qed.

Section parse_facts.
Variable extract_api_key : string → result string.

Lemma parse_user_reference username udata u :
  parse_user extract_api_key username udata = inr u →
  user_reference u = default EmptyString (raw_reference udata).
Proof.
  unfold parse_user.
  destruct (_parse_seedr _) as [e|seedr]; [discriminate|]. cbn [bind_result].
  destruct (_resolve_api_key _ (_parse_service (raw_radarr udata)))
    as [e|radarr]; [discriminate|]. cbn [bind_result].
  destruct (_resolve_api_key _ (_parse_service (raw_sonarr udata)))
    as [e|sonarr]; [discriminate|]. cbn [bind_result].
  by intros [= <-].
Qed.

Lemma parse_users_other (users_raw : list (string * RawUser)) :
  ∀ acc users k,
    parse_users extract_api_key users_raw acc = inr users →
    k ∉ users_raw.*1 → odict_get k users = odict_get k acc.
Proof.
  induction users_raw as [|[username udata] rest IH]; intros acc users k;
    cbn [parse_users fmap list_fmap fst].
  - by intros [= <-].
  - destruct (parse_user _ _ _) as [e|user]; [discriminate|].
    cbn [bind_result]. intros Hrest Hk.
    apply not_elem_of_cons in Hk as [Hne Hk].
    rewrite (IH _ _ _ Hrest Hk). by apply odict_get_set_ne.
Qed.

Lemma parse_users_entry (users_raw : list (string * RawUser)) :
  ∀ acc users T udata,
    parse_users extract_api_key users_raw acc = inr users →
    NoDup users_raw.*1 → (T, udata) ∈ users_raw →
    ∃ u, odict_get T users = Some u ∧
         user_reference u = default EmptyString (raw_reference udata).
Proof.
  induction users_raw as [|[username ud] rest IH]; intros acc users T udata;
    cbn [parse_users fmap list_fmap fst].
  - intros _ _ H. by apply elem_of_nil in H.
  - destruct (parse_user _ _ _) as [e|user] eqn:Huser; [discriminate|].
    cbn [bind_result]. intros Hrest Hnd Hin.
    apply NoDup_cons in Hnd as [Hnot Hnd].
    apply elem_of_cons in Hin as [[= -> ->]|Hin].
    + exists user. split; [|by eapply parse_user_reference].
      rewrite (parse_users_other _ _ _ _ Hrest Hnot). apply odict_get_set_eq.
    + by eapply IH.
Qed.

Lemma parse_users_keys (users_raw : list (string * RawUser)) :
  ∀ acc users,
    parse_users extract_api_key users_raw acc = inr users →
    NoDup users_raw.*1 →
    (∀ k, k ∈ users_raw.*1 → odict_get k acc = None) →
    odict_keys users = odict_keys acc ++ users_raw.*1.
Proof.
  induction users_raw as [|[username ud] rest IH]; intros acc users;
    cbn [parse_users fmap list_fmap fst].
  - intros [= <-] _ _. by rewrite app_nil_r.
  - destruct (parse_user _ _ _) as [e|user]; [discriminate|].
    cbn [bind_result]. intros Hrest Hnd Hfresh.
    apply NoDup_cons in Hnd as [Hnot Hnd].
    rewrite (IH _ _ Hrest Hnd).
    + rewrite odict_keys_set_new by (apply Hfresh; left).
      by rewrite <- app_assoc.
    + intros k Hk. rewrite odict_get_set_ne by (intros ->; done).
      apply Hfresh. by right.
Qed.
End parse_facts.

(** C9. When a declared tenant names a reference that the document does
    not define, [resolve_state] raises; if the document got through the
    first pass, what it raises is the [ValueError] that names a tenant and
    its undefined reference.  The [plan] and [apply] commands then write
    "Error loading config: ..." and exit with status 1: whatever the
    services would answer, nothing is validated, fetched, asked or run,
    and the world is as it was. *)
Theorem dangling_reference_aborts
    (load_yaml : string → result RawDoc)
    (extract_api_key : string → result string)
    (config_path : string) (raw : RawDoc) (T R : string) (udata : RawUser) :
  load_yaml config_path = inr raw →
  NoDup (default [] (raw_users raw)).*1 →
  (T, udata) ∈ default [] (raw_users raw) →
  raw_reference udata = Some R →
  str_truthy R = true →
  R ∉ (default [] (raw_users raw)).*1 →
  ∃ e,
    resolve_state load_yaml extract_api_key config_path = inl e ∧
    (∀ p users,
       parse_prowlarr extract_api_key raw = inr p →
       parse_users extract_api_key (default [] (raw_users raw)) [] = inr users →
       ∃ T' R', e = ValueError (dangling_message T' R') ∧ dangling users T' R') ∧
    ∀ (validate_credentials : string → string → Outcome)
      (fetch : ArrClient → ArrLive)
      (fetch_applications : ProwlarrClient → list ProwlarrApp)
      (set_order : list string → list string)
      (recyclarr_file : string → RecyclarrFile)
      (World : Type) (run_op : Op → World → World * Outcome)
      (trigger : ProwlarrClient → World → World * Outcome)
      (confirm_answer : ConfirmAnswer) (dry_run : bool) (user : option string)
      (w : World),
      plan_command load_yaml extract_api_key validate_credentials fetch
        fetch_applications set_order recyclarr_file World config_path user w =
        mkRun [Stderr ("Error loading config: " +:+ py_str e)] (SysExit 1) w ∧
      apply_command load_yaml extract_api_key validate_credentials fetch
        fetch_applications set_order recyclarr_file World run_op trigger
        confirm_answer config_path user dry_run w =
        mkRun [Stderr ("Error loading config: " +:+ py_str e)] (SysExit 1) w.
Proof.
  intros Hload Hnd Hin Href Htruthy Hmissing.
  set (users_raw := default [] (raw_users raw)) in *.
  assert (Hpass2 : ∀ users,
    parse_users extract_api_key users_raw [] = inr users →
    ∃ T' R', resolve_references users =
               inl (ValueError (dangling_message T' R')) ∧
             dangling users T' R').
  { intros users Hparse.
    destruct (parse_users_entry _ _ _ _ _ _ Hparse Hnd Hin) as (u & Hu & Hru).
    rewrite Href in Hru. cbn [default] in Hru.
    assert (Hd : dangling users T R).
    { exists u. repeat split; try done.
      by rewrite (parse_users_other _ _ _ _ _ Hparse Hmissing). }
    destruct (resolve_keys_dangling users T R (odict_keys users) Hd users)
      as (T' & R' & Hfail & _ & Hd').
    - done.
    - by eapply odict_get_Some_key.
    - exists T', R'. by split. }
  assert (Hres : ∃ e,
    resolve_state load_yaml extract_api_key config_path = inl e ∧
    (∀ p users,
       parse_prowlarr extract_api_key raw = inr p →
       parse_users extract_api_key users_raw [] = inr users →
       ∃ T' R', e = ValueError (dangling_message T' R') ∧ dangling users T' R')).
  { unfold resolve_state. rewrite Hload. cbn [bind_result].
    destruct (parse_prowlarr extract_api_key raw) as [e|p] eqn:Hp.
    - exists e. split; [done|]. intros ? ? [=].
    - cbn [bind_result]. fold users_raw.
      destruct (parse_users extract_api_key users_raw []) as [e|users] eqn:Hu.
      + exists e. split; [done|]. intros ? ? _ [=].
      + cbn [bind_result].
        destruct (Hpass2 users eq_refl) as (T' & R' & Hfail & Hd).
        rewrite Hfail. cbn [bind_result]. eexists. split; [reflexivity|].
        intros p' users' _ [= <-]. by exists T', R'. }
  destruct Hres as (e & Hfail & Hkind). exists e.
  split; [done|]. split; [done|].
  intros validate_credentials fetch fetch_applications set_order recyclarr_file
    World run_op trigger confirm_answer dry_run user w.
  assert (Hplan :
    plan_command load_yaml extract_api_key validate_credentials fetch
      fetch_applications set_order recyclarr_file World config_path user w =
    mkRun [Stderr ("Error loading config: " +:+ py_str e)] (SysExit 1) w).
  { unfold plan_command, load_and_validate. by rewrite Hfail. }
  split; [exact Hplan|].
  unfold apply_command. destruct dry_run; [exact Hplan|].
  unfold load_and_validate. by rewrite Hfail.
Qed.

(** The first pass yields a dictionary with one entry per declared tenant,
    in document order; in particular its keys are distinct. *)
Lemma parse_users_NoDup (extract_api_key : string → result string)
    (users_raw : list (string * RawUser)) (users : list (string * UserState)) :
  parse_users extract_api_key users_raw [] = inr users →
  NoDup users_raw.*1 → NoDup (odict_keys users).
Proof.
  intros Hparse Hnd.
  rewrite (parse_users_keys _ _ _ _ Hparse Hnd); [done|]. by intros.
Qed.

(** ** Worked examples *)

Lemma plan_root_folders_order_witness :
  (∀ l : list string, NoDup (remove_dups l)) ∧
  (∀ (l : list string) x, x ∈ remove_dups l ↔ x ∈ l) ∧
  plan_root_folders example_fetch remove_dups example_target
    ["/movies"; "/movies-4k"] =
  [mkAction NOOP "Root folder" (quoted "/movies") "exists" None [];
   mkAction CREATE "Root folder" (quoted "/movies-4k") "will be created"
     (Some (Op_create_root_folder example_target "/movies-4k")) [];
   mkAction WARNING "Root folder" (quoted "/old")
     "exists in API but not in YAML (not removing)" None []].
Proof.
  split; [intros l; apply NoDup_remove_dups|].
  split; [intros l x; apply elem_of_remove_dups|].
  apply (proj2 (plan_root_folders_order example_fetch remove_dups
                  example_target []
                  (fun l => NoDup_remove_dups l)
                  (fun l x => elem_of_remove_dups l x)) 1%Z 2%Z).
  reflexivity.
Defined.

(** The sequence the scenario of the design document expects is not the
    one planned: the declared paths come out in declared order. *)
Lemma scenario_sequence_refuted :
  map (fun a => (action_type a, action_name a))
      (plan_root_folders example_fetch remove_dups example_target
         ["/movies"; "/movies-4k"]) ≠
  [(CREATE, quoted "/movies-4k"); (NOOP, quoted "/movies");
   (WARNING, quoted "/old")].
Proof. vm_compute. discriminate. Qed.

Lemma chain_forward_resolves :
  resolve_references chain_forward = inr chain_forward_resolved.
Proof. reflexivity. Qed.

Lemma chain_backward_resolves :
  resolve_references chain_backward = inr chain_backward_resolved.
Proof. reflexivity. Qed.

Lemma example_naming_nonempty : example_naming ≠ ∅.
Proof.
  intros H. apply (f_equal (fun m => m !! "rename_movies")) in H.
  vm_compute in H. discriminate.
Qed.

(** With A -> B -> C declared in that order, A (which declares nothing)
    ends with an empty map while B, its reference, ends with C's map: the
    copy is not "T's resolved map equals R's resolved map".  Declared as
    B, A, C, A ends with C's map, which B never declared: the copy is not
    one-hop either. *)
Lemma one_hop_copy_refuted :
  ¬ (∀ (users users' : list (string * UserState)) (T : string)
       (t r : UserState) (ts rs : ServiceConfig),
       NoDup (odict_keys users) →
       resolve_references users = inr users' →
       odict_get T users = Some t →
       str_truthy (user_reference t) = true →
       odict_get (user_reference t) users = Some r →
       user_service Radarr t = Some ts →
       user_service Radarr r = Some rs →
       svc_naming ts = ∅ →
       overrides_of svc_naming Radarr users' T =
       overrides_of svc_naming Radarr users' (user_reference t)) ∧
  overrides_of svc_naming Radarr chain_backward "B" = Some ∅ ∧
  overrides_of svc_naming Radarr chain_backward_resolved "A" =
    overrides_of svc_naming Radarr chain_backward "C".
Proof.
  split; [|split; reflexivity].
  intros H.
  specialize (H chain_forward chain_forward_resolved "A"
                (example_user "A" "B" ∅) (example_user "B" "C" ∅)
                (example_service ∅) (example_service ∅)).
  assert (Hbad : overrides_of svc_naming Radarr chain_forward_resolved "A" =
                 overrides_of svc_naming Radarr chain_forward_resolved "B").
  { apply H; try reflexivity. decide_by_computing. }
  change (Some (∅ : gmap string JValue) = Some example_naming) in Hbad.
  injection Hbad as Hbad. symmetry in Hbad. by apply example_naming_nonempty.
Qed.

Lemma reference_copy_follows_document_order_witness :
  NoDup (odict_keys chain_backward) ∧
  resolve_references chain_backward = inr chain_backward_resolved ∧
  overrides_of svc_naming Radarr chain_backward_resolved "A" =
  overrides_of svc_naming Radarr chain_backward_resolved "B".
Proof.
  assert (Hnd : NoDup (odict_keys chain_backward)) by decide_by_computing.
  split; [exact Hnd|]. split; [reflexivity|].
  apply (proj2 (proj2 (reference_copy_follows_document_order
                         svc_naming Radarr chain_backward
                         chain_backward_resolved "A"
                         (example_user "A" "B" ∅) (example_user "B" "C" ∅)
                         (example_service ∅) (example_service ∅)
                         (or_introl eq_refl) Hnd eq_refl eq_refl eq_refl
                         eq_refl eq_refl eq_refl)) eq_refl).
  left. reflexivity.
Defined.

Lemma quality_profiles_one_action_witness :
  (∃ p, p ∈ live_quality_profiles example_reference_live ∧
        qp_name p ∉ map qp_name (live_quality_profiles example_target_live)) ∧
  action_type (plan_quality_profiles example_fetch example_target
                 example_reference "bob" ∅) = CREATE.
Proof.
  assert (Hmissing :
    ∃ p, p ∈ live_quality_profiles (example_fetch example_reference) ∧
         qp_name p ∉ map qp_name
                       (live_quality_profiles (example_fetch example_target))).
  { exists (mkQualityProfile 4 "Ultra-HD" ∅).
    split; [member_by_computing|decide_by_computing]. }
  split; [exact Hmissing|].
  rewrite (proj1 (proj2 (quality_profiles_one_action example_fetch
                           example_target example_reference "bob"
                           (example_service ∅) ∅)) Hmissing).
  reflexivity.
Defined.

Lemma custom_format_id_map_witness :
  (plan_custom_formats example_fetch example_target example_reference "bob").2
    !! 1%Z = Some 11%Z.
Proof.
  apply (proj1 (proj2 (custom_format_id_map example_fetch example_target
                         example_reference "bob"))
           ltac:(decide_by_computing) ltac:(decide_by_computing)
           (mkCustomFormat 1 "x265" ∅) (mkCustomFormat 11 "x265" ∅)).
  - member_by_computing.
  - member_by_computing.
  - reflexivity.
Defined.

Lemma plan_service_skips_reference_sync_witness :
  odict_get "bob" (state_users example_state) =
    Some (mkUserState "bob" None None None EmptyString true EmptyString) ∧
  plan_service example_fetch remove_dups Radarr (example_service ∅) None
    (mkUserState "alice" None (Some (example_service ∅)) None EmptyString false
       "bob")
    example_state =
  inr (mkServicePlan "Radarr" "http://radarr:7878/" []).
Proof.
  split; [reflexivity|].
  apply (plan_service_skips_reference_sync example_fetch remove_dups Radarr
           (example_service ∅) None
           (mkUserState "alice" None (Some (example_service ∅)) None
              EmptyString false "bob")
           example_state).
  right. eexists. split; reflexivity.
Defined.

Lemma dangling_reference_aborts_witness :
  resolve_state example_load_yaml example_extract "arr-state.yml" =
  inl (ValueError "User 'alice' references 'bob' which is not defined").
Proof.
  destruct (dangling_reference_aborts example_load_yaml example_extract
              "arr-state.yml" example_doc "alice" "bob"
              (example_raw_user (Some "bob")) eq_refl
              ltac:(decide_by_computing) ltac:(member_by_computing)
              eq_refl eq_refl ltac:(decide_by_computing))
    as (e & He & _).
  rewrite He. pose proof He as Hrun. vm_compute in Hrun.
  injection Hrun as <-. reflexivity.
Defined.

Lemma summary_ignores_warnings_witness :
  Forall (fun a => action_type a = WARNING)
         (natural_order warning_only_plan) ∧
  summary warning_only_plan = (0, 0, 0)%nat.
Proof.
  assert (Hall : Forall (fun a => action_type a = WARNING)
                        (natural_order warning_only_plan))
    by (repeat constructor).
  split; [exact Hall|].
  exact (proj1 (proj2 (proj2 (summary_ignores_warnings warning_only_plan))
                  Hall)).
Defined.

(** ** Scraping the key out of config.xml *)

Lemma string_app_cons (x : Ascii.ascii) (a b : string) :
  String x a +:+ b = String x (a +:+ b).
Proof. reflexivity. Qed.

Lemma string_app_nil (b : string) : EmptyString +:+ b = b.
Proof. reflexivity. Qed.

Lemma string_app_assoc (a b c : string) : (a +:+ b) +:+ c = a +:+ (b +:+ c).
Proof.
  induction a as [|x a IH]; [done|]. rewrite !string_app_cons. by f_equal.
Qed.

Lemma strip_prefix_Some (p : string) :
  ∀ s r, strip_prefix p s = Some r → s = p +:+ r.
Proof.
  induction p as [|a p IH]; intros s r; cbn [strip_prefix].
  - by intros [= ->].
  - destruct s as [|b s]; [discriminate|].
    destruct (Ascii.eqb a b) eqn:Hab; [|discriminate].
    apply Ascii.eqb_eq in Hab as ->. intros H. rewrite string_app_cons.
    f_equal. by apply IH.
Qed.

Lemma strip_prefix_app (p r : string) : strip_prefix p (p +:+ r) = Some r.
Proof.
  induction p as [|a p IH]; [done|].
  rewrite string_app_cons. cbn [strip_prefix]. by rewrite Ascii.eqb_refl.
Qed.

Lemma span_not_lt_spec (s : string) :
  ∀ run rest,
    span_not_lt s = (run, rest) →
    s = run +:+ rest ∧ lt_free run = true ∧
    (rest = EmptyString ∨ ∃ rest', rest = String lt_char rest').
Proof.
  induction s as [|c s IH]; intros run rest; cbn [span_not_lt].
  - intros [= <- <-]. split; [done|]. split; [done|]. by left.
  - destruct (Ascii.eqb c lt_char) eqn:Hc.
    + apply Ascii.eqb_eq in Hc as ->. intros [= <- <-].
      split; [done|]. split; [done|]. right. by eexists.
    + destruct (span_not_lt s) as [run' rest'] eqn:Hs. intros [= <- <-].
      destruct (IH _ _ eq_refl) as (-> & Hfree & Hrest).
      split; [by rewrite string_app_cons|]. split; [|done].
      cbn [lt_free]. by rewrite Hc.
Qed.

Lemma span_not_lt_app (s tail : string) :
  span_not_lt (s +:+ String lt_char tail) =
  ((span_not_lt s).1, (span_not_lt s).2 +:+ String lt_char tail).
Proof.
  induction s as [|c s IH].
  - rewrite string_app_nil. cbn [span_not_lt]. by rewrite Ascii.eqb_refl.
  - rewrite string_app_cons. cbn [span_not_lt].
    destruct (Ascii.eqb c lt_char); [done|].
    rewrite IH. by destruct (span_not_lt s).
Qed.

Lemma span_not_lt_free (key tail : string) :
  lt_free key = true →
  span_not_lt (key +:+ String lt_char tail) = (key, String lt_char tail).
Proof.
  induction key as [|c key IH]; cbn [lt_free].
  - intros _. rewrite string_app_nil. cbn [span_not_lt].
    by rewrite Ascii.eqb_refl.
  - intros [Hc Hfree]%andb_true_iff. apply negb_true_iff in Hc.
    rewrite string_app_cons. cbn [span_not_lt].
    rewrite Hc, (IH Hfree). reflexivity.
Qed.

(** A tag whose only [<] is its first character cannot be completed by
    text that starts with [<]. *)
Lemma strip_prefix_tail_None (t : string) :
  ∀ p tail,
    lt_free t = true → strip_prefix t p = None →
    strip_prefix t (p +:+ String lt_char tail) = None.
Proof.
  induction t as [|a t IH]; intros p tail; cbn [lt_free strip_prefix];
    [discriminate|].
  intros [Ha Hfree]%andb_true_iff Hnone. apply negb_true_iff in Ha.
  destruct p as [|b p].
  - rewrite string_app_nil. cbn [strip_prefix]. by rewrite Ha.
  - rewrite string_app_cons. cbn [strip_prefix] in Hnone |- *.
    destruct (Ascii.eqb a b); [by apply IH|done].
Qed.

Lemma strip_tag_tail_None (a : Ascii.ascii) (t p tail : string) :
  lt_free t = true → p ≠ EmptyString →
  strip_prefix (String a t) p = None →
  strip_prefix (String a t) (p +:+ String lt_char tail) = None.
Proof.
  intros Hfree Hp. destruct p as [|b p]; [done|].
  rewrite string_app_cons. cbn [strip_prefix].
  destruct (Ascii.eqb a b); [|done]. by apply strip_prefix_tail_None.
Qed.

Lemma match_api_key_here_sound (s key : string) :
  match_api_key_here s = Some key →
  str_truthy key = true ∧ lt_free key = true ∧
  ∃ post, s = "<ApiKey>" +:+ key +:+ "</ApiKey>" +:+ post.
Proof.
  unfold match_api_key_here.
  destruct (strip_prefix "<ApiKey>" s) as [after|] eqn:Hopen; [|discriminate].
  destruct (span_not_lt after) as [run rest] eqn:Hspan.
  destruct (str_truthy run) eqn:Hrun; [|discriminate].
  destruct (strip_prefix "</ApiKey>" rest) as [post|] eqn:Hclose;
    [|discriminate].
  intros [= <-].
  apply strip_prefix_Some in Hopen as ->.
  apply span_not_lt_spec in Hspan as (-> & Hfree & _).
  apply strip_prefix_Some in Hclose as ->.
  split; [done|]. split; [done|]. by exists post.
Qed.

Lemma match_api_key_here_extends (p tail : string) :
  p ≠ EmptyString →
  match_api_key_here p = None →
  match_api_key_here (p +:+ "<ApiKey>" +:+ tail) = None.
Proof.
  intros Hp. unfold match_api_key_here.
  change ("<ApiKey>" +:+ tail) with (String lt_char ("ApiKey>" +:+ tail)).
  destruct (strip_prefix "<ApiKey>" p) as [after|] eqn:Hopen.
  - apply strip_prefix_Some in Hopen as ->.
    rewrite string_app_assoc, strip_prefix_app, span_not_lt_app.
    destruct (span_not_lt after) as [run rest] eqn:Hspan. cbn [fst snd].
    destruct (str_truthy run); [|done].
    destruct (strip_prefix "</ApiKey>" rest) as [post|] eqn:Hclose;
      [discriminate|]. intros _.
    destruct rest as [|c rest]; [done|].
    rewrite (strip_tag_tail_None _ _ (String c rest)); done.
  - intros _. rewrite (strip_tag_tail_None _ _ p); done.
Qed.

Lemma search_api_key_found (s key : string) :
  search_api_key s = Some key →
  str_truthy key = true ∧ lt_free key = true ∧
  ∃ pre post, s = pre +:+ "<ApiKey>" +:+ key +:+ "</ApiKey>" +:+ post.
Proof.
  induction s as [|c s IH]; cbn [search_api_key].
  - destruct (match_api_key_here EmptyString) eqn:H; [|discriminate].
    intros [= ->]. apply match_api_key_here_sound in H as (? & ? & post & ?).
    split; [done|]. split; [done|]. by exists EmptyString, post.
  - destruct (match_api_key_here (String c s)) as [k|] eqn:H.
    + intros [= ->]. apply match_api_key_here_sound in H as (? & ? & post & ?).
      split; [done|]. split; [done|]. by exists EmptyString, post.
    + intros Hs. destruct (IH Hs) as (? & ? & pre & post & ->).
      split; [done|]. split; [done|]. by exists (String c pre), post.
Qed.

Lemma docker_extract_inr (docker_exec : string → DockerRun)
    (container key : string) :
  _docker_extract docker_exec container = inr key →
  ∃ stdout stderr,
    docker_exec container = DockerExited 0 stdout stderr ∧
    search_api_key stdout = Some key.
Proof.
  unfold _docker_extract.
  destruct (docker_exec container) as [| |rc out err]; try discriminate.
  destruct (rc =? 0)%Z eqn:Hrc; cbn [negb]; [|discriminate].
  apply Z.eqb_eq in Hrc as ->.
  destruct (search_api_key out) as [k|] eqn:Hk; [|discriminate].
  intros [= <-]. by exists out, err.
Qed.

Lemma docker_extract_truthy (docker_exec : string → DockerRun)
    (container key : string) :
  _docker_extract docker_exec container = inr key → str_truthy key = true.
Proof.
  intros (out & err & _ & Hk)%docker_extract_inr.
  by apply search_api_key_found in Hk as [? _].
Qed.

(** X1. [_docker_extract] returns a key only when [docker exec] exited
    with status 0, and the key is then a non-empty text without [<] that
    stands in the output between an opening and a closing ApiKey tag;
    every other outcome is a [RuntimeError]. *)
Theorem docker_extract_key (docker_exec : string → DockerRun)
    (container : string) :
  match _docker_extract docker_exec container with
  | inr key =>
      str_truthy key = true ∧ lt_free key = true ∧
      ∃ pre post stderr,
        docker_exec container =
          DockerExited 0
            (pre +:+ "<ApiKey>" +:+ key +:+ "</ApiKey>" +:+ post) stderr
  | inl e => ∃ msg, e = RuntimeError msg
  end.
Proof.
  destruct (_docker_extract docker_exec container) as [e|key] eqn:Hrun.
  - unfold _docker_extract in Hrun.
    destruct (docker_exec container) as [| |rc out err].
    + injection Hrun as <-. by eexists.
    + injection Hrun as <-. by eexists.
    + destruct (negb (rc =? 0)%Z); [injection Hrun as <-; by eexists|].
      destruct (search_api_key out); [discriminate|].
      injection Hrun as <-. by eexists.
  - destruct (docker_extract_inr _ _ _ Hrun) as (out & err & Hd & Hk).
    apply search_api_key_found in Hk as (Ht & Hf & pre & post & ->).
    split; [done|]. split; [done|]. by exists pre, post, err.
Qed.

(** X2. The search finds a well-formed ApiKey element behind any text
    that holds no complete element itself: it returns the key of the first
    element of the file. *)
Theorem search_api_key_first (pre key post : string) :
  search_api_key pre = None →
  str_truthy key = true →
  lt_free key = true →
  search_api_key (pre +:+ "<ApiKey>" +:+ key +:+ "</ApiKey>" +:+ post) =
  Some key.
Proof.
  intros Hpre Hkey Hfree.
  assert (Hhere : match_api_key_here
                    ("<ApiKey>" +:+ key +:+ "</ApiKey>" +:+ post) = Some key).
  { unfold match_api_key_here. rewrite strip_prefix_app.
    change ("</ApiKey>" +:+ post) with (String lt_char ("/ApiKey>" +:+ post)).
    rewrite (span_not_lt_free _ _ Hfree), Hkey.
    change (String lt_char ("/ApiKey>" +:+ post)) with ("</ApiKey>" +:+ post).
    by rewrite strip_prefix_app. }
  induction pre as [|c pre IH].
  - rewrite string_app_nil.
    assert (Hs : ∀ s, match_api_key_here s = Some key →
                      search_api_key s = Some key).
    { intros s Hs. destruct s; cbn [search_api_key]; by rewrite Hs. }
    by apply Hs.
  - cbn [search_api_key] in Hpre.
    destruct (match_api_key_here (String c pre)) eqn:Hc; [discriminate|].
    change (String c pre +:+ "<ApiKey>" +:+ key +:+ "</ApiKey>" +:+ post)
      with (String c (pre +:+ "<ApiKey>" +:+ key +:+ "</ApiKey>" +:+ post)).
    cbn [search_api_key].
    change (String c (pre +:+ "<ApiKey>" +:+ key +:+ "</ApiKey>" +:+ post))
      with (String c pre +:+ "<ApiKey>" +:+ (key +:+ "</ApiKey>" +:+ post)).
    rewrite match_api_key_here_extends by done.
    by apply IH.
Qed.

(** ** The key cache *)

Lemma ends_with_slash_app (d : string) : ends_with_slash (d +:+ "/") = true.
Proof.
  induction d as [|c d IH]; [reflexivity|].
  rewrite string_app_cons. cbn [ends_with_slash].
  destruct (d +:+ "/") eqn:Hd; [discriminate IH|exact IH].
Qed.

Lemma os_path_join_trailing_slash (d : string) :
  str_truthy d = true → ends_with_slash d = false →
  os_path_join (d +:+ "/") CACHE_FILE = os_path_join d CACHE_FILE.
Proof.
  intros Hd Hs. unfold os_path_join, CACHE_FILE.
  cbn [Ascii.eqb Bool.eqb Ascii.ascii_of_nat Ascii.ascii_of_pos].
  rewrite ends_with_slash_app, Hd, Hs, orb_true_r. cbn [negb orb].
  by rewrite string_app_assoc.
Qed.

Section key_cache_facts.
Variable file_of : string → string.

Lemma cached_key_saved
    (files : gmap string (gmap string (gmap string string)))
    (config_dir container key : string) :
  cached_key file_of
    (_save_cache file_of files config_dir
       (<["api_keys" :=
            <[container := key]>
              (default ∅ (_load_cache file_of files config_dir
                          !! "api_keys"))]>
          (_load_cache file_of files config_dir)))
    config_dir container = Some key.
Proof.
  unfold cached_key, _save_cache, _load_cache.
  rewrite lookup_insert_eq. cbn [from_option id]. rewrite lookup_insert_eq.
  cbn [from_option id]. apply lookup_insert_eq.
Qed.

Lemma cached_key_saved_other
    (files : gmap string (gmap string (gmap string string)))
    (config_dir container key d' c' : string) :
  cache_file file_of d' ≠ cache_file file_of config_dir ∨ c' ≠ container →
  cached_key file_of
    (_save_cache file_of files config_dir
       (<["api_keys" :=
            <[container := key]>
              (default ∅ (_load_cache file_of files config_dir
                          !! "api_keys"))]>
          (_load_cache file_of files config_dir)))
    d' c' = cached_key file_of files d' c'.
Proof.
  intros Hne. unfold cached_key, _save_cache, _load_cache.
  destruct (decide (cache_file file_of d' = cache_file file_of config_dir))
    as [Heq|Hd].
  - destruct Hne as [Hn|Hc]; [by destruct Hn|]. rewrite Heq.
    rewrite lookup_insert_eq. cbn [from_option id]. rewrite lookup_insert_eq.
    cbn [from_option id]. by rewrite lookup_insert_ne.
  - by rewrite lookup_insert_ne.
Qed.

Lemma extract_api_key_hit (docker_exec : string → DockerRun)
    (files : gmap string (gmap string (gmap string string)))
    (container config_dir key : string) :
  cached_key file_of files config_dir container = Some key →
  str_truthy key = true →
  extract_api_key_cached file_of docker_exec files container config_dir =
  (files, inr key).
Proof.
  unfold cached_key, extract_api_key_cached. intros -> ->. reflexivity.
Qed.

(** X3. Once [extract_api_key] has returned a key, that key is in the
    cache file, and a further call for the same container returns it with
    the file unchanged, whatever docker would now answer. *)
Theorem extract_api_key_cache_hit (docker_exec : string → DockerRun)
    (files files1 : gmap string (gmap string (gmap string string)))
    (container config_dir key : string) :
  extract_api_key_cached file_of docker_exec files container config_dir =
    (files1, inr key) →
  str_truthy key = true ∧
  cached_key file_of files1 config_dir container = Some key ∧
  ∀ docker_exec',
    extract_api_key_cached file_of docker_exec' files1 container config_dir =
    (files1, inr key).
Proof.
  intros Hrun.
  assert (H : str_truthy key = true ∧
              cached_key file_of files1 config_dir container = Some key).
  { unfold extract_api_key_cached in Hrun.
    fold (cached_key file_of files config_dir container) in Hrun.
    destruct (cached_key file_of files config_dir container)
      as [key0|] eqn:Hc.
    - destruct (str_truthy key0) eqn:Ht.
      + injection Hrun as <- <-. by split.
      + destruct (_docker_extract docker_exec container) as [e|k] eqn:Hd;
          [discriminate|].
        rewrite (docker_extract_truthy _ _ _ Hd) in Hrun.
        injection Hrun as <- <-.
        split; [by eapply docker_extract_truthy|apply cached_key_saved].
    - destruct (_docker_extract docker_exec container) as [e|k] eqn:Hd;
        [discriminate|].
      rewrite (docker_extract_truthy _ _ _ Hd) in Hrun.
      injection Hrun as <- <-.
      split; [by eapply docker_extract_truthy|apply cached_key_saved]. }
  destruct H as [Ht Hc]. split; [done|]. split; [done|].
  intros docker_exec'. by apply extract_api_key_hit.
Qed.

(** X4. [extract_api_key] leaves the cache files as they are when it
    raises, and in every case leaves as they are the keys cached for other
    containers and the keys cached in other files: those of every
    directory whose cache file is not the file of this one, however the
    directories are spelled.  A directory and the same directory written
    with a slash at its end have one cache file. *)
Theorem extract_api_key_cache_frame (docker_exec : string → DockerRun)
    (files : gmap string (gmap string (gmap string string)))
    (container config_dir : string) :
  let run :=
    extract_api_key_cached file_of docker_exec files container config_dir in
  (∀ e, run.2 = inl e → run.1 = files) ∧
  (∀ d' c',
     cache_file file_of d' ≠ cache_file file_of config_dir ∨ c' ≠ container →
     cached_key file_of run.1 d' c' = cached_key file_of files d' c') ∧
  (str_truthy config_dir = true → ends_with_slash config_dir = false →
   cache_file file_of (config_dir +:+ "/") = cache_file file_of config_dir).
Proof.
  intros run. subst run. unfold extract_api_key_cached.
  split; [|split];
    [| |by intros Hd Hs; unfold cache_file;
          rewrite os_path_join_trailing_slash].
  - destruct (default ∅ (_load_cache file_of files config_dir !! "api_keys")
                !! container) as [key0|].
    + destruct (str_truthy key0); [done|].
      destruct (_docker_extract docker_exec container) as [e|k]; [done|].
      by destruct (str_truthy k).
    + destruct (_docker_extract docker_exec container) as [e|k]; [done|].
      by destruct (str_truthy k).
  - intros d' c' Hne.
    destruct (default ∅ (_load_cache file_of files config_dir !! "api_keys")
                !! container) as [key0|].
    + destruct (str_truthy key0); [done|].
      destruct (_docker_extract docker_exec container) as [e|k]; [done|].
      destruct (str_truthy k); [|done]. by apply cached_key_saved_other.
    + destruct (_docker_extract docker_exec container) as [e|k]; [done|].
      destruct (str_truthy k); [|done]. by apply cached_key_saved_other.
Qed.

(** X5. [invalidate_cache] forgets the key of the one container in the
    cache file of the one directory, and no other key: not the keys of
    other containers, nor the keys in the cache file of a directory that
    has another file.  The next [extract_api_key] for the container asks
    docker again and returns (or raises) what [_docker_extract] does. *)
Theorem invalidate_cache_forgets
    (files : gmap string (gmap string (gmap string string)))
    (container config_dir : string) :
  let files' := invalidate_cache file_of files container config_dir in
  cached_key file_of files' config_dir container = None ∧
  (∀ d' c',
     cache_file file_of d' ≠ cache_file file_of config_dir ∨ c' ≠ container →
     cached_key file_of files' d' c' = cached_key file_of files d' c') ∧
  (∀ d', cache_file file_of d' = cache_file file_of config_dir →
         cached_key file_of files' d' container = None) ∧
  ∀ docker_exec,
    (extract_api_key_cached file_of docker_exec files' container
       config_dir).2 =
    _docker_extract docker_exec container.
Proof.
  intros files'.
  assert (Hsame : ∀ d',
    cache_file file_of d' = cache_file file_of config_dir →
    cached_key file_of files' d' container = None).
  { intros d' Hd. subst files'.
    unfold cached_key, invalidate_cache, _save_cache, _load_cache.
    rewrite Hd, lookup_insert_eq. cbn [from_option id].
    destruct (default ∅ (files !! cache_file file_of config_dir)
              !! "api_keys") as [keys|] eqn:Hk.
    - rewrite lookup_insert_eq. cbn [from_option id]. apply lookup_delete_eq.
    - rewrite Hk. cbn [from_option id]. apply lookup_empty. }
  pose proof (Hsame config_dir eq_refl) as Hnone.
  split; [exact Hnone|]. split; [|split; [exact Hsame|]].
  - intros d' c' Hne. subst files'.
    unfold cached_key, invalidate_cache, _save_cache, _load_cache.
    destruct (decide (cache_file file_of d' = cache_file file_of config_dir))
      as [Heq|Hd]; [|by rewrite lookup_insert_ne].
    destruct Hne as [Hn|Hc]; [by destruct Hn|]. rewrite Heq.
    rewrite lookup_insert_eq. cbn [from_option id].
    destruct (default ∅ (files !! cache_file file_of config_dir)
              !! "api_keys") as [keys|] eqn:Hk.
    + rewrite lookup_insert_eq. cbn [from_option id].
      by rewrite lookup_delete_ne.
    + by rewrite Hk.
  - intros docker_exec. unfold extract_api_key_cached.
    unfold cached_key in Hnone. rewrite Hnone.
    destruct (_docker_extract docker_exec container) as [e|k]; [done|].
    by destruct (str_truthy k).
Qed.
End key_cache_facts.

(** ** The Recyclarr file *)

Lemma odict_set_NoDup {A} (d : list (string * A)) (k : string) (v : A) :
  NoDup (odict_keys d) → NoDup (odict_keys (odict_set k v d)).
Proof.
  intros Hnd. destruct (odict_get k d) as [x|] eqn:Hk.
  - by rewrite odict_keys_set.
  - rewrite odict_keys_set_new by done.
    apply NoDup_app. split; [done|]. split.
    + intros y Hy Hy'. apply list_elem_of_singleton in Hy' as ->.
      by apply odict_get_None in Hk.
    + apply NoDup_singleton.
Qed.

Lemma odict_get_elem {A} (d : list (string * A)) (k : string) (v : A) :
  NoDup (odict_keys d) → (k, v) ∈ d → odict_get k d = Some v.
Proof.
  unfold odict_get, odict_keys.
  induction d as [|[k0 v0] d IH]; cbn [assoc_get fmap list_fmap fst].
  - intros _ H. by apply elem_of_nil in H.
  - intros [Hnot Hnd]%NoDup_cons Hin.
    apply elem_of_cons in Hin as [[= -> ->]|Hin].
    + by rewrite String.eqb_refl.
    + destruct (String.eqb k0 k) eqn:Hk; [|by apply IH].
      apply String.eqb_eq in Hk as ->. exfalso. apply Hnot.
      apply list_elem_of_fmap. by exists (k, v).
Qed.

Lemma odict_get_Some_elem {A} (d : list (string * A)) (k : string) (v : A) :
  odict_get k d = Some v → (k, v) ∈ d.
Proof.
  unfold odict_get. induction d as [|[k0 v0] d IH]; cbn [assoc_get];
    [discriminate|].
  destruct (String.eqb k0 k) eqn:Hk.
  - apply String.eqb_eq in Hk as ->. intros [= ->]. left.
  - intros H. right. by apply IH.
Qed.

Lemma recyclarr_entries_fold (f : Family) (prefix : string)
    (users : list (string * UserState)) :
  ∀ init,
    NoDup (odict_keys init) →
    let entries :=
      foldl (fun entries '(username, user) =>
               match user_service f user with
               | Some svc =>
                   if str_truthy (svc_url svc) && str_truthy (svc_api_key svc)
                   then odict_set (prefix +:+ username)
                                  (svc_url svc, svc_api_key svc) entries
                   else entries
               | None => entries
               end) init users in
    NoDup (odict_keys entries) ∧
    ∀ name v, (name, v) ∈ entries →
      (name, v) ∈ init ∨
      ∃ username user svc,
        (username, user) ∈ users ∧ name = prefix +:+ username ∧
        user_service f user = Some svc ∧
        service_usable (Some svc) = true ∧
        v = (svc_url svc, svc_api_key svc).
Proof.
  induction users as [|[username user] users IH]; intros init Hnd;
    cbn [foldl].
  - split; [done|]. intros name v H. by left.
  - match goal with
    | |- context [foldl _ ?init1 users] =>
        assert (Hinit1 : NoDup (odict_keys init1) ∧
                  ∀ name v, (name, v) ∈ init1 →
                    (name, v) ∈ init ∨
                    ∃ svc, name = prefix +:+ username ∧
                           user_service f user = Some svc ∧
                           service_usable (Some svc) = true ∧
                           v = (svc_url svc, svc_api_key svc));
        [|destruct (IH init1 (proj1 Hinit1)) as [Hnd' Hfrom]]
    end.
    { destruct (user_service f user) as [svc|] eqn:Hsvc; [|by split; [|left]].
      destruct (str_truthy (svc_url svc) && str_truthy (svc_api_key svc))
        eqn:Huse; [|by split; [|left]].
      split; [by apply odict_set_NoDup|].
      intros name v Hin.
      destruct (decide (name = prefix +:+ username)) as [->|Hne].
      - right. exists svc. repeat split; try done.
        apply odict_get_elem in Hin; [|by apply odict_set_NoDup].
        rewrite odict_get_set_eq in Hin. by injection Hin as <-.
      - left. apply odict_get_elem in Hin; [|by apply odict_set_NoDup].
        rewrite odict_get_set_ne in Hin by done.
        by apply odict_get_Some_elem. }
    split; [done|]. intros name v Hin.
    destruct (Hfrom name v Hin) as [Hin1|(u & us & svc & Hu & ?)].
    + destruct (proj2 Hinit1 name v Hin1) as [?|(svc & ? & ? & ? & ?)];
        [by left|].
      right. exists username, user, svc. split; [left|done].
    + right. exists u, us, svc. split; [by right|done].
Qed.

Lemma recyclarr_entries_spec (f : Family) (prefix : string)
    (state : DesiredState) :
  NoDup (odict_keys (recyclarr_entries f prefix state)) ∧
  ∀ name v, (name, v) ∈ recyclarr_entries f prefix state →
    ∃ username user svc,
      (username, user) ∈ state_users state ∧ name = prefix +:+ username ∧
      user_service f user = Some svc ∧ service_usable (Some svc) = true ∧
      v = (svc_url svc, svc_api_key svc).
Proof.
  destruct (recyclarr_entries_fold f prefix (state_users state) [])
    as [Hnd Hfrom]; [constructor|].
  split; [exact Hnd|]. intros name v Hin.
  destruct (Hfrom name v Hin) as [H|H]; [by apply elem_of_nil in H|done].
Qed.

Lemma recyclarr_update_lookup (entries : list (string * (string * string))) :
  ∀ section name,
    NoDup (odict_keys entries) →
    recyclarr_update entries section !! name =
    match odict_get name entries with
    | Some (base_url, api_key) => Some (recyclarr_entry base_url api_key)
    | None => section !! name
    end.
Proof.
  unfold recyclarr_update, odict_get, odict_keys.
  induction entries as [|[n [u k]] entries IH]; intros section name;
    cbn [foldl assoc_get fmap list_fmap fst]; [done|].
  intros [Hnot Hnd]%NoDup_cons. rewrite IH by done.
  destruct (String.eqb n name) eqn:Hn.
  - apply String.eqb_eq in Hn as ->.
    assert (Hnone : assoc_get name entries = None)
      by (by apply (odict_get_None entries name)).
    rewrite Hnone. apply lookup_insert_eq.
  - apply String.eqb_neq in Hn.
    destruct (assoc_get name entries) as [[u' k']|]; [done|].
    by rewrite lookup_insert_ne.
Qed.

Lemma recyclarr_entry_up_to_date (base_url api_key : string) :
  negb (py_eq (JStr base_url) (dict_get (recyclarr_entry base_url api_key)
                                        "base_url"))
  || negb (py_eq (JStr api_key) (dict_get (recyclarr_entry base_url api_key)
                                          "api_key")) = false.
Proof.
  unfold dict_get, recyclarr_entry.
  rewrite lookup_insert_eq, lookup_insert_ne by done.
  rewrite lookup_singleton_eq. cbn [from_option id py_eq].
  by rewrite !String.eqb_refl.
Qed.

Lemma recyclarr_section_quiet (desired : list (string * (string * string)))
    (existing : gmap string (gmap string JValue)) :
  (∀ name base_url api_key,
     (name, (base_url, api_key)) ∈ desired →
     existing !! name = Some (recyclarr_entry base_url api_key)) →
  recyclarr_section_changes desired existing = [].
Proof.
  unfold recyclarr_section_changes. generalize (@nil Change).
  induction desired as [|[n [u k]] desired IH]; intros changes Hall;
    cbn [foldl]; [done|].
  rewrite (Hall n u k) by left. rewrite recyclarr_entry_up_to_date.
  apply IH. intros name base_url api_key Hin. apply Hall. by right.
Qed.

(** X6. Right after [apply_recyclarr] has written the file,
    [plan_recyclarr] for the same state finds nothing to create or to
    update. *)
Theorem plan_recyclarr_after_apply (file_of : string → string)
    (state : DesiredState) (recyclarr_file : string → RecyclarrFile) :
  plan_recyclarr (apply_recyclarr file_of state recyclarr_file) state = [].
Proof.
  unfold plan_recyclarr, apply_recyclarr.
  destruct (state_recyclarr state) as [r|]; [|done].
  destruct (negb (str_truthy (recyclarr_config_path r))); [done|].
  cbv zeta. rewrite String.eqb_refl. cbn [rc_radarr rc_sonarr].
  rewrite !recyclarr_section_quiet; [done| |].
  - intros name u k Hin.
    destruct (recyclarr_entries_spec Sonarr "sonarr-" state) as [Hnd _].
    rewrite recyclarr_update_lookup by done.
    by rewrite (odict_get_elem _ _ _ Hnd Hin).
  - intros name u k Hin.
    destruct (recyclarr_entries_spec Radarr "radarr-" state) as [Hnd _].
    rewrite recyclarr_update_lookup by done.
    by rewrite (odict_get_elem _ _ _ Hnd Hin).
Qed.





Lemma recyclarr_section_changes_elem
    (desired : list (string * (string * string)))
    (existing : gmap string (gmap string JValue)) (c : Change) :
  c ∈ recyclarr_section_changes desired existing →
  ∃ name base_url api_key,
    (name, (base_url, api_key)) ∈ desired ∧ change_name c = name ∧
    ((change_type c = "create" ∧ existing !! name = None) ∨
     (change_type c = "update" ∧
      ∃ e, existing !! name = Some e ∧
           negb (py_eq (JStr base_url) (dict_get e "base_url"))
           || negb (py_eq (JStr api_key) (dict_get e "api_key")) = true)).
Proof.
  unfold recyclarr_section_changes.
  assert (Hgen : ∀ init,
    c ∈ foldl (fun changes '(name, (base_url, api_key)) =>
                 match existing !! name with
                 | None => changes ++ [mkChange "create" name]
                 | Some e =>
                     if negb (py_eq (JStr base_url) (dict_get e "base_url"))
                        || negb (py_eq (JStr api_key) (dict_get e "api_key"))
                     then changes ++ [mkChange "update" name]
                     else changes
                 end) init desired →
    c ∈ init ∨
    ∃ name base_url api_key,
      (name, (base_url, api_key)) ∈ desired ∧ change_name c = name ∧
      ((change_type c = "create" ∧ existing !! name = None) ∨
       (change_type c = "update" ∧
        ∃ e, existing !! name = Some e ∧
             negb (py_eq (JStr base_url) (dict_get e "base_url"))
             || negb (py_eq (JStr api_key) (dict_get e "api_key")) = true))).
  { induction desired as [|[n [u k]] desired IH]; intros init; cbn [foldl];
      [by left|].
    intros Hin. apply IH in Hin as [Hin|(name & bu & ak & Hd & Hrest)].
    - destruct (existing !! n) as [e|] eqn:He.
      + destruct (negb (py_eq (JStr u) (dict_get e "base_url"))
                  || negb (py_eq (JStr k) (dict_get e "api_key"))) eqn:Hc;
          [|by left].
        apply elem_of_app in Hin as [Hin|Hin]; [by left|].
        apply list_elem_of_singleton in Hin as ->. right.
        exists n, u, k. split; [left|]. split; [done|]. right.
        split; [done|]. by exists e.
      + apply elem_of_app in Hin as [Hin|Hin]; [by left|].
        apply list_elem_of_singleton in Hin as ->. right.
        exists n, u, k. split; [left|]. split; [done|]. by left.
    - right. exists name, bu, ak. split; [by right|done]. }
  intros Hin. apply Hgen in Hin as [Hin|Hin]; [by apply elem_of_nil in Hin|done].
Qed.

(** X8. Every change [plan_recyclarr] reports concerns an instance some
    tenant declares with a URL and an API key, is named
    [radarr-<tenant>] or [sonarr-<tenant>], and is a "create" when the file
    has no entry of that name and an "update" when the entry's [base_url]
    or [api_key] differs from the declared one. *)
Theorem plan_recyclarr_changes (recyclarr_file : string → RecyclarrFile)
    (state : DesiredState) (c : Change) :
  c ∈ plan_recyclarr recyclarr_file state →
  ∃ r f username user svc,
    state_recyclarr state = Some r ∧
    (username, user) ∈ state_users state ∧
    user_service f user = Some svc ∧
    service_usable (Some svc) = true ∧
    change_name c = recyclarr_prefix f +:+ username ∧
    let section :=
      rc_section f (recyclarr_file (recyclarr_config_path r)) in
    (change_type c = "create" ∧ section !! change_name c = None) ∨
    (change_type c = "update" ∧
     ∃ e, section !! change_name c = Some e ∧
          negb (py_eq (JStr (svc_url svc)) (dict_get e "base_url"))
          || negb (py_eq (JStr (svc_api_key svc)) (dict_get e "api_key"))
          = true).
Proof.
  unfold plan_recyclarr.
  destruct (state_recyclarr state) as [r|] eqn:Hr;
    [|intros H; by apply elem_of_nil in H].
  destruct (negb (str_truthy (recyclarr_config_path r)));
    [intros H; by apply elem_of_nil in H|].
  intros Hin. exists r.
  apply elem_of_app in Hin as [Hin|Hin];
    apply recyclarr_section_changes_elem in Hin
      as (name & bu & ak & Hd & Hname & Hkind);
    [destruct (recyclarr_entries_spec Radarr "radarr-" state) as [_ Hfrom];
     exists Radarr
    |destruct (recyclarr_entries_spec Sonarr "sonarr-" state) as [_ Hfrom];
     exists Sonarr];
    destruct (Hfrom _ _ Hd) as (username & user & svc & Hu & -> & Hs & Huse & Hv);
    injection Hv as -> ->;
    exists username, user, svc;
    (split; [done|]); (split; [done|]); (split; [done|]); (split; [done|]);
    (split; [done|]); cbv zeta; cbn [rc_section]; rewrite Hname; exact Hkind.
Qed.

(** ** What resolution keeps *)

Lemma apply_reference_identity (user ref_user : UserState) :
  user_identity (_apply_reference user ref_user) = user_identity user.
Proof.
  unfold user_identity, _apply_reference, families. cbn [foldl].
  destruct user as [? ? [?|] [?|] ? ? ?];
    destruct ref_user as [? ? [?|] [?|] ? ? ?]; reflexivity.
Qed.

Lemma resolve_one_keys (users users' : list (string * UserState)) (k : string) :
  resolve_one users k = inr users' → odict_keys users' = odict_keys users.
Proof.
  unfold resolve_one. destruct (odict_get k users) as [u|] eqn:Hu;
    [|by intros [= <-]].
  destruct (str_truthy (user_reference u)); [|by intros [= <-]].
  destruct (odict_get (user_reference u) users); [|discriminate].
  intros [= <-]. apply odict_keys_set. by rewrite Hu.
Qed.

Lemma resolve_keys_keys (keys : list string) :
  ∀ users users',
    resolve_keys keys users = inr users' →
    odict_keys users' = odict_keys users ∧ refs_agree users users'.
Proof.
  induction keys as [|k keys IH]; intros users users'; cbn [resolve_keys].
  - intros [= <-]. by split.
  - destruct (resolve_one users k) as [e|users1] eqn:H1; [discriminate|].
    cbn [bind_result]. intros Hrest.
    destruct (IH _ _ Hrest) as [Hk Hr]. split.
    + rewrite Hk. by eapply resolve_one_keys.
    + eapply refs_agree_trans; [by eapply resolve_one_refs_agree|done].
Qed.

Lemma resolve_references_defined (users users' : list (string * UserState))
    (k : string) (u : UserState) :
  resolve_references users = inr users' →
  odict_get k users' = Some u →
  str_truthy (user_reference u) = true →
  is_Some (odict_get (user_reference u) users').
Proof.
  intros Hrun Hk Href.
  destruct (odict_get (user_reference u) users') as [r|] eqn:Hr; [by eexists|].
  exfalso.
  destruct (resolve_keys_keys _ _ _ Hrun) as [Hkeys Hagree].
  assert (Hd : dangling users k (user_reference u)).
  { pose proof (Hagree k) as Ha. rewrite Hk in Ha.
    destruct (odict_get k users) as [u0|] eqn:Hu0; [|discriminate].
    injection Ha as Ha. exists u0. split; [done|]. split; [done|].
    split; [done|]. pose proof (Hagree (user_reference u)) as Hb.
    rewrite Hr in Hb. by destruct (odict_get (user_reference u) users). }
  destruct (resolve_keys_dangling users k (user_reference u)
              (odict_keys users) Hd users) as (T' & R' & Hfail & _).
  - done.
  - destruct Hd as (u0 & Hu0 & _). by eapply odict_get_Some_key.
  - unfold resolve_references in Hrun. congruence.
Qed.

Section resolve_facts.
Variable extract_api_key : string → result string.

Lemma parse_user_name username udata u :
  parse_user extract_api_key username udata = inr u → user_name u = username.
Proof.
  unfold parse_user.
  destruct (_parse_seedr _) as [e|seedr]; [discriminate|]. cbn [bind_result].
  destruct (_resolve_api_key _ (_parse_service (raw_radarr udata)))
    as [e|radarr]; [discriminate|]. cbn [bind_result].
  destruct (_resolve_api_key _ (_parse_service (raw_sonarr udata)))
    as [e|sonarr]; [discriminate|]. cbn [bind_result].
  by intros [= <-].
Qed.

Lemma parse_users_invariant (users_raw : list (string * RawUser)) :
  ∀ acc users,
    parse_users extract_api_key users_raw acc = inr users →
    NoDup (odict_keys acc) →
    (∀ k u, odict_get k acc = Some u → user_name u = k) →
    NoDup (odict_keys users) ∧
    (∀ k u, odict_get k users = Some u → user_name u = k) ∧
    ∀ k, k ∈ odict_keys users ↔ k ∈ odict_keys acc ∨ k ∈ users_raw.*1.
Proof.
  induction users_raw as [|[username ud] rest IH]; intros acc users;
    cbn [parse_users fmap list_fmap fst].
  - intros [= <-] Hnd Hnames. split; [done|]. split; [done|].
    intros k. split; [by left|]. intros [?|H]; [done|].
    by apply elem_of_nil in H.
  - destruct (parse_user _ _ _) as [e|user] eqn:Hu; [discriminate|].
    cbn [bind_result]. intros Hrest Hnd Hnames.
    destruct (IH _ _ Hrest) as (Hnd' & Hnames' & Hkeys).
    + by apply odict_set_NoDup.
    + intros k u. destruct (decide (username = k)) as [<-|Hne].
      * rewrite odict_get_set_eq. intros [= <-].
        by eapply parse_user_name.
      * rewrite odict_get_set_ne by done. apply Hnames.
    + split; [done|]. split; [done|]. intros k. rewrite Hkeys.
      rewrite elem_of_cons.
      assert (Hset : k ∈ odict_keys (odict_set username user acc) ↔
                     k ∈ odict_keys acc ∨ k = username).
      { destruct (odict_get username acc) as [x|] eqn:Hx.
        - rewrite odict_keys_set by (by rewrite Hx). split; [by left|].
          intros [? | ->]; [done|]. by eapply odict_get_Some_key.
        - rewrite odict_keys_set_new by done.
          rewrite elem_of_app, list_elem_of_singleton. done. }
      rewrite Hset. tauto.
Qed.

Variable load_yaml : string → result RawDoc.

Lemma resolve_state_users config_path state :
  resolve_state load_yaml extract_api_key config_path = inr state →
  ∃ raw users,
    load_yaml config_path = inr raw ∧
    parse_users extract_api_key (default [] (raw_users raw)) [] = inr users ∧
    resolve_references users = inr (state_users state).
Proof.
  unfold resolve_state.
  destruct (load_yaml config_path) as [e|raw]; [discriminate|].
  cbn [bind_result].
  destruct (parse_prowlarr extract_api_key raw) as [e|p]; [discriminate|].
  cbn [bind_result].
  destruct (parse_users _ _ _) as [e|users] eqn:Hu; [discriminate|].
  cbn [bind_result].
  destruct (resolve_references users) as [e|users'] eqn:Hr; [discriminate|].
  cbn [bind_result]. intros [= <-]. by exists raw, users.
Qed.

(** X9. The state [resolve_state] returns has one tenant per name declared
    in the document, in document order, each stored under its own name;
    and every reference a tenant names is the name of a tenant of the
    state. *)
Theorem resolve_state_tenants config_path raw state :
  load_yaml config_path = inr raw →
  NoDup (default [] (raw_users raw)).*1 →
  resolve_state load_yaml extract_api_key config_path = inr state →
  odict_keys (state_users state) = (default [] (raw_users raw)).*1 ∧
  (∀ k u, odict_get k (state_users state) = Some u →
          user_name u = k ∧
          (str_truthy (user_reference u) = true →
           is_Some (odict_get (user_reference u) (state_users state)))).
Proof.
  intros Hload Hnd Hres.
  destruct (resolve_state_users _ _ Hres) as (raw' & users & Hload' & Hparse & Hrefs).
  assert (raw' = raw) as -> by congruence.
  destruct (resolve_keys_keys _ _ _ Hrefs) as [Hkeys _].
  split.
  - rewrite Hkeys. by rewrite (parse_users_keys _ _ _ _ Hparse Hnd).
  - intros k u Hk. split; [|by eapply resolve_references_defined].
    destruct (parse_users_invariant _ _ _ Hparse) as (Hnd' & Hnames & _);
      [constructor|done|].
    destruct (odict_get k users) as [u0|] eqn:Hu0.
    + pose proof (resolve_keys_at (odict_keys users) users (state_users state)
                    k u0 Hrefs Hnd' (odict_get_Some_key _ _ _ Hu0) Hu0) as Hat.
      pose proof (Hnames _ _ Hu0) as Hn.
      destruct (str_truthy (user_reference u0)).
      * destruct Hat as (x & Hx & _). rewrite Hk in Hx. injection Hx as ->.
        pose proof (apply_reference_identity u0 x) as Hid.
        unfold user_identity in Hid. congruence.
      * congruence.
    + apply odict_get_None in Hu0. rewrite <- Hkeys in Hu0.
      apply odict_get_Some_key in Hk. done.
Qed.
End resolve_facts.

(** X10. The reference pass changes nothing of a tenant but the naming and
    media-management overrides of its services: name, credentials,
    reference, and each service's URL, API key, container and root folders
    come out as they went in, and no service block appears or disappears. *)
Theorem resolve_references_identity (users users' : list (string * UserState))
    (k : string) (u : UserState) :
  NoDup (odict_keys users) →
  resolve_references users = inr users' →
  odict_get k users = Some u →
  ∃ u', odict_get k users' = Some u' ∧ user_identity u' = user_identity u.
Proof.
  intros Hnd Hrun Hk.
  pose proof (resolve_keys_at _ _ _ _ _ Hrun Hnd (odict_get_Some_key _ _ _ Hk) Hk)
    as Hat.
  destruct (str_truthy (user_reference u)).
  - destruct Hat as (x & Hx & _). eexists. split; [exact Hx|].
    apply apply_reference_identity.
  - by exists u.
Qed.

(** X11. When no tenant names a reference, the reference pass returns the
    tenants exactly as parsed. *)
Theorem resolve_references_without_references
    (users : list (string * UserState)) :
  (∀ k u, odict_get k users = Some u → user_reference u = EmptyString) →
  resolve_references users = inr users.
Proof.
  intros Hnone. unfold resolve_references.
  induction (odict_keys users) as [|k keys IH]; [done|].
  cbn [resolve_keys].
  assert (H1 : resolve_one users k = inr users).
  { unfold resolve_one. destruct (odict_get k users) as [u|] eqn:Hu; [|done].
    by rewrite (Hnone _ _ Hu). }
  by rewrite H1.
Qed.

(** ** Planning a resolved state *)

Section compute_plan_facts.
Variable load_yaml : string → result RawDoc.
Variable extract_api_key : string → result string.
Variable fetch : ArrClient → ArrLive.
Variable fetch_applications : ProwlarrClient → list ProwlarrApp.
Variable set_order : list string → list string.

Lemma compute_plan_missing_target state target_user t :
  target_given target_user = Some t →
  odict_get t (state_users state) = None →
  compute_plan fetch fetch_applications set_order state target_user =
  inl (KeyError t).
Proof.
  intros Ht Hnone. unfold compute_plan, users_index. rewrite Ht, Hnone.
  cbn [bind_result].
  destruct (state_prowlarr state) as [p|]; [|done].
  by destruct (str_truthy (prowlarr_url p) && str_truthy (prowlarr_api_key p)).
Qed.

(** X12. Dangling references are caught when the state is resolved, not
    while planning.  In a state [resolve_state] returned, the reference of
    every tenant names a tenant of the state, so the lookup
    [state.users[user.reference]] of [plan_service] returns for every
    tenant [compute_plan] walks.  The one lookup in the state that can
    raise is the tenant filter: when it names no tenant, [compute_plan]
    raises [KeyError] for that name (the source does so before it sends any
    request). *)
Theorem compute_plan_after_resolve config_path state target_user :
  resolve_state load_yaml extract_api_key config_path = inr state →
  (∀ name user,
     (name, user) ∈ state_users state →
     str_truthy (user_reference user) = true →
     ∃ ref_user, users_index state (user_reference user) = inr ref_user) ∧
  (∀ t user,
     target_given target_user = Some t →
     users_index state t = inr user →
     (t, user) ∈ state_users state) ∧
  (∀ t, target_given target_user = Some t →
        odict_get t (state_users state) = None →
        compute_plan fetch fetch_applications set_order state target_user =
        inl (KeyError t)).
Proof.
  intros Hres.
  split; [|split; [|intros t; apply compute_plan_missing_target]].
  - destruct (resolve_state_users _ _ _ _ Hres)
      as (raw & users & _ & Hparse & Hrefs).
    destruct (parse_users_invariant _ _ _ _ Hparse) as (Hnd & _ & _);
      [constructor|done|].
    destruct (resolve_keys_keys _ _ _ Hrefs) as [Hkeys _].
    assert (Hnd' : NoDup (odict_keys (state_users state)))
      by by rewrite Hkeys.
    intros name user Hin Href.
    destruct (resolve_references_defined users (state_users state) name user
                Hrefs (odict_get_elem _ _ _ Hnd' Hin) Href) as [r Hr].
    exists r. unfold users_index. by rewrite Hr.
  - intros t user _. unfold users_index.
    destruct (odict_get t (state_users state)) as [u|] eqn:Hu; [|done].
    intros [= <-]. by eapply odict_get_Some_elem.
Qed.

Lemma plan_user_services_types fams user state :
  ∀ sps,
    plan_user_services fetch set_order fams user state = inr sps →
    sublist (map sp_service_type sps) (map family_label fams).
Proof.
  induction fams as [|f fams IH]; intros sps; cbn [plan_user_services map].
  - intros [= <-]. constructor.
  - destruct (user_service f user) as [svc|];
      [|intros H; apply sublist_cons; by apply IH].
    destruct (str_truthy (svc_url svc) && str_truthy (svc_api_key svc));
      [|intros H; apply sublist_cons; by apply IH].
    destruct (plan_service _ _ _ _ _ _ _) as [e|sp] eqn:Hsp; [discriminate|].
    cbn [bind_result].
    destruct (plan_user_services _ _ _ _ _) as [e|rest]; [discriminate|].
    cbn [bind_result]. intros [= <-]. cbn [map].
    rewrite plan_service_eq in Hsp. cbv zeta in Hsp.
    assert (Hty : sp_service_type sp = family_label f).
    { destruct (str_truthy (user_reference user)); [|by injection Hsp as <-].
      destruct (odict_get _ _) as [r|]; [|discriminate].
      destruct (user_service f r) as [rs|]; [|by injection Hsp as <-].
      destruct (str_truthy (svc_url rs) && str_truthy (svc_api_key rs));
        by injection Hsp as <-. }
    rewrite Hty. apply sublist_skip. by apply IH.
Qed.

Lemma plan_users_shape users state :
  ∀ ups,
    plan_users fetch set_order users state = inr ups →
    sublist (map up_username ups) (map fst users) ∧
    Forall (fun up => up_services up ≠ [] ∧
                      sublist (map sp_service_type (up_services up))
                              ["Radarr"; "Sonarr"]) ups.
Proof.
  induction users as [|[k u] users IH]; intros ups; cbn [plan_users map fst].
  - intros [= <-]. split; constructor.
  - destruct (plan_user_services _ _ _ _ _) as [e|services] eqn:Hsv;
      [discriminate|].
    cbn [bind_result].
    destruct (plan_users _ _ _ _) as [e|plans]; [discriminate|].
    cbn [bind_result]. destruct (IH _ eq_refl) as [Hsub Hall].
    destruct services as [|sp services]; intros [= <-].
    + split; [by apply sublist_cons|done].
    + split; [cbn [map up_username]; by apply sublist_skip|].
      apply Forall_cons_2; [|done]. cbn [up_services]. split; [done|].
      by apply (plan_user_services_types families u state).
Qed.

(** X13. A plan [compute_plan] returns has no empty part: the Prowlarr
    part, when present, and every tenant part hold at least one action or
    service; tenant parts follow the order of the tenants walked, each at
    most once, with Radarr listed before Sonarr; and the Recyclarr part is
    left for the caller to add. *)
Theorem compute_plan_shape state target_user plan :
  compute_plan fetch fetch_applications set_order state target_user = inr plan →
  cp_recyclarr plan = None ∧
  (∀ p, cp_prowlarr plan = Some p → pp_actions p ≠ []) ∧
  sublist (map up_username (cp_users plan))
          (processed_names state target_user) ∧
  Forall (fun up => up_services up ≠ [] ∧
                    sublist (map sp_service_type (up_services up))
                            ["Radarr"; "Sonarr"]) (cp_users plan).
Proof.
  unfold compute_plan, processed_names.
  match goal with
  | |- bind_result ?p _ = _ → _ => destruct p as [e|pp] eqn:Hpp
  end; [discriminate|].
  cbn [bind_result].
  match goal with
  | |- bind_result ?p _ = _ → _ => destruct p as [e|todo] eqn:Htodo
  end; [discriminate|].
  cbn [bind_result].
  destruct (plan_users _ _ _ _) as [e|ups] eqn:Hups; [discriminate|].
  cbn [bind_result]. intros [= <-].
  cbn [cp_recyclarr cp_prowlarr cp_users].
  destruct (plan_users_shape _ _ _ Hups) as [Hsub Hall].
  split; [done|]. split; [|split; [|done]].
  - intros p [= ->].
    destruct (state_prowlarr state) as [cfg|]; [|discriminate].
    destruct (str_truthy (prowlarr_url cfg) && str_truthy (prowlarr_api_key cfg));
      [|discriminate].
    match type of Hpp with
    | bind_result ?fs _ = _ => destruct fs as [e|filtered]
    end; [discriminate|].
    cbn [bind_result] in Hpp.
    destruct (plan_prowlarr_apps _ _ _ _) as [|a l]; [discriminate|].
    by injection Hpp as <-.
  - destruct (target_given target_user) as [t|].
    + unfold users_index in Htodo.
      destruct (odict_get t (state_users state)) as [u|]; [|discriminate].
      by injection Htodo as <-.
    + by injection Htodo as <-.
Qed.
End compute_plan_facts.

(** ** Prowlarr applications *)

Lemma plan_prowlarr_app_usable prowlarr url
    (by_name : gmap string ProwlarrApp) username user impl :
  plan_prowlarr_app prowlarr url by_name username user impl =
  if service_usable (user_service impl user) then
    plan_prowlarr_app prowlarr url by_name username user impl
  else [].
Proof.
  unfold service_usable, plan_prowlarr_app.
  destruct (user_service impl user) as [svc|]; [|done].
  by destruct (str_truthy (svc_url svc)), (str_truthy (svc_api_key svc)).
Qed.

Lemma plan_prowlarr_app_one prowlarr url (apps : list ProwlarrApp)
    username user impl :
  service_usable (user_service impl user) = true →
  ∃ a,
    plan_prowlarr_app prowlarr url (index_by_name app_name apps)
                      username user impl = [a] ∧
    action_name a = quoted (app_label (username, impl)) ∧
    action_category a = "App" ∧
    (action_type a = CREATE ↔
     app_label (username, impl) ∉ map app_name apps).
Proof.
  unfold service_usable, plan_prowlarr_app, app_label. cbn [fst snd].
  destruct (user_service impl user) as [svc|]; [|discriminate].
  intros [-> ->]%andb_true_iff. cbn [negb orb].
  destruct (index_by_name app_name apps !! _) as [existing|] eqn:Hlive.
  - assert (Hin : ¬ (family_label impl +:+ " (" +:+ username +:+ ")"
                     ∉ map app_name apps)).
    { intros Hn. apply index_by_name_None in Hn. congruence. }
    destruct (_ && _); eexists; (split; [reflexivity|]);
      (split; [reflexivity|]); (split; [reflexivity|]); by split.
  - apply index_by_name_None in Hlive.
    eexists. split; [reflexivity|]. by repeat split.
Qed.

(** X14. [plan_prowlarr_apps] plans exactly one action per service that a
    tenant declares with both URL and API key, in tenant order and Radarr
    before Sonarr; the action is named after the application
    ["<Family> (<tenant>)"] and is a CREATE exactly when Prowlarr has no
    application of that name. *)
Theorem plan_prowlarr_apps_per_service
    (fetch_applications : ProwlarrClient → list ProwlarrApp)
    (prowlarr : ProwlarrClient) (prowlarr_url : string) (state : DesiredState) :
  Forall2
    (fun a entry =>
       action_name a = quoted (app_label entry) ∧
       action_category a = "App" ∧
       (action_type a = CREATE ↔
        app_label entry ∉ map app_name (fetch_applications prowlarr)))
    (plan_prowlarr_apps fetch_applications prowlarr prowlarr_url state)
    (usable_services state).
Proof.
  unfold plan_prowlarr_apps, usable_services.
  set (apps := fetch_applications prowlarr).
  assert (Hfold : ∀ users init,
    foldl (fun actions '(username, user) =>
             foldl (fun actions impl =>
                      actions ++
                      plan_prowlarr_app prowlarr prowlarr_url
                        (index_by_name app_name apps) username user impl)
                   actions families) init users =
    init ++
    concat (map (fun '(username, user) =>
                   concat (map (plan_prowlarr_app prowlarr prowlarr_url
                                  (index_by_name app_name apps) username user)
                               families)) users)).
  { induction users as [|[username user] users IH]; intros init;
      cbn [foldl map concat]; [by rewrite app_nil_r|].
    rewrite IH, foldl_append_each. by rewrite <- app_assoc. }
  rewrite Hfold. cbn [app].
  induction (state_users state) as [|[username user] users IH];
    cbn [map concat]; [constructor|].
  apply Forall2_app; [|exact IH].
  unfold families. cbn [map concat List.filter]. rewrite app_nil_r.
  rewrite (plan_prowlarr_app_usable _ _ _ username user Radarr).
  rewrite (plan_prowlarr_app_usable _ _ _ username user Sonarr).
  destruct (service_usable (user_service Radarr user)) eqn:Hr;
    destruct (service_usable (user_service Sonarr user)) eqn:Hs;
    cbn [map app].
  - destruct (plan_prowlarr_app_one prowlarr prowlarr_url apps username user
                Radarr Hr) as (a & -> & Ha).
    destruct (plan_prowlarr_app_one prowlarr prowlarr_url apps username user
                Sonarr Hs) as (b & -> & Hb).
    cbn [app]. constructor; [exact Ha|]. constructor; [exact Hb|constructor].
  - destruct (plan_prowlarr_app_one prowlarr prowlarr_url apps username user
                Radarr Hr) as (a & -> & Ha).
    constructor; [exact Ha|constructor].
  - destruct (plan_prowlarr_app_one prowlarr prowlarr_url apps username user
                Sonarr Hs) as (b & -> & Hb).
    constructor; [exact Hb|constructor].
  - constructor.
Qed.

Lemma fill_fields_read_back (field_map : string → option JValue)
    (fields : list (gmap string JValue)) :
  ∀ filled key v,
    fill_fields field_map fields = inr filled →
    field_map key = Some v →
    (∃ field, field ∈ fields ∧ field !! "name" = Some (JStr key)) →
    _get_field_value (map stored_field filled) key = v.
Proof.
  induction fields as [|field rest IH]; intros filled key v;
    cbn [fill_fields].
  - intros _ _ (f & Hf & _). by apply elem_of_nil in Hf.
  - destruct (fill_field field_map field) as [e|f'] eqn:Hfill; [discriminate|].
    cbn [bind_result].
    destruct (fill_fields field_map rest) as [e|fs] eqn:Hrest; [discriminate|].
    cbn [bind_result]. intros [= <-] Hkey Hex.
    cbn [map _get_field_value stored_field field_name field_value].
    unfold fill_field in Hfill.
    assert (Hrec : (∃ field0, field0 ∈ rest ∧
                              field0 !! "name" = Some (JStr key)) →
                   _get_field_value (map stored_field fs) key = v)
      by (intros H; by eapply IH).
    assert (Htail : field !! "name" ≠ Some (JStr key) →
                    _get_field_value (map stored_field fs) key = v).
    { intros Hne. apply Hrec. destruct Hex as (f0 & Hin & Hn).
      apply elem_of_cons in Hin as [->|Hin]; [done|]. by exists f0. }
    destruct (field !! "name") as [nm|] eqn:Hname; [|discriminate].
    destruct nm as [|b|q|n|xs|o]; try discriminate.
    + injection Hfill as <-. unfold dict_get. rewrite Hname. cbn. by apply Htail.
    + injection Hfill as <-. unfold dict_get. rewrite Hname. cbn. by apply Htail.
    + injection Hfill as <-. unfold dict_get. rewrite Hname. cbn. by apply Htail.
    + assert (Hn' : dict_get f' "name" = JStr n).
      { unfold dict_get. destruct (field_map n); injection Hfill as <-;
          [rewrite lookup_insert_ne by done|]; by rewrite Hname. }
      rewrite Hn'. cbn [py_eq].
      destruct (String.eqb n key) eqn:Hnk.
      * apply String.eqb_eq in Hnk as ->. rewrite Hkey in Hfill.
        injection Hfill as <-. unfold dict_get. by rewrite lookup_insert_eq.
      * apply Htail. intros [= ->]. by rewrite String.eqb_refl in Hnk.
Qed.

(** X15. [build_app_payload] raises [ValueError] when Prowlarr offers no
    schema for the implementation.  Otherwise it fills the first such
    schema, keeping the number of fields, and the payload converges: an
    application stored with the payload's fields reads back the given
    service URL and API key under [baseUrl] and [apiKey] whenever the
    schema has fields of those names, so the next plan for that service is
    a NOOP. *)
Theorem build_app_payload_converges (schemas : list AppSchema)
    (name implementation prowlarr_url base_url api_key : string)
    (sync_categories : option (list Z)) :
  match List.find (fun s => py_eq (schema_implementation s)
                                  (JStr implementation)) schemas with
  | None =>
      build_app_payload schemas name implementation prowlarr_url base_url
        api_key sync_categories =
      inl (ValueError ("No schema found for implementation '" +:+
                       implementation +:+ "' in Prowlarr"))
  | Some schema =>
      ∀ payload,
        build_app_payload schemas name implementation prowlarr_url base_url
          api_key sync_categories = inr payload →
        payload_name payload = name ∧
        length (payload_fields payload) = length (schema_fields schema) ∧
        ((∃ field, field ∈ schema_fields schema ∧
                   field !! "name" = Some (JStr "baseUrl")) →
         (∃ field, field ∈ schema_fields schema ∧
                   field !! "name" = Some (JStr "apiKey")) →
         let stored := map stored_field (payload_fields payload) in
         _get_field_value stored "baseUrl" = JStr base_url ∧
         _get_field_value stored "apiKey" = JStr api_key ∧
         ∀ prowlarr url by_name username user impl svc id,
           user_service impl user = Some svc →
           svc_url svc = base_url → svc_api_key svc = api_key →
           str_truthy base_url = true → str_truthy api_key = true →
           by_name !! (family_label impl +:+ " (" +:+ username +:+ ")") =
             Some (mkProwlarrApp id name stored) →
           map action_type
               (plan_prowlarr_app prowlarr url by_name username user impl) =
           [NOOP])
  end.
Proof.
  unfold build_app_payload.
  destruct (List.find _ schemas) as [schema|]; [|done].
  intros payload.
  match goal with
  | |- bind_result (fill_fields ?fm _) _ = _ → _ =>
      set (field_map := fm)
  end.
  destruct (fill_fields field_map (schema_fields schema)) as [e|filled]
    eqn:Hfill; cbn [bind_result]; [discriminate|].
  intros [= <-].
  cbn [payload_name payload_fields]. split; [done|]. split.
  - clear -Hfill. revert filled Hfill.
    induction (schema_fields schema) as [|f fs IH]; intros filled;
      cbn [fill_fields].
    + by intros [= <-].
    + destruct (fill_field field_map f); [discriminate|]. cbn [bind_result].
      destruct (fill_fields field_map fs); [discriminate|]. cbn [bind_result].
      intros [= <-]. cbn [length]. f_equal. by apply IH.
  - intros Hbase Hkey. set (stored := map stored_field filled).
    assert (Hb : _get_field_value stored "baseUrl" = JStr base_url)
      by (by apply (fill_fields_read_back field_map (schema_fields schema))).
    assert (Hk : _get_field_value stored "apiKey" = JStr api_key)
      by (by apply (fill_fields_read_back field_map (schema_fields schema))).
    split; [done|]. split; [done|].
    intros prowlarr url by_name username user impl svc id Hsvc Hu Hka Htu Htk
      Hlive.
    unfold plan_prowlarr_app. rewrite Hsvc, Hu, Hka, Htu, Htk, Hlive.
    cbn [negb orb app_fields]. fold stored. rewrite Hb, Hk.
    cbn [py_eq]. by rewrite !String.eqb_refl.
Qed.

(** ** Comparing decoded values *)

Lemma json_size_pos (v : JValue) : (1 ≤ json_size v)%nat.
Proof. destruct v; cbn [json_size]; lia. Qed.

Lemma list_sum_elem (l : list nat) (x : nat) : x ∈ l → (x ≤ list_sum l)%nat.
Proof.
  induction l as [|y l IH]; [intros H; by apply elem_of_nil in H|].
  simpl. intros [->|Hin]%elem_of_cons; [lia|].
  specialize (IH Hin). lia.
Qed.

Lemma py_eq_refl_sized (n : nat) :
  ∀ v, (json_size v ≤ n)%nat → json_wf v = true → py_eq v v = true.
Proof.
  induction n as [|n IH]; intros v Hsize Hwf.
  - pose proof (json_size_pos v). lia.
  - destruct v as [|b|q|s|xs|o]; cbn [py_eq].
    + reflexivity.
    + by destruct b.
    + apply Qeq_bool_refl.
    + apply String.eqb_refl.
    + cbn [json_size json_wf] in Hsize, Hwf.
      assert (Hall : Forall (fun x => py_eq x x = true) xs).
      { apply Forall_forall. intros x Hx. apply IH.
        - assert (json_size x ≤ list_sum (map json_size xs))%nat; [|lia].
          apply list_sum_elem, list_elem_of_In, in_map, list_elem_of_In, Hx.
        - rewrite forallb_forall in Hwf. by apply Hwf, list_elem_of_In. }
      clear -Hall. induction Hall as [|x xs Hx _ IHxs]; [done|].
      by rewrite Hx.
    + cbn [json_size json_wf] in Hsize, Hwf.
      apply andb_true_iff in Hwf as [Hnd Hwf]. apply bool_decide_eq_true in Hnd.
      rewrite Nat.eqb_refl. cbn [andb].
      assert (Hall : Forall (fun kv => assoc_get kv.1 o = Some kv.2 ∧
                                       py_eq kv.2 kv.2 = true) o).
      { apply Forall_forall. intros [k v] Hkv. cbn [fst snd]. split.
        - by apply (odict_get_elem o k v).
        - apply IH.
          + assert (json_size v ≤
                    list_sum (map (fun kv => json_size kv.2) o))%nat; [|lia].
            apply list_sum_elem, list_elem_of_In.
            apply (in_map (fun kv => json_size kv.2) o (k, v)).
            by apply list_elem_of_In.
          + rewrite forallb_forall in Hwf.
            by apply (Hwf (k, v)), list_elem_of_In. }
      revert Hall. generalize o at 2 4. intros entries Hall.
      induction Hall as [|[k v] rest [Hk Hv] _ IHl]; [done|].
      cbn [fst snd] in Hk, Hv. by rewrite Hk, Hv.
Qed.

Lemma py_eq_refl (v : JValue) : json_wf v = true → py_eq v v = true.
Proof. by apply (py_eq_refl_sized (json_size v)). Qed.

Lemma config_unchanged (keys : list string) (d : gmap string JValue) :
  dict_wf d → config_changed keys d d = false.
Proof.
  intros Hwf. unfold config_changed.
  induction (List.filter _ keys) as [|k l IH]; [done|].
  cbn [existsb]. rewrite IH, orb_false_r. apply negb_false_iff.
  apply py_eq_refl. unfold dict_get.
  destruct (d !! k) as [v|] eqn:Hk; [by apply (Hwf k)|done].
Qed.

(** ** Naming and media-management payloads *)

Lemma override_for_empty (field_map : list (string * string)) (k : string) :
  override_for field_map ∅ k = None.
Proof.
  unfold override_for. destruct (List.find _ field_map) as [[y a]|]; [|done].
  apply lookup_empty.
Qed.

Lemma apply_overrides_lookup (field_map : list (string * string))
    (yaml : gmap string JValue) :
  ∀ d k,
    NoDup (map snd field_map) →
    apply_overrides field_map yaml d !! k =
    match override_for field_map yaml k with
    | Some v => Some v
    | None => d !! k
    end.
Proof.
  unfold apply_overrides, override_for.
  induction field_map as [|[y a] rest IH]; intros d k; cbn [foldl map snd];
    [done|].
  intros [Hnot Hnd]%NoDup_cons. rewrite IH by done. cbn [List.find snd].
  destruct (String.eqb a k) eqn:Hak.
  - apply String.eqb_eq in Hak as ->.
    assert (Hnone : List.find (fun entry : string * string =>
                                 String.eqb entry.2 k) rest = None).
    { destruct (List.find _ rest) as [[y' a']|] eqn:Hf; [|done].
      apply find_some in Hf as [Hin Heq]. cbn [snd] in Heq.
      apply String.eqb_eq in Heq as ->. exfalso. apply Hnot.
      apply list_elem_of_In. by apply (in_map snd rest (y', k)). }
    rewrite Hnone. destruct (yaml !! y); [apply lookup_insert_eq|done].
  - apply String.eqb_neq in Hak.
    destruct (List.find _ rest) as [[y' a']|].
    + destruct (yaml !! y'); [done|].
      destruct (yaml !! y); [by rewrite lookup_insert_ne|done].
    + destruct (yaml !! y); [by rewrite lookup_insert_ne|done].
Qed.

Lemma desired_config_lookup (field_map : list (string * string))
    (yaml reference : gmap string JValue) (k : string) :
  NoDup (map snd field_map) →
  (if dict_truthy yaml then apply_overrides field_map yaml reference
   else reference) !! k =
  match override_for field_map yaml k with
  | Some v => Some v
  | None => reference !! k
  end.
Proof.
  intros Hnd. destruct (dict_truthy yaml) eqn:Ht.
  - by apply apply_overrides_lookup.
  - apply dict_truthy_false in Ht as ->. by rewrite override_for_empty.
Qed.

(** X16. When the naming or media-management configuration is to be
    updated, the payload sent to the target is the reference's live
    configuration, with the declared override on top for each key that can
    be overridden (three for naming, two for media management; any other
    declared key is ignored), and with [id] set to the target's own id, or
    1 when the target has none. *)
Theorem update_payload_contents (fetch : ArrClient → ArrLive)
    (target_client ref_client : ArrClient) (ref_username : string)
    (target_svc : ServiceConfig) :
  (∀ op,
     action_execute (plan_naming_config fetch target_client ref_client
                       ref_username target_svc) = Some op →
     ∃ payload,
       op = Op_update_naming_config target_client payload ∧
       ∀ k, payload !! k =
            if String.eqb k "id"
            then Some (default (JNum 1)
                         (live_naming_config (fetch target_client) !! "id"))
            else match override_for naming_field_map
                         (svc_naming target_svc) k with
                 | Some v => Some v
                 | None => live_naming_config (fetch ref_client) !! k
                 end) ∧
  (∀ op,
     action_execute (plan_media_management fetch target_client ref_client
                       ref_username target_svc) = Some op →
     ∃ payload,
       op = Op_update_media_management target_client payload ∧
       ∀ k, payload !! k =
            if String.eqb k "id"
            then Some (default (JNum 1)
                         (live_media_management (fetch target_client) !! "id"))
            else match override_for mm_field_map
                         (svc_media_management target_svc) k with
                 | Some v => Some v
                 | None => live_media_management (fetch ref_client) !! k
                 end).
Proof.
  split.
  - intros op. unfold plan_naming_config.
    destruct (config_changed _ _ _); cbn [action_execute]; [|discriminate].
    intros [= <-]. eexists. split; [reflexivity|]. intros k.
    destruct (String.eqb k "id") eqn:Hk.
    + apply String.eqb_eq in Hk as ->. apply lookup_insert_eq.
    + apply String.eqb_neq in Hk. rewrite lookup_insert_ne by done.
      refine (desired_config_lookup naming_field_map (svc_naming target_svc)
                (live_naming_config (fetch ref_client)) k _).
      decide_by_computing.
  - intros op. unfold plan_media_management.
    destruct (config_changed _ _ _); cbn [action_execute]; [|discriminate].
    intros [= <-]. eexists. split; [reflexivity|]. intros k.
    destruct (String.eqb k "id") eqn:Hk.
    + apply String.eqb_eq in Hk as ->. apply lookup_insert_eq.
    + apply String.eqb_neq in Hk. rewrite lookup_insert_ne by done.
      refine (desired_config_lookup mm_field_map
                (svc_media_management target_svc)
                (live_media_management (fetch ref_client)) k _).
      decide_by_computing.
Qed.

(** ** Reference sync against an identical service *)

Lemma dict_get_wf (d : gmap string JValue) (k : string) :
  dict_wf d → json_wf (dict_get d k) = true.
Proof.
  intros Hwf. unfold dict_get.
  destruct (d !! k) as [v|] eqn:Hk; [by apply (Hwf k)|done].
Qed.

Lemma all_custom_formats_matched (target : list CustomFormat) :
  ∀ l, (∀ x, x ∈ l → x ∈ target) →
       List.filter (fun r => negb (cf_matched (index_by_name cf_name target) r))
                   l = [].
Proof.
  induction l as [|x l IH]; intros Hsub; [done|]. cbn [List.filter].
  unfold cf_matched at 1. rewrite bool_decide_eq_true_2.
  - cbn [negb]. apply IH. intros y Hy. apply Hsub. by right.
  - apply index_by_name_is_Some, list_elem_of_In, in_map, list_elem_of_In.
    apply Hsub. left.
Qed.

Lemma no_profile_missing (target : list QualityProfile) :
  ∀ l, (∀ x, x ∈ l → x ∈ target) →
       List.filter (profile_missing (index_by_name qp_name target)) l = [].
Proof.
  induction l as [|x l IH]; intros Hsub; [done|]. cbn [List.filter].
  unfold profile_missing at 1. rewrite bool_decide_eq_false_2.
  - apply IH. intros y Hy. apply Hsub. by right.
  - intros Hnone. apply index_by_name_None in Hnone. apply Hnone.
    apply list_elem_of_In, in_map, list_elem_of_In. apply Hsub. left.
Qed.

(** X17. Reference sync between two services whose live state is the same
    (in particular a service synced from itself), for a tenant that
    declares no override, plans five NOOPs and nothing to run. *)
Theorem reference_sync_converged (fetch : ArrClient → ArrLive)
    (target_client ref_client : ArrClient) (ref_username : string)
    (target_svc : ServiceConfig) :
  fetch ref_client = fetch target_client →
  dict_wf (live_naming_config (fetch target_client)) →
  dict_wf (live_media_management (fetch target_client)) →
  Forall dict_wf (live_quality_definitions (fetch target_client)) →
  svc_naming target_svc = ∅ →
  svc_media_management target_svc = ∅ →
  map (fun a => (action_type a, action_execute a))
      (plan_reference_sync fetch target_client ref_client ref_username
         target_svc) =
  [(NOOP, None); (NOOP, None); (NOOP, None); (NOOP, None); (NOOP, None)].
Proof.
  intros Hsame Hnaming Hmm Hdefs Hyn Hym.
  unfold plan_reference_sync.
  pose proof (plan_custom_formats_eq fetch target_client ref_client
                ref_username) as Hcf.
  cbv zeta in Hcf. rewrite Hsame in Hcf.
  rewrite all_custom_formats_matched in Hcf by done.
  cbn [length Nat.ltb Nat.leb] in Hcf. rewrite Hcf.
  cbn [map action_type action_execute]. repeat f_equal.
  - unfold plan_quality_profiles. rewrite Hsame.
    rewrite profile_scan_fold, no_profile_missing by done. reflexivity.
  - unfold plan_quality_profiles. rewrite Hsame.
    rewrite profile_scan_fold, no_profile_missing by done. reflexivity.
  - unfold plan_quality_definitions. rewrite Hsame, Nat.eqb_refl.
    assert (Hz : ∀ l, Forall dict_wf l →
              existsb (fun '(rd, td) =>
                 negb (py_eq (dict_get rd "minSize") (dict_get td "minSize"))
                 || negb (py_eq (dict_get rd "maxSize")
                                (dict_get td "maxSize"))
                 || negb (py_eq (dict_get rd "preferredSize")
                                (dict_get td "preferredSize")))
                (zip l l) = false).
    { induction 1 as [|d l Hd _ IH]; [done|]. cbn [zip zip_with existsb].
      fold (zip l l). rewrite IH, !py_eq_refl by by apply dict_get_wf.
      reflexivity. }
    rewrite Hz by done. reflexivity.
  - unfold plan_quality_definitions. rewrite Hsame, Nat.eqb_refl.
    assert (Hz : ∀ l, Forall dict_wf l →
              existsb (fun '(rd, td) =>
                 negb (py_eq (dict_get rd "minSize") (dict_get td "minSize"))
                 || negb (py_eq (dict_get rd "maxSize")
                                (dict_get td "maxSize"))
                 || negb (py_eq (dict_get rd "preferredSize")
                                (dict_get td "preferredSize")))
                (zip l l) = false).
    { induction 1 as [|d l Hd _ IH]; [done|]. cbn [zip zip_with existsb].
      fold (zip l l). rewrite IH, !py_eq_refl by by apply dict_get_wf.
      reflexivity. }
    rewrite Hz by done. reflexivity.
  - unfold plan_naming_config. rewrite Hsame, Hyn.
    rewrite (proj2 (dict_truthy_false ∅) eq_refl).
    by rewrite config_unchanged.
  - unfold plan_naming_config. rewrite Hsame, Hyn.
    rewrite (proj2 (dict_truthy_false ∅) eq_refl).
    by rewrite config_unchanged.
  - unfold plan_media_management. rewrite Hsame, Hym.
    rewrite (proj2 (dict_truthy_false ∅) eq_refl).
    by rewrite config_unchanged.
  - unfold plan_media_management. rewrite Hsame, Hym.
    rewrite (proj2 (dict_truthy_false ∅) eq_refl).
    by rewrite config_unchanged.
Qed.

(** ** The Seedr payload read back *)

Lemma find_after_misses {A} (p : A → bool) (others : list A) (x : A)
    (rest : list A) :
  Forall (fun c => p c = false) others →
  p x = true →
  List.find p (others ++ x :: rest) = Some x.
Proof.
  intros Hothers Hx. induction Hothers as [|c others Hc _ IH];
    cbn [app List.find].
  - by rewrite Hx.
  - by rewrite Hc.
Qed.

Lemma seedr_payload_matches (id : Z) (seedr : SeedrConfig) :
  _seedr_fields_match (stored_download_client id (_build_seedr_payload seedr))
                      seedr = true.
Proof.
  unfold _seedr_fields_match, stored_download_client, _build_seedr_payload.
  cbn. rewrite !String.eqb_refl. by destruct (seedr_delete_from_cloud seedr).
Qed.

(** X18. The payload sent for a Seedr download client satisfies the
    planner's own comparison: once the service lists, as its first client
    of implementation "Seedr", a client holding the [implementation] and
    the [fields] of the payload built for the declared credentials (under
    whatever id), the next plan reports the client up to date and has
    nothing to run. *)
Theorem seedr_payload_round_trip (fetch : ArrClient → ArrLive)
    (client : ArrClient) (seedr : SeedrConfig) (id : Z)
    (others rest : list DownloadClient) :
  Forall (fun c => py_eq (dc_implementation c) (JStr "Seedr") = false)
         others →
  live_download_clients (fetch client) =
    others ++ stored_download_client id (_build_seedr_payload seedr) :: rest →
  plan_download_client fetch client seedr =
    mkAction NOOP "Download client" "Seedr" "up to date" None [].
Proof.
  intros Hothers Hlive. unfold plan_download_client. rewrite Hlive.
  rewrite (find_after_misses _ others _ rest Hothers) by reflexivity.
  by rewrite seedr_payload_matches.
Qed.

(** ** The Recyclarr steps of a plan *)

Lemma omap_execute_app (l1 l2 : list Action) :
  omap action_execute (l1 ++ l2) =
  omap action_execute l1 ++ omap action_execute l2.
Proof.
  induction l1 as [|a l1 IH]; [done|]. cbn [app omap list_omap].
  destruct (action_execute a); cbn [app]; by rewrite IH.
Qed.

(** X19. Every Recyclarr change adds one action whose apply step rewrites
    the whole Recyclarr file: a plan extended by [_add_recyclarr_to_plan]
    runs the steps it had, then [apply_recyclarr] once per planned change
    (n planned changes give n identical steps). *)
Theorem recyclarr_steps_repeat (recyclarr_file : string → RecyclarrFile)
    (plan : ChangePlan) (state : DesiredState) :
  cp_recyclarr plan = None →
  apply_steps (_add_recyclarr_to_plan recyclarr_file plan state) =
  apply_steps plan ++
  replicate (length (plan_recyclarr recyclarr_file state))
            (Op_apply_recyclarr state).
Proof.
  intros Hnone. unfold _add_recyclarr_to_plan.
  pose proof (eq_refl (plan_recyclarr recyclarr_file state)) as Hplan.
  unfold plan_recyclarr at 2 in Hplan.
  destruct (state_recyclarr state) as [r|];
    [|rewrite Hplan; cbn [length replicate]; by rewrite app_nil_r].
  destruct (negb (str_truthy (recyclarr_config_path r)));
    [rewrite Hplan; cbn [length replicate]; by rewrite app_nil_r|].
  clear Hplan.
  destruct (plan_recyclarr recyclarr_file state) as [|c cs];
    [cbn [length replicate]; by rewrite app_nil_r|].
  unfold apply_steps, all_actions.
  cbn [cp_prowlarr cp_users cp_recyclarr rp_actions].
  rewrite Hnone, app_nil_r, app_assoc, omap_execute_app. f_equal.
  rewrite foldl_append_each. cbn [app].
  generalize (c :: cs). intros changes.
  induction changes as [|ch changes IH]; [done|].
  cbn [map concat app omap list_omap action_execute length replicate].
  by rewrite IH.
Qed.

(** ** The exit status of [apply] *)


(** ** The credential check of [plan] and [apply] *)

Section credential_check.
Variable validate_credentials : string → string → Outcome.

Lemma validate_users_accepted (strict : bool)
    (pre rest : list (string * UserState)) :
  Forall (seedr_accepted validate_credentials) pre →
  validate_users validate_credentials strict (pre ++ rest) =
  (map (fun entry => seedr_valid_line entry.1)
       (List.filter declares_seedr pre) ++
   (validate_users validate_credentials strict rest).1,
   (validate_users validate_credentials strict rest).2).
Proof.
  induction 1 as [|[name u] pre Hu _ IH]; cbn [app List.filter map].
  - by destruct (validate_users _ _ _).
  - cbn [validate_users]. unfold seedr_accepted, declares_seedr in *.
    cbn [snd fst] in *. destruct (user_seedr u) as [s|]; [|exact IH].
    rewrite Hu, IH. reflexivity.
Qed.

Lemma validate_users_no_exit (users : list (string * UserState)) :
  ∀ code, (validate_users validate_credentials false users).2 ≠ SysExit code.
Proof.
  intros code. induction users as [|[name u] users IH]; [done|].
  cbn [validate_users]. destruct (user_seedr u) as [s|]; [|exact IH].
  destruct (validate_credentials _ _) as [|[]]; try done;
    by destruct (validate_users _ _ _).
Qed.

(** X21. When the first tenant whose Seedr credentials are rejected with a
    [RuntimeError] comes after tenants whose credentials (if any) are
    accepted, [apply] greets those, prints the failure and exits with
    status 1 without checking anyone after; [plan] prints the same lines
    and goes on with the remaining tenants.  The check of [plan] never
    ends in [sys.exit] at all. *)
Theorem validate_users_first_failure
    (pre post : list (string * UserState)) (username : string)
    (u : UserState) (s : SeedrConfig) (msg : string) :
  Forall (seedr_accepted validate_credentials) pre →
  user_seedr u = Some s →
  validate_credentials (seedr_email s) (seedr_password s) =
    Raised (RuntimeError msg) →
  let users := pre ++ (username, u) :: post in
  let greeted :=
    map (fun entry => seedr_valid_line entry.1)
        (List.filter declares_seedr pre) in
  validate_users validate_credentials true users =
    (greeted ++ [seedr_failed_line username msg], SysExit 1) ∧
  validate_users validate_credentials false users =
    (greeted ++ seedr_failed_line username msg ::
       (validate_users validate_credentials false post).1,
     (validate_users validate_credentials false post).2) ∧
  ∀ code anyone,
    (validate_users validate_credentials false anyone).2 ≠ SysExit code.
Proof.
  intros Hpre Hs Hraised users greeted. subst users.
  rewrite !validate_users_accepted by done. fold greeted.
  cbn [validate_users]. rewrite Hs, Hraised. cbn [fst snd].
  split; [done|]. split.
  - by destruct (validate_users validate_credentials false post).
  - intros code anyone. apply validate_users_no_exit.
Qed.
End credential_check.

(** ** What the Seedr validator raises, and what the commands make of it *)

(** X22. [validate_credentials] turns a failed connection and a 401 answer
    into a [RuntimeError], which [apply] reports before exiting with
    status 1; any other HTTP error is raised by [raise_for_status()] as it
    is, so unless that exception is a [RuntimeError] neither [plan] nor
    [apply] catches it and the command ends with it. *)
Theorem seedr_errors_reach_the_commands (py_format : JValue → string)
    (type_error : JValue → string) (get_user : string → string → HttpGet)
    (username : string) (u : UserState) (s : SeedrConfig)
    (rest : list (string * UserState)) :
  user_seedr u = Some s →
  let check := fun email password =>
    outcome_of (validate_credentials py_format type_error get_user
                  email password) in
  match get_user (seedr_email s) (seedr_password s) with
  | RequestFailed e =>
      validate_users check true ((username, u) :: rest) =
      ([seedr_failed_line username ("Failed to connect to Seedr API: " +:+ e)],
       SysExit 1)
  | Responded status_code raise_for_status json =>
      (status_code = 401%Z →
       validate_users check true ((username, u) :: rest) =
       ([seedr_failed_line username
           ("Seedr authentication failed for '" +:+ seedr_email s +:+ "'")],
        SysExit 1)) ∧
      (status_code ≠ 401%Z →
       ∀ e strict,
         raise_for_status = Raised e →
         (∀ msg, e ≠ RuntimeError msg) →
         validate_users check strict ((username, u) :: rest) =
         ([], Uncaught e))
  end.
Proof.
  intros Hs check. subst check. cbn [validate_users]. rewrite Hs.
  unfold validate_credentials.
  destruct (get_user (seedr_email s) (seedr_password s))
    as [e|status_code raise_for_status json]; [reflexivity|].
  split.
  - intros ->. reflexivity.
  - intros Hcode e strict -> Hnot. apply Z.eqb_neq in Hcode. rewrite Hcode.
    cbn [outcome_of]. destruct e as [m|m|m|m]; try reflexivity.
    by destruct (Hnot m).
Qed.

(** ** Exported settings pasted back as overrides *)

Lemma pasted_lookup (export : list (string * JValue)) (k : string) :
  pasted export !! k = odict_get k export.
Proof.
  unfold pasted, odict_get.
  induction export as [|[k0 v0] export IH]; cbn [assoc_get].
  - apply lookup_empty.
  - rewrite list_to_map_cons. destruct (String.eqb k0 k) eqn:Hk.
    + apply String.eqb_eq in Hk as ->. apply lookup_insert_eq.
    + apply String.eqb_neq in Hk. by rewrite lookup_insert_ne.
Qed.

Lemma export_keys_untouched (config : gmap string JValue) (name : string)
    (keys : list string) :
  ∀ init,
    name ∉ map camel_to_snake keys →
    odict_get name
      (foldl (fun export key =>
                match config !! key with
                | Some v => odict_set (camel_to_snake key) v export
                | None => export
                end) init keys) =
    odict_get name init.
Proof.
  induction keys as [|key keys IH]; intros init Hnot; [done|].
  cbn [foldl map] in *. apply not_elem_of_cons in Hnot as [Hne Hnot].
  rewrite IH by done.
  destruct (config !! key); [|done]. by rewrite odict_get_set_ne.
Qed.

Lemma export_keys_lookup (config : gmap string JValue) (keys : list string)
    (k : string) :
  NoDup (map camel_to_snake keys) →
  k ∈ keys →
  odict_get (camel_to_snake k) (export_keys keys config) = config !! k.
Proof.
  unfold export_keys.
  assert (Hgen : ∀ init,
    NoDup (map camel_to_snake keys) → k ∈ keys →
    odict_get (camel_to_snake k)
      (foldl (fun export key =>
                match config !! key with
                | Some v => odict_set (camel_to_snake key) v export
                | None => export
                end) init keys) =
    match config !! k with
    | Some v => Some v
    | None => odict_get (camel_to_snake k) init
    end).
  { induction keys as [|key keys IH]; intros init Hnd Hin.
    - by apply elem_of_nil in Hin.
    - cbn [foldl map] in *. apply NoDup_cons in Hnd as [Hnot Hnd].
      apply elem_of_cons in Hin as [->|Hin].
      + rewrite export_keys_untouched by done.
        destruct (config !! key); [apply odict_get_set_eq|done].
      + rewrite IH by done. destruct (config !! k); [done|].
        destruct (config !! key); [|done]. apply odict_get_set_ne.
        intros Heq. apply Hnot. rewrite Heq.
        apply list_elem_of_In, in_map, list_elem_of_In, Hin. }
  intros Hnd Hin. rewrite Hgen by done. by destruct (config !! k).
Qed.

(** X23. What [import] exports can be pasted back: for every setting a
    tenant can override (three naming keys, two media-management keys), the
    YAML key [import] derives from the API key is the one the planner
    reads, so the override found in the pasted block is the value the
    service held when it was exported (and none when it held none). *)
Theorem import_export_round_trip (config : gmap string JValue) :
  (∀ yaml_key api_key,
     (yaml_key, api_key) ∈ naming_field_map →
     camel_to_snake api_key = yaml_key ∧
     override_for naming_field_map
       (pasted (export_keys naming_export_keys config)) api_key =
     config !! api_key) ∧
  (∀ yaml_key api_key,
     (yaml_key, api_key) ∈ mm_field_map →
     camel_to_snake api_key = yaml_key ∧
     override_for mm_field_map
       (pasted (export_keys mm_export_keys config)) api_key =
     config !! api_key).
Proof.
  assert (Hn : NoDup (map camel_to_snake naming_export_keys))
    by decide_by_computing.
  assert (Hm : NoDup (map camel_to_snake mm_export_keys))
    by decide_by_computing.
  split; intros yaml_key api_key Hin;
    repeat (apply elem_of_cons in Hin as [[= -> ->]|Hin]);
    try (by apply elem_of_nil in Hin);
    (split; [reflexivity|]);
    unfold override_for; simpl (List.find _ _); cbv beta iota;
    rewrite pasted_lookup.
  - apply (export_keys_lookup config naming_export_keys "renameMovies" Hn).
    member_by_computing.
  - apply (export_keys_lookup config naming_export_keys
             "standardMovieFormat" Hn).
    member_by_computing.
  - apply (export_keys_lookup config naming_export_keys
             "movieFolderFormat" Hn).
    member_by_computing.
  - apply (export_keys_lookup config mm_export_keys "recycleBin" Hm).
    member_by_computing.
  - apply (export_keys_lookup config mm_export_keys "deleteEmptyFolders" Hm).
    member_by_computing.
Qed.

(** ** Request URLs *)

Lemma rstrip_slash_slashes (s : string) (n : nat) :
  rstrip_slash (s +:+ slashes n) = rstrip_slash s.
Proof.
  induction s as [|c s IH].
  - rewrite string_app_nil. induction n as [|n IHn]; [done|].
    cbn [slashes rstrip_slash]. rewrite IHn. reflexivity.
  - rewrite string_app_cons. cbn [rstrip_slash]. by rewrite IH.
Qed.

Lemma lstrip_slash_slashes (m : nat) (path : string) :
  lstrip_slash (slashes m +:+ path) = lstrip_slash path.
Proof.
  induction m as [|m IH]; cbn [slashes].
  - by rewrite string_app_nil.
  - rewrite string_app_cons. cbn [lstrip_slash].
    by rewrite Ascii.eqb_refl.
Qed.

(** X24. The URL a client requests does not depend on slashes at the end
    of the configured base URL or at the start of the path: however many
    are added, the Radarr/Sonarr client and the Prowlarr client build the
    same URL, with the base and the API prefix joined by one slash. *)
Theorem client_urls_ignore_extra_slashes (base api_key path : string)
    (n m : nat) :
  ArrClient_url (new_ArrClient (base +:+ slashes n) api_key)
                (slashes m +:+ path) =
    ArrClient_url (new_ArrClient base api_key) path ∧
  ProwlarrClient_url (new_ProwlarrClient (base +:+ slashes n) api_key)
                     (slashes m +:+ path) =
    ProwlarrClient_url (new_ProwlarrClient base api_key) path ∧
  new_ArrClient (base +:+ slashes n) api_key = new_ArrClient base api_key.
Proof.
  unfold ArrClient_url, ProwlarrClient_url, new_ArrClient, new_ProwlarrClient.
  cbn [arr_base_url prowlarr_base_url].
  by rewrite rstrip_slash_slashes, lstrip_slash_slashes.
Qed.

(** ** What [display_plan] shows *)


(** ** The deferred steps of reference sync *)

Section reference_step_facts.
Variable World : Type.
Variable get_custom_formats : ArrClient → World → result (list CustomFormat).
Variable create_custom_format :
  ArrClient → string → gmap string JValue → World →
  World * result CustomFormat.

Lemma sync_custom_formats_loop_spec (target_client : ArrClient)
    (t_names : gmap string CustomFormat) (ref_cfs : list CustomFormat) :
  ∀ cf_id_map w w' cf_id_map',
    sync_custom_formats_loop create_custom_format target_client t_names
      ref_cfs cf_id_map w = (w', cf_id_map', Returned) →
    (∀ k, is_Some (cf_id_map !! k) ∨ k ∈ map cf_id ref_cfs →
          is_Some (cf_id_map' !! k)) ∧
    (∀ k, k ∉ map cf_id ref_cfs → cf_id_map' !! k = cf_id_map !! k) ∧
    (NoDup (map cf_id ref_cfs) →
     ∀ r t, r ∈ ref_cfs → t_names !! cf_name r = Some t →
            cf_id_map' !! cf_id r = Some (cf_id t)) ∧
    ((∀ r, r ∈ ref_cfs → is_Some (t_names !! cf_name r)) → w' = w).
Proof.
  induction ref_cfs as [|ref_cf rest IH]; intros m w w' m' Hrun.
  - cbn in Hrun. injection Hrun as <- <-. repeat split; try done.
    + intros k [Hk|Hk]; [done|]. by apply elem_of_nil in Hk.
    + intros _ r t Hr. by apply elem_of_nil in Hr.
  - cbn [sync_custom_formats_loop] in Hrun. cbn [map].
    assert (Hstep : ∃ id w1,
      sync_custom_formats_loop create_custom_format target_client t_names
        rest (<[cf_id ref_cf := id]> m) w1 = (w', m', Returned) ∧
      (∀ t, t_names !! cf_name ref_cf = Some t → id = cf_id t ∧ w1 = w)).
    { destruct (t_names !! cf_name ref_cf) as [t|].
      - exists (cf_id t), w. split; [done|]. by intros ? [= <-].
      - destruct (create_custom_format _ _ _ _) as [w1 [e|created]];
          [done|].
        exists (cf_id created), w1. by split. }
    destruct Hstep as (id & w1 & Hrest & Hknown).
    destruct (IH _ _ _ _ Hrest) as (Hdom & Hframe & Hexact & Hworld).
    split; [|split; [|split]].
    + intros k [Hk|Hk].
      * apply Hdom. left. destruct (decide (cf_id ref_cf = k)) as [->|Hne].
        -- rewrite lookup_insert_eq. by eexists.
        -- by rewrite lookup_insert_ne.
      * apply elem_of_cons in Hk as [->|Hk].
        -- apply Hdom. left. rewrite lookup_insert_eq. by eexists.
        -- apply Hdom. by right.
    + intros k [Hne Hk]%not_elem_of_cons.
      rewrite Hframe by done. by rewrite lookup_insert_ne.
    + intros [Hnot Hnd]%NoDup_cons r t Hr Ht.
      apply elem_of_cons in Hr as [->|Hr].
      * rewrite Hframe by done. rewrite lookup_insert_eq.
        by destruct (Hknown t Ht) as [-> _].
      * by apply Hexact.
    + intros Hall.
      destruct (Hall ref_cf) as [t Ht]; [left|].
      destruct (Hknown t Ht) as [_ ->]. apply Hworld.
      intros r Hr. apply Hall. by right.
Qed.

Lemma sync_custom_formats_loop_creates (target_client : ArrClient)
    (t_names : gmap string CustomFormat) (ref_cfs : list CustomFormat) :
  ∀ cf_id_map w w' cf_id_map',
    sync_custom_formats_loop create_custom_format target_client t_names
      ref_cfs cf_id_map w = (w', cf_id_map', Returned) →
    let missing :=
      List.filter (fun r => negb (cf_matched t_names r)) ref_cfs in
    let sent := run_creates create_custom_format target_client missing w in
    w' = sent.1 ∧
    Forall2 (fun r answer =>
               ∃ created,
                 answer = inr created ∧
                 (NoDup (map cf_id ref_cfs) →
                  cf_id_map' !! cf_id r = Some (cf_id created)))
            missing sent.2.
Proof.
  induction ref_cfs as [|ref_cf rest IH]; intros m w w' m' Hrun.
  - cbn in Hrun. injection Hrun as <- <-. split; [done|constructor].
  - cbn [sync_custom_formats_loop] in Hrun. cbv zeta.
    cbn [List.filter map].
    destruct (t_names !! cf_name ref_cf) as [t|] eqn:Ht.
    + assert (Hm : cf_matched t_names ref_cf = true)
        by (unfold cf_matched; rewrite Ht; apply bool_decide_eq_true_2;
            by eexists).
      rewrite Hm. cbn [negb].
      destruct (IH _ _ _ _ Hrun) as [Hw Hall]. split; [exact Hw|].
      eapply Forall2_impl; [exact Hall|].
      intros r answer (created & -> & Hid). exists created. split; [done|].
      intros [_ Hnd]%NoDup_cons. by apply Hid.
    + assert (Hm : cf_matched t_names ref_cf = false)
        by (unfold cf_matched; rewrite Ht; apply bool_decide_eq_false_2;
            by intros [? ?]).
      rewrite Hm. cbn [negb run_creates].
      destruct (create_custom_format target_client (cf_name ref_cf)
                  (cf_rest ref_cf) w) as [w1 [e|created]]; [done|].
      destruct (IH _ _ _ _ Hrun) as [Hw Hall].
      destruct (sync_custom_formats_loop_spec _ _ _ _ _ _ _ Hrun)
        as (_ & Hframe & _).
      destruct (run_creates create_custom_format target_client
                  (List.filter (fun r => negb (cf_matched t_names r)) rest)
                  w1) as [w2 answers].
      cbn [fst snd] in *. split; [exact Hw|]. constructor.
      * exists created. split; [done|]. intros [Hnot _]%NoDup_cons.
        rewrite Hframe by done. apply lookup_insert_eq.
      * eapply Forall2_impl; [exact Hall|].
        intros r answer (created' & -> & Hid). exists created'.
        split; [done|]. intros [_ Hnd]%NoDup_cons. by apply Hid.
Qed.

(** X26. [_sync_custom_formats] creates on the target the reference
    custom formats whose name the target does not hold when the step
    runs, in reference order, and nothing else.  When it returns, every
    one of those requests was answered, and the shared id table has an
    entry for the id of every reference custom format: with distinct
    reference ids, the id the service returned for a format just created,
    and the id of the same-named target format otherwise; its entries
    under other ids are as before.  When no reference format is missing
    from the target, nothing is sent to the service. *)
Theorem sync_custom_formats_table (target_client : ArrClient)
    (ref_cfs t_cfs : list CustomFormat) (cf_id_map cf_id_map' : gmap Z Z)
    (w w' : World) :
  get_custom_formats target_client w = inr t_cfs →
  _sync_custom_formats get_custom_formats create_custom_format target_client
    ref_cfs cf_id_map w = (w', cf_id_map', Returned) →
  let missing :=
    List.filter (fun r => negb (cf_matched (index_by_name cf_name t_cfs) r))
                ref_cfs in
  let sent := run_creates create_custom_format target_client missing w in
  w' = sent.1 ∧
  Forall2 (fun r answer =>
             ∃ created,
               answer = inr created ∧
               (NoDup (map cf_id ref_cfs) →
                cf_id_map' !! cf_id r = Some (cf_id created)))
          missing sent.2 ∧
  (∀ r, r ∈ ref_cfs → is_Some (cf_id_map' !! cf_id r)) ∧
  (∀ k, k ∉ map cf_id ref_cfs → cf_id_map' !! k = cf_id_map !! k) ∧
  (NoDup (map cf_id ref_cfs) →
   ∀ r t, r ∈ ref_cfs →
          index_by_name cf_name t_cfs !! cf_name r = Some t →
          cf_id_map' !! cf_id r = Some (cf_id t)) ∧
  ((∀ r, r ∈ ref_cfs → cf_name r ∈ map cf_name t_cfs) → w' = w).
Proof.
  intros Hget Hrun missing sent.
  unfold _sync_custom_formats in Hrun. rewrite Hget in Hrun.
  destruct (sync_custom_formats_loop_creates _ _ _ _ _ _ _ Hrun)
    as [Hw Hsent].
  destruct (sync_custom_formats_loop_spec _ _ _ _ _ _ _ Hrun)
    as (Hdom & Hframe & Hexact & Hworld).
  split; [exact Hw|]. split; [exact Hsent|].
  split; [|split; [|split]]; try done.
  - intros r Hr. apply Hdom. right.
    apply list_elem_of_In, in_map, list_elem_of_In, Hr.
  - intros Hall. apply Hworld. intros r Hr.
    by apply index_by_name_is_Some, Hall.
Qed.
End reference_step_facts.

Lemma cf_map_key_id (id : Z) :
  cf_map_key (JNum (inject_Z id)) = inr (Some id).
Proof.
  unfold cf_map_key. rewrite Qfloor_Z, Qeq_bool_refl. reflexivity.
Qed.

Lemma remap_each_known (error_text : JValue → string) (cf_id_map : gmap Z Z)
    (items : list JValue) :
  forallb (fun fi => match fi with JObj _ => true | _ => false end) items
    = true →
  (∀ fi, fi ∈ items →
         ∃ id, obj_get fi "format" = JNum (inject_Z id) ∧
               is_Some (cf_id_map !! id)) →
  ∃ items',
    remap_each error_text cf_id_map items = inr items' ∧
    Forall2 (fun fi fi' =>
               (∃ id new,
                  obj_get fi "format" = JNum (inject_Z id) ∧
                  cf_id_map !! id = Some new ∧
                  obj_get fi' "format" = JNum (inject_Z new)) ∧
               ∀ k, k ≠ "format" → obj_get fi' k = obj_get fi k)
            items items'.
Proof.
  induction items as [|fi items IH]; intros Hobj Hknown.
  - exists []. split; [done|constructor].
  - cbn [forallb] in Hobj. apply andb_true_iff in Hobj as [Hfi Hobj].
    destruct IH as (items' & Hrest & Hall); [done| |].
    { intros x Hx. apply Hknown. by right. }
    destruct (Hknown fi) as (id & Hid & [new Hnew]); [left|].
    destruct fi as [| | | | |members]; try discriminate.
    cbn [obj_get] in Hid.
    exists (JObj (odict_set "format" (JNum (inject_Z new)) members) :: items').
    split.
    + cbn [remap_each remap_format_item]. rewrite Hid, cf_map_key_id.
      cbn [bind_result]. rewrite Hnew. cbn [bind_result]. by rewrite Hrest.
    + constructor; [|done]. split.
      * exists id, new. split; [done|]. split; [done|].
        cbn [obj_get].
        pose proof (odict_get_set_eq members "format" (JNum (inject_Z new)))
          as Hget.
        unfold odict_get in Hget. by rewrite Hget.
      * intros k Hk. cbn [obj_get].
        pose proof (odict_get_set_ne members "format" k
                      (JNum (inject_Z new))) as Hget.
        unfold odict_get in Hget. rewrite Hget; [done|]. congruence.
Qed.

Section profile_payloads.
Variable World : Type.
Variable get_custom_formats : ArrClient → World → result (list CustomFormat).
Variable create_custom_format :
  ArrClient → string → gmap string JValue → World →
  World * result CustomFormat.

(** X27. The two deferred steps compose through the shared id table: once
    [_sync_custom_formats] has returned, the payload [_sync_quality_profiles]
    builds for a reference profile whose format items all name reference
    custom formats is built without error, names in every item the id the
    table now holds for the format the item named, and is otherwise the
    reference profile: the other keys of every item and of the profile are
    unchanged. *)
Theorem synced_profiles_use_target_formats (error_text : JValue → string)
    (target_client : ArrClient) (ref_cfs : list CustomFormat)
    (cf_id_map cf_id_map' : gmap Z Z) (w w' : World)
    (rest : gmap string JValue) :
  _sync_custom_formats get_custom_formats create_custom_format target_client
    ref_cfs cf_id_map w = (w', cf_id_map', Returned) →
  format_items_listed rest = true →
  (∀ fi, fi ∈ format_items rest →
         ∃ r, r ∈ ref_cfs ∧ obj_get fi "format" = JNum (inject_Z (cf_id r))) →
  ∃ payload,
    remap_format_items error_text cf_id_map' rest = inr payload ∧
    (∀ k, k ≠ "formatItems" → payload !! k = rest !! k) ∧
    Forall2 (fun fi fi' =>
               (∃ id new,
                  obj_get fi "format" = JNum (inject_Z id) ∧
                  cf_id_map' !! id = Some new ∧
                  obj_get fi' "format" = JNum (inject_Z new)) ∧
               ∀ k, k ≠ "format" → obj_get fi' k = obj_get fi k)
            (format_items rest) (format_items payload).
Proof.
  intros Hrun Hlisted Hrefs. unfold _sync_custom_formats in Hrun.
  destruct (get_custom_formats target_client w) as [e|t_cfs]; [done|].
  destruct (sync_custom_formats_loop_spec _ _ _ _ _ _ _ _ _ Hrun)
    as (Hdom & _).
  unfold format_items_listed in Hlisted.
  unfold remap_format_items, format_items in *.
  destruct (rest !! "formatItems") as [v|] eqn:Hitems.
  - destruct v as [| | | |items|]; try discriminate.
    destruct (remap_each_known error_text cf_id_map' items Hlisted)
      as (items' & Hremap & Hall).
    { intros fi Hfi. destruct (Hrefs fi Hfi) as (r & Hr & Hid).
      exists (cf_id r). split; [done|]. apply Hdom. right.
      apply list_elem_of_In, in_map, list_elem_of_In, Hr. }
    exists (<["formatItems" := JArr items']> rest). rewrite Hremap.
    split; [done|]. split.
    + intros k Hk. by rewrite lookup_insert_ne.
    + by rewrite lookup_insert_eq.
  - exists rest. rewrite Hitems. split; [done|]. split; [done|constructor].
Qed.
End profile_payloads.

(** ** The properties at concrete inputs *)

Lemma search_api_key_first_witness :
  search_api_key "<Config>" = None ∧
  search_api_key example_config_xml = Some "abc123".
Proof.
  split; [reflexivity|].
  exact (search_api_key_first "<Config>" "abc123" "</Config>"
           eq_refl eq_refl eq_refl).
Defined.

Lemma extract_api_key_cache_hit_witness :
  extract_api_key_cached id example_docker ∅ "radarr" "." =
    (example_cache, inr "abc123") ∧
  cached_key id example_cache "." "radarr" = Some "abc123".
Proof.
  assert (Hrun : extract_api_key_cached id example_docker ∅ "radarr" "." =
                 (example_cache, inr "abc123")) by reflexivity.
  split; [exact Hrun|].
  exact (proj1 (proj2 (extract_api_key_cache_hit id example_docker ∅
                         example_cache "radarr" "." "abc123" Hrun))).
Defined.


Lemma plan_recyclarr_changes_witness :
  mkChange "create" "radarr-alice" ∈
    plan_recyclarr example_recyclarr_file example_recyclarr_state ∧
  ∃ f username,
    change_name (mkChange "create" "radarr-alice") =
    recyclarr_prefix f +:+ username.
Proof.
  assert (Hin : mkChange "create" "radarr-alice" ∈
                plan_recyclarr example_recyclarr_file example_recyclarr_state)
    by member_by_computing.
  split; [exact Hin|].
  destruct (plan_recyclarr_changes example_recyclarr_file
              example_recyclarr_state (mkChange "create" "radarr-alice") Hin)
    as (r & f & username & user & svc & _ & _ & _ & _ & Hname & _).
  exists f, username. exact Hname.
Defined.

Lemma resolve_state_tenants_witness :
  resolve_state example_load_ok example_extract "arr-state.yml" =
    inr example_resolved_state ∧
  odict_keys (state_users example_resolved_state) = ["alice"; "bob"].
Proof.
  split; [reflexivity|].
  exact (proj1 (resolve_state_tenants example_extract example_load_ok
                  "arr-state.yml" example_doc_ok example_resolved_state
                  eq_refl ltac:(decide_by_computing) eq_refl)).
Defined.

Lemma resolve_references_identity_witness :
  NoDup (odict_keys chain_backward) ∧
  ∃ u', odict_get "A" chain_backward_resolved = Some u' ∧
        user_identity u' = user_identity (example_user "A" "B" ∅).
Proof.
  assert (Hnd : NoDup (odict_keys chain_backward)) by decide_by_computing.
  split; [exact Hnd|].
  exact (resolve_references_identity chain_backward chain_backward_resolved
           "A" (example_user "A" "B" ∅) Hnd eq_refl eq_refl).
Defined.

Lemma resolve_references_without_references_witness :
  resolve_references [("C", example_user "C" EmptyString example_naming)] =
  inr [("C", example_user "C" EmptyString example_naming)].
Proof.
  apply (resolve_references_without_references
           [("C", example_user "C" EmptyString example_naming)]).
  intros k u Hk. unfold odict_get in Hk. cbn [assoc_get] in Hk.
  destruct (String.eqb "C" k); [|discriminate].
  injection Hk as <-. reflexivity.
Defined.

Lemma compute_plan_after_resolve_witness :
  resolve_state example_load_ok example_extract "arr-state.yml" =
    inr example_resolved_state ∧
  (∃ ref_user, users_index example_resolved_state "bob" = inr ref_user) ∧
  compute_plan example_fetch (fun _ => []) remove_dups
    example_resolved_state (Some "zed") = inl (KeyError "zed").
Proof.
  pose proof (compute_plan_after_resolve example_load_ok example_extract
                example_fetch (fun _ => []) remove_dups "arr-state.yml"
                example_resolved_state (Some "zed") eq_refl)
    as (Hrefs & _ & Hfilter).
  split; [reflexivity|]. split.
  - apply (Hrefs "alice"
             (mkUserState "alice" None None None EmptyString false "bob"));
      [left|reflexivity].
  - exact (Hfilter "zed" eq_refl eq_refl).
Defined.

Lemma compute_plan_shape_witness :
  compute_plan example_fetch (fun _ => []) remove_dups example_state None =
    inr example_computed_plan ∧
  sublist (map up_username (cp_users example_computed_plan))
          (processed_names example_state None).
Proof.
  split; [reflexivity|].
  exact (proj1 (proj2 (proj2 (compute_plan_shape example_fetch (fun _ => [])
                                remove_dups example_state None
                                example_computed_plan eq_refl)))).
Defined.

Lemma dict_wf_empty : dict_wf ∅.
Proof. intros k v Hk. rewrite lookup_empty in Hk. discriminate. Qed.

Lemma reference_sync_converged_witness :
  map (fun a => (action_type a, action_execute a))
      (plan_reference_sync example_fetch example_target example_target "bob"
         (example_service ∅)) =
  [(NOOP, None); (NOOP, None); (NOOP, None); (NOOP, None); (NOOP, None)].
Proof.
  exact (reference_sync_converged example_fetch example_target example_target
           "bob" (example_service ∅) eq_refl dict_wf_empty dict_wf_empty
           ltac:(constructor) eq_refl eq_refl).
Defined.

Lemma seedr_payload_round_trip_witness :
  plan_download_client example_stored_fetch example_target example_seedr =
  mkAction NOOP "Download client" "Seedr" "up to date" None [].
Proof.
  exact (seedr_payload_round_trip example_stored_fetch example_target
           example_seedr 7 [] [] ltac:(constructor) eq_refl).
Defined.

Lemma recyclarr_steps_repeat_witness :
  apply_steps (_add_recyclarr_to_plan example_recyclarr_file
                 (mkChangePlan None [] None) example_recyclarr_state) =
  [Op_apply_recyclarr example_recyclarr_state].
Proof.
  exact (recyclarr_steps_repeat example_recyclarr_file
           (mkChangePlan None [] None) example_recyclarr_state eq_refl).
Defined.

Lemma validate_users_first_failure_witness :
  Forall (seedr_accepted example_validate)
         [("alice", example_tenant "alice" "a@x.com")] ∧
  validate_users example_validate true
    [("alice", example_tenant "alice" "a@x.com");
     ("bob", example_tenant "bob" "b@x.com");
     ("carol", example_tenant "carol" "a@x.com")] =
  ([seedr_valid_line "alice";
    seedr_failed_line "bob" "Seedr authentication failed"], SysExit 1).
Proof.
  assert (Hpre : Forall (seedr_accepted example_validate)
                        [("alice", example_tenant "alice" "a@x.com")])
    by (constructor; [reflexivity|constructor]).
  split; [exact Hpre|].
  exact (proj1 (validate_users_first_failure example_validate
                  [("alice", example_tenant "alice" "a@x.com")]
                  [("carol", example_tenant "carol" "a@x.com")]
                  "bob" (example_tenant "bob" "b@x.com")
                  (mkSeedrConfig "b@x.com" "p1" "/dl" true)
                  "Seedr authentication failed" Hpre eq_refl eq_refl)).
Defined.

Lemma seedr_errors_reach_the_commands_witness :
  user_seedr (example_tenant "bob" "b@x.com") =
    Some (mkSeedrConfig "b@x.com" "p1" "/dl" true) ∧
  validate_users
    (fun email password =>
       outcome_of (validate_credentials example_error_text example_error_text
                     example_get_user email password))
    false [("bob", example_tenant "bob" "b@x.com")] =
  ([], Uncaught (OtherError "500 Server Error")).
Proof.
  split; [reflexivity|].
  pose proof (seedr_errors_reach_the_commands example_error_text
                example_error_text example_get_user "bob"
                (example_tenant "bob" "b@x.com")
                (mkSeedrConfig "b@x.com" "p1" "/dl" true) [] eq_refl)
    as Hcases.
  cbv zeta in Hcases. cbn [example_get_user] in Hcases.
  apply (proj2 Hcases); [discriminate|reflexivity|discriminate].
Defined.

Lemma sync_custom_formats_table_witness :
  example_formats_run =
    (example_formats_run.1.1, example_formats_run.1.2, Returned) ∧
  example_formats_run.1.1 =
    example_formats_world ++ [mkCustomFormat 101 "HDR" ∅] ∧
  example_formats_run.1.2 !! 1%Z = Some 11%Z ∧
  example_formats_run.1.2 !! 2%Z = Some 101%Z.
Proof.
  assert (Hrun : example_formats_run =
                 (example_formats_run.1.1, example_formats_run.1.2, Returned))
    by reflexivity.
  split; [exact Hrun|].
  assert (Hnd : NoDup (map cf_id example_ref_cfs)) by decide_by_computing.
  destruct (sync_custom_formats_table (list CustomFormat)
              example_get_custom_formats example_create_custom_format
              example_target example_ref_cfs example_formats_world ∅
              example_formats_run.1.2 example_formats_world
              example_formats_run.1.1 eq_refl Hrun)
    as (Hw & Hsent & _ & _ & Hexact & _).
  split; [exact Hw|]. split.
  - apply (Hexact Hnd (mkCustomFormat 1 "x265" ∅)
             (mkCustomFormat 11 "x265" ∅)); [member_by_computing|reflexivity].
  - apply Forall2_cons_1 in Hsent as [(created & Hcreated & Hid) _].
    injection Hcreated as <-. exact (Hid Hnd).
Defined.

Lemma synced_profiles_use_target_formats_witness :
  format_items_listed example_profile_rest = true ∧
  ∃ payload,
    remap_format_items example_error_text example_formats_run.1.2
      example_profile_rest = inr payload.
Proof.
  split; [reflexivity|].
  destruct (synced_profiles_use_target_formats (list CustomFormat)
              example_get_custom_formats example_create_custom_format
              example_error_text example_target example_ref_cfs ∅
              example_formats_run.1.2 example_formats_world
              example_formats_run.1.1 example_profile_rest
              eq_refl eq_refl) as (payload & Hpayload & _).
  - intros fi Hfi. exists (mkCustomFormat 2 "HDR" ∅).
    split; [member_by_computing|].
    change (format_items example_profile_rest)
      with [JObj [("format", JNum 2); ("score", JNum 50)]] in Hfi.
    apply list_elem_of_singleton in Hfi as ->. reflexivity.
  - exists payload. exact Hpayload.
Defined.

(** ** What the resolver makes of a tenant's blocks *)

Lemma resolve_references_keeps_identity
    (users users' : list (string * UserState)) (k : string) (u : UserState) :
  NoDup (odict_keys users) →
  resolve_references users = inr users' →
  odict_get k users = Some u →
  ∃ u', odict_get k users' = Some u' ∧ user_identity u' = user_identity u.
Proof.
  intros Hnd Hrun Hk.
  pose proof (resolve_keys_at _ _ _ _ _ Hrun Hnd (odict_get_Some_key _ _ _ Hk) Hk)
    as Hat.
  destruct (str_truthy (user_reference u)).
  - destruct Hat as (x & Hx & _). eexists. split; [exact Hx|].
    apply apply_reference_identity.
  - by exists u.
Qed.

Section block_facts.
Variable extract_api_key : string → result string.

Lemma parse_users_parsed (users_raw : list (string * RawUser)) :
  ∀ acc users T udata,
    parse_users extract_api_key users_raw acc = inr users →
    NoDup users_raw.*1 → (T, udata) ∈ users_raw →
    ∃ u, odict_get T users = Some u ∧
         parse_user extract_api_key T udata = inr u.
Proof.
  induction users_raw as [|[username ud] rest IH]; intros acc users T udata;
    cbn [parse_users fmap list_fmap fst].
  - intros _ _ H. by apply elem_of_nil in H.
  - destruct (parse_user _ _ _) as [e|user] eqn:Huser; [discriminate|].
    cbn [bind_result]. intros Hrest Hnd Hin.
    apply NoDup_cons in Hnd as [Hnot Hnd].
    apply elem_of_cons in Hin as [[= -> ->]|Hin].
    + exists user. split; [|done].
      rewrite (parse_users_other _ _ _ _ _ Hrest Hnot). apply odict_get_set_eq.
    + by eapply IH.
Qed.

Lemma resolve_api_key_spec (d : RawService) (svc : ServiceConfig) :
  _resolve_api_key extract_api_key (_parse_service (Some d)) =
    inr (Some svc) →
  raw_service_empty d = false ∧
  svc_url svc = default EmptyString (raw_url d) ∧
  svc_container svc = default EmptyString (raw_container d) ∧
  svc_root_folders svc = default [] (raw_root_folders d) ∧
  if str_truthy (default EmptyString (raw_api_key d))
     || negb (str_truthy (svc_container svc))
  then svc_api_key svc = default EmptyString (raw_api_key d)
  else extract_api_key (svc_container svc) = inr (svc_api_key svc).
Proof.
  unfold _parse_service.
  destruct (raw_service_empty d); [discriminate|].
  unfold _resolve_api_key.
  cbn [svc_api_key svc_container svc_url svc_root_folders svc_naming
       svc_media_management].
  destruct (str_truthy (default EmptyString (raw_api_key d))) eqn:Hkey;
    cbn [negb andb orb].
  - intros [= <-]. cbn. by repeat split.
  - destruct (str_truthy (default EmptyString (raw_container d))) eqn:Hc.
    + destruct (extract_api_key _) as [e|key] eqn:Hx; [discriminate|].
      cbn [bind_result]. intros [= <-]. cbn. rewrite Hc. by repeat split.
    + intros [= <-]. cbn. rewrite Hc. by repeat split.
Qed.

Lemma parse_user_service (username : string) (udata : RawUser) (u : UserState)
    (f : Family) :
  parse_user extract_api_key username udata = inr u →
  user_seedr u = match _parse_seedr (raw_seedr udata) with
                 | inr s => s
                 | inl _ => None
                 end ∧
  _resolve_api_key extract_api_key (_parse_service (raw_service f udata)) =
    inr (user_service f u).
Proof.
  unfold parse_user.
  destruct (_parse_seedr _) as [e|seedr]; [discriminate|]. cbn [bind_result].
  destruct (_resolve_api_key _ (_parse_service (raw_radarr udata)))
    as [e|radarr] eqn:Hr; [discriminate|]. cbn [bind_result].
  destruct (_resolve_api_key _ (_parse_service (raw_sonarr udata)))
    as [e|sonarr] eqn:Hs; [discriminate|]. cbn [bind_result].
  intros [= <-]. split; [done|]. by destruct f.
Qed.

Variable load_yaml : string → result RawDoc.

(** X28. In the state [resolve_state] returns, a service of a tenant comes
    from the block the tenant declares for it: URL, container and root
    folders as declared (empty when absent), and as API key the declared
    one whenever one is declared or no container is named; only otherwise
    the key [extract_api_key] returned for the container.  Seedr
    credentials are the declared ones, with "/downloads" and [True] as
    defaults. *)
Theorem resolve_state_blocks (config_path : string) (raw : RawDoc)
    (state : DesiredState) (k : string) (udata : RawUser) (u : UserState) :
  load_yaml config_path = inr raw →
  NoDup (default [] (raw_users raw)).*1 →
  resolve_state load_yaml extract_api_key config_path = inr state →
  (k, udata) ∈ default [] (raw_users raw) →
  odict_get k (state_users state) = Some u →
  (∀ f svc,
     user_service f u = Some svc →
     ∃ d, raw_service f udata = Some d ∧
          raw_service_empty d = false ∧
          svc_url svc = default EmptyString (raw_url d) ∧
          svc_container svc = default EmptyString (raw_container d) ∧
          svc_root_folders svc = default [] (raw_root_folders d) ∧
          if str_truthy (default EmptyString (raw_api_key d))
             || negb (str_truthy (svc_container svc))
          then svc_api_key svc = default EmptyString (raw_api_key d)
          else extract_api_key (svc_container svc) = inr (svc_api_key svc)) ∧
  (∀ s,
     user_seedr u = Some s →
     ∃ d, raw_seedr udata = Some d ∧
          raw_email d = Some (seedr_email s) ∧
          raw_password d = Some (seedr_password s) ∧
          seedr_download_directory s =
            default "/downloads" (raw_download_directory d) ∧
          seedr_delete_from_cloud s = default true (raw_delete_from_cloud d)).
Proof.
  intros Hload Hnd Hrun Hin Hk.
  destruct (resolve_state_users _ _ _ _ Hrun) as (raw' & users & Hload' & Hparse & Href).
  rewrite Hload in Hload'. injection Hload' as <-.
  destruct (parse_users_parsed _ _ _ _ _ Hparse Hnd Hin) as (u0 & Hu0 & Hparsed).
  destruct (resolve_references_keeps_identity users (state_users state) k u0)
    as (u' & Hu' & Hid);
    [by eapply parse_users_NoDup|done|done|].
  rewrite Hk in Hu'. injection Hu' as <-.
  unfold user_identity in Hid.
  injection Hid as _ Hseedr _ _ _ Hradarr Hsonarr.
  split.
  - intros f svc Hsvc.
    destruct (parse_user_service _ _ _ f Hparsed) as [_ Hres].
    assert (Hconn : service_connection <$> user_service f u =
                    service_connection <$> user_service f u0)
      by (by destruct f).
    rewrite Hsvc in Hconn.
    destruct (user_service f u0) as [svc0|] eqn:Hsvc0; [|discriminate].
    injection Hconn as Hurl Hkey Hcont Hroots.
    destruct (raw_service f udata) as [d|] eqn:Hd; [|discriminate].
    exists d. split; [done|].
    destruct (resolve_api_key_spec d svc0 Hres) as (He & H1 & H2 & H3 & H4).
    rewrite Hurl, Hkey, Hcont, Hroots. done.
  - intros s Hs. rewrite Hs in Hseedr.
    destruct (parse_user_service _ _ _ Radarr Hparsed) as [Hsd _].
    rewrite <- Hseedr in Hsd. unfold _parse_seedr in Hsd.
    destruct (raw_seedr udata) as [d|]; [|discriminate].
    exists d. split; [done|].
    destruct (raw_seedr_empty d); [discriminate|].
    destruct (raw_email d) as [email|]; [|discriminate].
    destruct (raw_password d) as [password|]; [|discriminate].
    cbn in Hsd. by injection Hsd as ->.
Qed.
End block_facts.

Lemma resolve_state_blocks_witness :
  resolve_state example_load_container example_extract_ok "arr-state.yml" =
    inr example_state_container ∧
  ∀ f svc,
    user_service f
      (mkUserState "alice" None
         (Some (mkServiceConfig "http://radarr:7878" "abc123" "radarr" [] ∅ ∅))
         None EmptyString false EmptyString) = Some svc →
    ∃ d, raw_service f
           (mkRawUser None
              (Some (mkRawService (Some "http://radarr:7878") None
                       (Some "radarr") None None None))
              None None None None) = Some d ∧
         svc_url svc = default EmptyString (raw_url d).
Proof.
  split; [reflexivity|]. intros f svc Hsvc.
  destruct (proj1 (resolve_state_blocks example_extract_ok
                     example_load_container "arr-state.yml"
                     example_doc_container example_state_container "alice"
                     _ _ eq_refl ltac:(decide_by_computing) eq_refl
                     ltac:(member_by_computing) eq_refl) f svc Hsvc)
    as (d & Hd & _ & Hurl & _).
  exists d. by split.
Defined.

Lemma build_app_payload_converges_witness :
  build_app_payload example_schemas "Radarr (alice)" "Radarr"
    "http://prowlarr:9696" "http://radarr:7878/" "k1" None =
    inr example_app_payload ∧
  _get_field_value (map stored_field (payload_fields example_app_payload))
    "baseUrl" = JStr "http://radarr:7878/".
Proof.
  assert (Hbuilt :
    build_app_payload example_schemas "Radarr (alice)" "Radarr"
      "http://prowlarr:9696" "http://radarr:7878/" "k1" None =
    inr example_app_payload) by (vm_compute; reflexivity).
  split; [exact Hbuilt|].
  pose proof (build_app_payload_converges example_schemas "Radarr (alice)"
                "Radarr" "http://prowlarr:9696" "http://radarr:7878/" "k1"
                None) as Hcases.
  change (List.find _ example_schemas)
    with (Some (mkAppSchema (JStr "Radarr") None
                  [{[ "name" := JStr "prowlarrUrl" ]};
                   {[ "name" := JStr "baseUrl" ]};
                   {[ "name" := JStr "apiKey" ]}])) in Hcases.
  cbv beta iota in Hcases.
  destruct (Hcases example_app_payload Hbuilt) as (_ & _ & Hread).
  apply Hread.
  - exists {[ "name" := JStr "baseUrl" ]}.
    split; [apply list_elem_of_In; right; left; reflexivity|reflexivity].
  - exists {[ "name" := JStr "apiKey" ]}.
    split; [apply list_elem_of_In; right; right; left; reflexivity
           |reflexivity].
Defined.

Lemma update_payload_contents_witness :
  action_type (plan_naming_config example_fetch example_target
                 example_reference "bob" (example_service example_naming))
    = UPDATE ∧
  ∃ payload,
    action_execute (plan_naming_config example_fetch example_target
                      example_reference "bob" (example_service example_naming))
      = Some (Op_update_naming_config example_target payload) ∧
    payload !! "renameMovies" = Some (JBool true).
Proof.
  split; [vm_compute; reflexivity|].
  destruct (action_execute (plan_naming_config example_fetch example_target
                      example_reference "bob" (example_service example_naming)))
    as [op|] eqn:Hexec; [|vm_compute in Hexec; discriminate].
  destruct (proj1 (update_payload_contents example_fetch example_target
                     example_reference "bob" (example_service example_naming))
              op Hexec) as (payload & -> & Hkeys).
  exists payload. split; [reflexivity|].
  rewrite (Hkeys "renameMovies"). vm_compute. reflexivity.
Defined.
